(** * triangle.cpp: the analytical model of a triangular nanoprism

    A shallow embedding of [src/triangle.cpp] and the properties of its
    functions: the cubic interpolation of the tabulated optical constants,
    the dielectric functions of silver and gold with their size-dependent
    correction, the dipole polarizability of the prism and the scattering
    and extinction cross sections derived from it.

    Arithmetic model.  A C++ [double] is modelled by an exact real number
    or by the single value [None] that stands for every result that is not
    a finite number (an infinity or a NaN: a division by zero, a square
    root or a fractional power of a negative number).  [None] is absorbing
    and compares false with everything.  [M_PI] is the number pi, and the
    arrays hold finite numbers.  Rounding and overflow are outside this
    model: a property stated on it is a property of the program in exact
    arithmetic, which the program keeps up to the rounding of its doubles.

    Where a property turns on rounding or on overflow itself, the
    dielectric functions are evaluated in binary64 arithmetic, operation
    by operation, in the module [IEEE].

    Control model.  A function returns a value, or the program exits (the
    range check of [epsAg] and [epsAu]), or the behaviour is undefined (a
    read outside an array). *)

From Stdlib Require Import Floats.
From Stdlib Require Import Reals Lra Lia ZArith String List Bool.
From Stdlib Require Import Machin.
Import ListNotations.
#[local] Set Warnings "-inexact-float".
Local Open Scope R_scope.

(** ** Control: normal return, [exit], undefined behaviour *)

Inductive outcome (A : Type) : Type :=
| Returns (a : A)                        (* the function returns [a] *)
| Exits (status : Z) (out : string)      (* [exit(status)] after printing [out] and a newline *)
| Faults.                                (* a read outside an array, or an [int] overflow *)

Arguments Returns {A} a.
Arguments Exits {A} status out.
Arguments Faults {A}.

Definition bind {A B : Type} (m : outcome A) (f : A -> outcome B) : outcome B :=
  match m with
  | Returns a => f a
  | Exits s o => Exits s o
  | Faults => Faults
  end.

Notation "x <- m ;; k" := (bind m (fun x => k))
  (at level 61, m at next level, right associativity).

(** ** double *)

Definition double := option R.
Definition fin (x : R) : double := Some x.
Coercion fin : R >-> double.

Declare Scope double_scope.
Delimit Scope double_scope with D.
Bind Scope double_scope with double.

Definition lift2 (f : R -> R -> R) (a b : double) : double :=
  match a, b with
  | Some x, Some y => Some (f x y)
  | _, _ => None
  end.

Definition dadd : double -> double -> double := lift2 Rplus.
Definition dsub : double -> double -> double := lift2 Rminus.
Definition dmul : double -> double -> double := lift2 Rmult.

Definition dneg (a : double) : double :=
  match a with Some x => Some (- x) | None => None end.

Definition ddiv (a b : double) : double :=
  match a, b with
  | Some x, Some y => if Req_dec_T y 0 then None else Some (x / y)
  | _, _ => None
  end.

(** [a < b] and [a > b]; a comparison with a value that is not finite is
    false, as it is with a NaN. *)
Definition dlt (a b : double) : bool :=
  match a, b with
  | Some x, Some y => if Rlt_dec x y then true else false
  | _, _ => false
  end.

Definition dgt (a b : double) : bool := dlt b a.

(** [std::sqrt]. *)
Definition dsqrt (a : double) : double :=
  match a with
  | Some x => if Rlt_dec x 0 then None else Some (sqrt x)
  | None => None
  end.

(** [pow(x, y)] of <math.h>: [exp (y * ln x)] for a positive base; for a
    zero base 0, 1 or a pole with the sign of the exponent; for a negative
    base the integral power when [y] is an integer and a NaN otherwise. *)
Definition dpow (a b : double) : double :=
  match a, b with
  | Some x, Some y =>
      if Rlt_dec 0 x then Some (Rpower x y)
      else if Req_dec_T x 0 then
        (if Rlt_dec 0 y then Some 0
         else if Req_dec_T y 0 then Some 1 else None)
      else if Req_dec_T (IZR (Int_part y)) y then Some (powerRZ x (Int_part y))
      else None
  | _, _ => None
  end.

(** The constant [M_PI] of <math.h>, the number pi. *)
Definition M_PI : double := fin PI.

Notation "x + y" := (dadd x y) : double_scope.
Notation "x - y" := (dsub x y) : double_scope.
Notation "x * y" := (dmul x y) : double_scope.
Notation "x / y" := (ddiv x y) : double_scope.
Notation "- x" := (dneg x) : double_scope.

(** ** std::complex<double> *)

Record Cx : Type := mkCx { re : R; im : R }.

Definition complex := option Cx.

(** The constructor [std::complex<double>(a, b)]. *)
Definition cplx (a b : double) : complex :=
  match a, b with
  | Some x, Some y => Some (mkCx x y)
  | _, _ => None
  end.

Definition c_add (z w : complex) : complex :=
  match z, w with
  | Some z, Some w => Some (mkCx (re z + re w) (im z + im w))
  | _, _ => None
  end.

Definition c_sub (z w : complex) : complex :=
  match z, w with
  | Some z, Some w => Some (mkCx (re z - re w) (im z - im w))
  | _, _ => None
  end.

(** [operator*(const complex<T>&, const T&)] and
    [operator*(const T&, const complex<T>&)] scale both parts. *)
Definition c_mul_d (z : complex) (x : double) : complex :=
  match z, x with
  | Some z, Some x => Some (mkCx (re z * x) (im z * x))
  | _, _ => None
  end.

Definition d_mul_c (x : double) (z : complex) : complex :=
  match x, z with
  | Some x, Some z => Some (mkCx (x * re z) (x * im z))
  | _, _ => None
  end.

(** [operator/(const complex<T>&, const T&)] divides both parts. *)
Definition c_div_d (z : complex) (x : double) : complex :=
  match z, x with
  | Some z, Some x =>
      if Req_dec_T x 0 then None else Some (mkCx (re z / x) (im z / x))
  | _, _ => None
  end.

(** [operator/(const complex<T>&, const complex<T>&)]. *)
Definition c_div (z w : complex) : complex :=
  match z, w with
  | Some z, Some w =>
      let m := re w * re w + im w * im w in
      if Req_dec_T m 0 then None
      else Some (mkCx ((re z * re w + im z * im w) / m)
                      ((im z * re w - re z * im w) / m))
  | _, _ => None
  end.

(** [operator/(const T&, const complex<T>&)]: the real operand is
    converted to a complex number first. *)
Definition d_div_c (x : double) (w : complex) : complex :=
  c_div (cplx x 0) w.

(** [std::abs] and [std::imag] of a complex number. *)
Definition c_abs (z : complex) : double :=
  match z with
  | Some z => Some (sqrt (re z * re z + im z * im z))
  | None => None
  end.

Definition c_imag (z : complex) : double :=
  match z with
  | Some z => Some (im z)
  | None => None
  end.

(** [std::real] of a complex number. *)
Definition c_real (z : complex) : double :=
  match z with
  | Some z => Some (re z)
  | None => None
  end.

(** The mixed operators carry a bar on the side of the complex operand. *)
Notation "z |+| w" := (c_add z w) (at level 50, left associativity) : double_scope.
Notation "z |-| w" := (c_sub z w) (at level 50, left associativity) : double_scope.
Notation "z |* x" := (c_mul_d z x) (at level 40, left associativity) : double_scope.
Notation "x *| z" := (d_mul_c x z) (at level 40, left associativity) : double_scope.
Notation "z |/ x" := (c_div_d z x) (at level 40, left associativity) : double_scope.
Notation "z |/| w" := (c_div z w) (at level 40, left associativity) : double_scope.
Notation "x /| w" := (d_div_c x w) (at level 40, left associativity) : double_scope.

(** ** Arrays *)

(** [a[i]] for an array of finite values; a read outside the array is
    undefined behaviour. *)
Definition read (a : list R) (i : Z) : outcome double :=
  if (i <? 0)%Z then Faults
  else match nth_error a (Z.to_nat i) with
       | Some v => Returns (fin v)
       | None => Faults
       end.

(** ** The analytical model of the prism *)

Definition dipPolariz (lambda : double) (eps_m : complex)
    (eps_h L H R_ : double) : complex :=
  let IRE := cplx 1.0 0.0 in
  let IIM := cplx 0.0 1.0 in
  let beta : double :=
    (-0.649487*dpow (L/H) (-1.27802) + 1.87718*dpow (L/R_) (-0.928178)
       + 0.0784606*dpow (H/R_) (-0.619604) + 0.617065)%D in
  let eps_c : double :=
    (-1.73983*dpow (L/H) 0.904851 + 23.7005*dpow (L/R_) (-9.71985)
       + 3.73666*dpow (H/R_) (-0.416187) - 4.23387)%D in
  let a2 : double :=
    (1.35181*dpow (L/H) (-0.556507) + 1.13818*dpow (L/R_) (-0.483608)
       - 0.287856*dpow (H/R_) (-0.468685) - 0.0564038)%D in
  let a4 : double :=
    (-2.58813*dpow (L/H) (-0.447242) - 2.62882*dpow (L/R_) (-2.97322)
       - 0.254773*dpow (H/R_) (-0.125501) + 0.702526)%D in
  let s : double := (dsqrt eps_h*L/lambda)%D in
  let V0 : double := (0.25*dsqrt 3.0*L*L*H)%D in
  let V1 : double := (V0*beta)%D in
  let Arc : complex :=
    (IRE|*s|*s|*a2 |+| 4.0*M_PI*M_PI*|IIM|*V1|*s|*s|*s|/(3.0*L*L*L)
       |+| IRE|*s|*s|*s|*s|*a4)%D in
  ((1.0/(4.0*M_PI))*V1/|( IRE|/|(eps_m|/eps_h |-| IRE) |-| IRE|/(eps_c - 1.0) |-| Arc ))%D.

Definition scatCSdip (lambda : double) (eps_m : complex)
    (eps_h L H R_ : double) : double :=
  let polariz := dipPolariz lambda eps_m eps_h L H R_ in
  let k : double := (2.0*M_PI*dsqrt eps_h/lambda)%D in
  (8.0*M_PI*dpow k 4*dpow (c_abs polariz) 2*1.0e-14/3.0)%D.

Definition extCSdip (lambda : double) (eps_m : complex)
    (eps_h L H R_ : double) : double :=
  let polariz := dipPolariz lambda eps_m eps_h L H R_ in
  let k : double := (2.0*M_PI*dsqrt eps_h/lambda)%D in
  (4.0*M_PI*k*c_imag polariz*1.0e-14)%D.

(** ** Dielectric functions of silver and gold *)

(** The loop of [interpolate]: [steps] iterations from index [j], on the
    state [(i, flag)].  [x_arr[j]] is read only while [flag] holds. *)
Fixpoint scan (x_arr : list R) (x_val : double) (steps : nat) (j : Z)
    (st : Z * bool) : outcome (Z * bool) :=
  match steps with
  | O => Returns st
  | S steps' =>
      if snd st then
        xj <- read x_arr j ;;
        if dgt xj x_val
        then scan x_arr x_val steps' (j + 1) ((j - 1)%Z, false)
        else scan x_arr x_val steps' (j + 1) st
      else scan x_arr x_val steps' (j + 1) st
  end.

(** The least [int]: [n - 3] overflows below it. *)
Definition INT_MIN : Z := (- 2 ^ 31)%Z.

Definition interpolate (n : Z) (x_arr y_arr : list R) (x_val : double)
    : outcome double :=
  st <- scan x_arr x_val (Z.to_nat (n - 1)) 1 (0%Z, true) ;;
  let i := fst st in
  let i := if (i <? 1)%Z then 1%Z else i in
  if (n - 3 <? INT_MIN)%Z then Faults else
  let i := if (i >? n - 3)%Z then (n - 3)%Z else i in
  x0 <- read x_arr (i - 1) ;;  y0 <- read y_arr (i - 1) ;;
  x1 <- read x_arr i ;;        y1 <- read y_arr i ;;
  x2 <- read x_arr (i + 1) ;;  y2 <- read y_arr (i + 1) ;;
  x3 <- read x_arr (i + 2) ;;  y3 <- read y_arr (i + 2) ;;
  Returns
    ((x_val - x1)*(x_val - x2)*(x_val - x3)*y0/((x0 - x1)*(x0 - x2)*(x0 - x3))
   + (x_val - x0)*(x_val - x2)*(x_val - x3)*y1/((x1 - x0)*(x1 - x2)*(x1 - x3))
   + (x_val - x0)*(x_val - x1)*(x_val - x3)*y2/((x2 - x0)*(x2 - x1)*(x2 - x3))
   + (x_val - x0)*(x_val - x1)*(x_val - x2)*y3/((x3 - x0)*(x3 - x1)*(x3 - x2)))%D.

(** The condition [(omega < energy[0]) && (omega > energy[num - 1])] of
    the range check; [&&] evaluates its second operand only when the first
    one holds. *)
Definition out_of_range (num : Z) (energy : list R) (omega : double)
    : outcome bool :=
  e_first <- read energy 0 ;;
  if dlt omega e_first
  then e_last <- read energy (num - 1) ;; Returns (dgt omega e_last)
  else Returns false.

(** The body shared by [epsAg] and [epsAu], which differ in their tables
    and in the text they print only. *)
Definition epsTable (num : Z) (energy ndata kdata : list R) (msg : string)
    (lambda : double) : outcome complex :=
  let IRE := cplx 1.0 0.0 in
  let IIM := cplx 0.0 1.0 in
  let omega : double := (1239.8/lambda)%D in
  failed <- out_of_range num energy omega ;;
  if failed then Exits 0 msg
  else
    n_val <- interpolate num energy ndata omega ;;
    k_val <- interpolate num energy kdata omega ;;
    Returns (IRE|*(n_val*n_val - k_val*k_val) |+| IIM|*2.0|*n_val|*k_val)%D.

(** Silver: Johnson and Christy, Phys. Rev. B 6, 470 (1972). *)
Module Ag.

Definition num : Z := 49.

Definition energy : list R :=
  [
    0.64; 0.77; 0.89; 1.02; 1.14; 1.26; 1.39; 1.51; 1.64; 1.76; 1.88; 2.01; 2.13; 2.26; 2.38;
    2.50; 2.63; 2.75; 2.88; 3.00; 3.12; 3.25; 3.37; 3.50; 3.62; 3.74; 3.87; 3.99; 4.12; 4.24;
    4.36; 4.49; 4.61; 4.74; 4.86; 4.98; 5.11; 5.23; 5.36; 5.48; 5.60; 5.73; 5.85; 5.98; 6.10;
    6.22; 6.35; 6.47; 6.60 ].

Definition ndata : list R :=
  [
    0.24; 0.15; 0.13; 0.09; 0.04; 0.04; 0.04; 0.04; 0.03; 0.04; 0.05; 0.06; 0.05; 0.06; 0.05;
    0.05; 0.05; 0.04; 0.04; 0.05; 0.05; 0.05; 0.07; 0.10; 0.14; 0.17; 0.81; 1.13; 1.34; 1.39;
    1.41; 1.41; 1.38; 1.35; 1.33; 1.31; 1.30; 1.28; 1.28; 1.26; 1.25; 1.22; 1.20; 1.18; 1.15;
    1.14; 1.12; 1.10; 1.07 ].

Definition kdata : list R :=
  [
    14.080; 11.85; 10.10; 8.828; 7.795; 6.992; 6.312; 5.727; 5.242; 4.838; 4.483; 4.152; 3.858;
    3.586; 3.324; 3.093; 2.869; 2.657; 2.462; 2.275; 2.070; 1.864; 1.657; 1.419; 1.142; 0.829;
    0.392; 0.616; 0.964; 1.161; 1.264; 1.331; 1.372; 1.387; 1.393; 1.389; 1.378; 1.367; 1.357;
    1.344; 1.342; 1.336; 1.325; 1.312; 1.296; 1.277; 1.255; 1.232; 1.212 ].

End Ag.

(** Gold: Olmon et al., Phys. Rev. B 86, 235147 (2012). *)
Module Au.

Definition num : Z := 448.

Definition energy : list R :=
  [
    0.0497329; 0.0516601; 0.0535569; 0.0554739; 0.0574001; 0.0592942; 0.0612268; 0.0631284;
    0.0650494; 0.0669461; 0.0688801; 0.0707672; 0.0726754; 0.0745994; 0.0765334; 0.0784214;
    0.0803527; 0.0822722; 0.0841712; 0.0861001; 0.0879944; 0.0899088; 0.0918401; 0.0937144;
    0.0956668; 0.0975485; 0.0995058; 0.101377; 0.10332; 0.10525; 0.10716; 0.109045; 0.110997;
    0.112815; 0.1148; 0.116636; 0.118645; 0.12049; 0.122393; 0.124345; 0.126257; 0.128176;
    0.130085; 0.131996; 0.133907; 0.135828; 0.13773; 0.139653; 0.141567; 0.143467; 0.145385;
    0.147302; 0.149217; 0.151126; 0.153048; 0.154961; 0.156863; 0.158771; 0.160685; 0.162602;
    0.164523; 0.166422; 0.168342; 0.170261; 0.172176; 0.174086; 0.175989; 0.177908; 0.179818;
    0.181742; 0.183653; 0.18555; 0.187486; 0.189376; 0.191304; 0.193212; 0.195128; 0.197051;
    0.198948; 0.200849; 0.202787; 0.204696; 0.206606; 0.208517; 0.210428; 0.212338; 0.214246;
    0.216151; 0.21809; 0.219986; 0.221915; 0.223839; 0.225713; 0.227661; 0.229558; 0.231487;
    0.233404; 0.235309; 0.237199; 0.239121; 0.241027; 0.242963; 0.244883; 0.246784; 0.248665;
    0.250625; 0.252514; 0.254431; 0.256325; 0.258247; 0.260143; 0.262068; 0.263965; 0.265889;
    0.267842; 0.269707; 0.271657; 0.273575; 0.275459; 0.27737; 0.279307; 0.281207; 0.283134;
    0.285021; 0.286934; 0.288873; 0.29077; 0.292692; 0.294569; 0.296542; 0.298398; 0.300349;
    0.302253; 0.304181; 0.306058; 0.307959; 0.309883; 0.311831; 0.313725; 0.315642; 0.317582;
    0.319465; 0.321369; 0.323296; 0.325247; 0.327135; 0.329045; 0.330978; 0.332843; 0.334731;
    0.336639; 0.33857; 0.340522; 0.342403; 0.344305; 0.346228; 0.348172; 0.35004; 0.352028;
    0.353937; 0.355765; 0.357715; 0.359687; 0.361575; 0.363483; 0.365412; 0.367252; 0.36922;
    0.371099; 0.372997; 0.374914; 0.376852; 0.378809; 0.38067; 0.382549; 0.384566; 0.386364;
    0.3883; 0.390256; 0.392107; 0.394101; 0.395989; 0.397895; 0.39982; 0.401763; 0.403594;
    0.405575; 0.407441; 0.409324; 0.411224; 0.413143; 0.415079; 0.417034; 0.419007; 0.420856;
    0.422721; 0.424749; 0.426649; 0.428566; 0.430351; 0.432302; 0.43427; 0.436103; 0.438107;
    0.439972; 0.441854; 0.443752; 0.445666; 0.447596; 0.449544; 0.451508; 0.453324; 0.455322;
    0.457169; 0.459031; 0.461079; 0.462973; 0.464883; 0.466808; 0.468749; 0.470528; 0.472501;
    0.47449; 0.476313; 0.47815; 0.480187; 0.482054; 0.483935; 0.485831; 0.487743; 0.489669;
    0.491611; 0.493568; 0.49554; 0.497329; 0.499332; 0.501149; 0.503183; 0.505027; 0.506885;
    0.508757; 0.510854; 0.512755; 0.514671; 0.518329; 0.520286; 0.522259; 0.524246; 0.526025;
    0.528042; 0.529847; 0.533724; 0.535569; 0.537426; 0.539531; 0.543314; 0.545225; 0.54715;
    0.549088; 0.55276; 0.554739; 0.556732; 0.558487; 0.562287; 0.564334; 0.566138; 0.570042;
    0.571883; 0.575867; 0.577745; 0.579636; 0.583455; 0.585383; 0.589278; 0.590964; 0.594934;
    0.596939; 0.600699; 0.60245; 0.60628; 0.608362; 0.612268; 0.614087; 0.617759; 0.619921;
    0.623036; 0.626183; 0.629361; 0.632572; 0.635816; 0.639094; 0.642405; 0.645751; 0.649132;
    0.652548; 0.656001; 0.65949; 0.663017; 0.666582; 0.670185; 0.673827; 0.677509; 0.681232;
    0.684995; 0.688801; 0.692649; 0.69654; 0.700476; 0.704456; 0.708481; 0.712553; 0.716672;
    0.720838; 0.725054; 0.729319; 0.733634; 0.738001; 0.74242; 0.746893; 0.751419; 0.756001;
    0.760639; 0.765334; 0.770088; 0.774901; 0.779775; 0.78471; 0.789708; 0.79477; 0.799898;
    0.805092; 0.810354; 0.815685; 0.821087; 0.826561; 0.832109; 0.837731; 0.84343; 0.849207;
    0.855063; 0.861001; 0.867022; 0.918401; 0.925255; 0.932212; 0.939274; 0.946444; 0.953724;
    0.961118; 0.968626; 0.976253; 0.984001; 0.991873; 0.999872; 1.008; 1.01626; 1.02466; 1.0332;
    1.04188; 1.05071; 1.05969; 1.06883; 1.07812; 1.08758; 1.09721; 1.107; 1.11697; 1.12713;
    1.13747; 1.148; 1.15873; 1.16966; 1.1808; 1.19216; 1.20373; 1.21553; 1.22757; 1.23984;
    1.25237; 1.26514; 1.27819; 1.2915; 1.3051; 1.31898; 1.33316; 1.34765; 1.36246; 1.3776;
    1.39308; 1.40891; 1.42511; 1.44168; 1.45864; 1.476; 1.49379; 1.512; 1.53067; 1.5498;
    1.56942; 1.58954; 1.61018; 1.63137; 1.65312; 1.67546; 1.69841; 1.722; 1.74626; 1.7712;
    1.79687; 1.8233; 1.85051; 1.87855; 1.90745; 1.93725; 1.968; 1.99974; 2.03253; 2.0664;
    2.10143; 2.13766; 2.17516; 2.214; 2.25426; 2.296; 2.33932; 2.38431; 2.43106; 2.47968;
    2.53029; 2.583; 2.63796; 2.69531; 2.7552; 2.81782; 2.88335; 2.952; 3.024; 3.0996; 3.17908;
    3.26274; 3.35092; 3.444; 3.54241; 3.64659; 3.7571; 3.87451; 3.99949; 4.13281 ].

Definition ndata : list R :=
  [
    42.79; 40.92; 39.16; 37.49; 35.91; 34.41; 33; 31.66; 30.39; 29.19; 28.05; 26.97; 25.94;
    24.97; 24.04; 23.17; 22.33; 21.54; 20.78; 20.06; 19.38; 18.72; 18.1; 17.51; 16.94; 16.4;
    15.88; 15.38; 14.91; 14.46; 14.02; 13.61; 13.21; 12.83; 12.46; 12.11; 11.77; 11.45; 11.14;
    10.84; 10.55; 10.27; 10.01; 9.749; 9.502; 9.263; 9.034; 8.812; 8.598; 8.392; 8.193; 8;
    7.814; 7.634; 7.461; 7.293; 7.13; 6.973; 6.82; 6.673; 6.53; 6.392; 6.258; 6.127; 6.001;
    5.879; 5.76; 5.645; 5.533; 5.424; 5.319; 5.216; 5.117; 5.02; 4.926; 4.834; 4.745; 4.658;
    4.574; 4.492; 4.412; 4.334; 4.258; 4.184; 4.112; 4.042; 3.973; 3.906; 3.841; 3.778; 3.716;
    3.655; 3.596; 3.539; 3.482; 3.427; 3.374; 3.321; 3.27; 3.22; 3.171; 3.123; 3.077; 3.031;
    2.986; 2.942; 2.899; 2.858; 2.817; 2.776; 2.737; 2.699; 2.661; 2.624; 2.588; 2.553; 2.518;
    2.484; 2.451; 2.418; 2.386; 2.355; 2.324; 2.294; 2.264; 2.235; 2.207; 2.179; 2.152; 2.125;
    2.098; 2.072; 2.047; 2.022; 1.998; 1.974; 1.95; 1.927; 1.904; 1.881; 1.859; 1.838; 1.817;
    1.796; 1.775; 1.755; 1.735; 1.716; 1.697; 1.678; 1.659; 1.641; 1.623; 1.605; 1.588; 1.571;
    1.554; 1.538; 1.521; 1.505; 1.49; 1.474; 1.459; 1.444; 1.429; 1.414; 1.4; 1.386; 1.372;
    1.358; 1.345; 1.331; 1.318; 1.305; 1.293; 1.28; 1.268; 1.256; 1.244; 1.232; 1.22; 1.209;
    1.197; 1.186; 1.175; 1.164; 1.153; 1.143; 1.132; 1.122; 1.112; 1.102; 1.092; 1.082; 1.073;
    1.063; 1.054; 1.045; 1.036; 1.027; 1.018; 1.009; 1; 0.9919; 0.9835; 0.9752; 0.967; 0.9589;
    0.9509; 0.943; 0.9352; 0.9275; 0.9199; 0.9123; 0.9049; 0.8976; 0.8904; 0.8832; 0.8761;
    0.8692; 0.8623; 0.8554; 0.8487; 0.8421; 0.8355; 0.829; 0.8226; 0.8162; 0.8099; 0.8037;
    0.7976; 0.7916; 0.7856; 0.7797; 0.7738; 0.768; 0.7623; 0.7566; 0.7511; 0.7455; 0.7401;
    0.7347; 0.7293; 0.724; 0.7136; 0.7085; 0.7034; 0.6984; 0.6935; 0.6886; 0.6837; 0.6742;
    0.6695; 0.6649; 0.6603; 0.6512; 0.6468; 0.6423; 0.638; 0.6294; 0.6252; 0.621; 0.6168;
    0.6087; 0.6047; 0.6007; 0.5929; 0.589; 0.5814; 0.5776; 0.5739; 0.5666; 0.563; 0.5559;
    0.5524; 0.5455; 0.5421; 0.5354; 0.5321; 0.5256; 0.5224; 0.516; 0.5129; 0.5068; 0.5031;
    0.4989; 0.4942; 0.4896; 0.4851; 0.4805; 0.476; 0.4715; 0.4671; 0.4627; 0.4583; 0.454;
    0.4497; 0.4454; 0.4412; 0.4369; 0.4328; 0.4286; 0.4245; 0.4204; 0.4163; 0.4123; 0.4082;
    0.4042; 0.4003; 0.3963; 0.3924; 0.3885; 0.3847; 0.3808; 0.377; 0.3732; 0.3695; 0.3657;
    0.362; 0.3583; 0.3546; 0.351; 0.3474; 0.3437; 0.3402; 0.3366; 0.3331; 0.3295; 0.326; 0.3226;
    0.3191; 0.3157; 0.3123; 0.3089; 0.3055; 0.3021; 0.2988; 0.2955; 0.2922; 0.2889; 0.2857;
    0.2824; 0.2551; 0.252; 0.249; 0.246; 0.243; 0.24; 0.2371; 0.2342; 0.2313; 0.2281; 0.225;
    0.2218; 0.2187; 0.2157; 0.2126; 0.2096; 0.2066; 0.2036; 0.2007; 0.1978; 0.1949; 0.1921;
    0.1893; 0.1865; 0.1837; 0.181; 0.1783; 0.1757; 0.1731; 0.1705; 0.168; 0.1655; 0.163; 0.1606;
    0.1582; 0.1559; 0.1536; 0.1514; 0.1493; 0.1471; 0.1451; 0.1431; 0.1412; 0.1393; 0.1375;
    0.1358; 0.1342; 0.1326; 0.1312; 0.1298; 0.1286; 0.1275; 0.1265; 0.1256; 0.1249; 0.1244;
    0.124; 0.1239; 0.1239; 0.1242; 0.1248; 0.1257; 0.1268; 0.1284; 0.1304; 0.1328; 0.1358;
    0.1394; 0.1436; 0.1487; 0.1546; 0.1616; 0.1698; 0.1794; 0.1908; 0.2041; 0.2199; 0.2388;
    0.2617; 0.2899; 0.3256; 0.3724; 0.4363; 0.5263; 0.6527; 0.8197; 1.011; 1.193; 1.333; 1.422;
    1.472; 1.505; 1.537; 1.567; 1.585; 1.588; 1.585; 1.588; 1.606; 1.637; 1.671; 1.695; 1.701;
    1.685; 1.649; 1.596 ].

Definition kdata : list R :=
  [
    137.5; 133.9; 130.4; 127.1; 124; 121; 118.2; 115.5; 112.9; 110.4; 108.1; 105.8; 103.6;
    101.5; 99.47; 97.52; 95.64; 93.83; 92.08; 90.39; 88.76; 87.18; 85.66; 84.18; 82.76; 81.37;
    80.03; 78.73; 77.47; 76.25; 75.07; 73.91; 72.8; 71.71; 70.65; 69.63; 68.63; 67.65; 66.71;
    65.78; 64.89; 64.01; 63.16; 62.33; 61.52; 60.73; 59.96; 59.2; 58.47; 57.75; 57.05; 56.37;
    55.7; 55.04; 54.4; 53.78; 53.17; 52.57; 51.98; 51.41; 50.85; 50.3; 49.76; 49.24; 48.72;
    48.21; 47.72; 47.23; 46.76; 46.29; 45.83; 45.38; 44.94; 44.51; 44.08; 43.67; 43.26; 42.85;
    42.46; 42.07; 41.69; 41.32; 40.95; 40.59; 40.23; 39.88; 39.54; 39.2; 38.87; 38.54; 38.22;
    37.9; 37.59; 37.29; 36.98; 36.69; 36.4; 36.11; 35.82; 35.55; 35.27; 35; 34.73; 34.47; 34.21;
    33.96; 33.71; 33.46; 33.21; 32.97; 32.74; 32.5; 32.27; 32.04; 31.82; 31.6; 31.38; 31.16;
    30.95; 30.74; 30.53; 30.33; 30.13; 29.93; 29.73; 29.54; 29.34; 29.15; 28.97; 28.78; 28.6;
    28.42; 28.24; 28.07; 27.89; 27.72; 27.55; 27.38; 27.22; 27.06; 26.89; 26.73; 26.58; 26.42;
    26.27; 26.11; 25.96; 25.81; 25.67; 25.52; 25.38; 25.23; 25.09; 24.95; 24.81; 24.68; 24.54;
    24.41; 24.28; 24.14; 24.01; 23.89; 23.76; 23.63; 23.51; 23.39; 23.26; 23.14; 23.02; 22.91;
    22.79; 22.67; 22.56; 22.45; 22.33; 22.22; 22.11; 22; 21.89; 21.79; 21.68; 21.57; 21.47;
    21.37; 21.26; 21.16; 21.06; 20.96; 20.86; 20.77; 20.67; 20.57; 20.48; 20.38; 20.29; 20.2;
    20.11; 20.02; 19.93; 19.84; 19.75; 19.66; 19.57; 19.49; 19.4; 19.32; 19.23; 19.15; 19.06;
    18.98; 18.9; 18.82; 18.74; 18.66; 18.58; 18.5; 18.43; 18.35; 18.27; 18.2; 18.12; 18.05;
    17.97; 17.9; 17.83; 17.75; 17.68; 17.61; 17.54; 17.47; 17.4; 17.33; 17.26; 17.2; 17.13;
    17.06; 17; 16.93; 16.86; 16.8; 16.73; 16.67; 16.61; 16.54; 16.42; 16.36; 16.3; 16.24; 16.17;
    16.11; 16.06; 15.94; 15.88; 15.82; 15.76; 15.65; 15.59; 15.54; 15.48; 15.37; 15.32; 15.26;
    15.21; 15.1; 15.05; 15; 14.89; 14.84; 14.74; 14.69; 14.64; 14.54; 14.49; 14.39; 14.35;
    14.25; 14.2; 14.11; 14.06; 13.97; 13.93; 13.84; 13.79; 13.7; 13.65; 13.59; 13.52; 13.46;
    13.39; 13.32; 13.25; 13.19; 13.12; 13.05; 12.99; 12.92; 12.85; 12.78; 12.72; 12.65; 12.58;
    12.52; 12.45; 12.38; 12.31; 12.25; 12.18; 12.11; 12.04; 11.98; 11.91; 11.84; 11.77; 11.71;
    11.64; 11.57; 11.5; 11.44; 11.37; 11.3; 11.23; 11.16; 11.1; 11.03; 10.96; 10.89; 10.82;
    10.76; 10.69; 10.62; 10.55; 10.48; 10.41; 10.35; 10.28; 10.21; 10.14; 10.07; 10; 9.934;
    9.865; 9.796; 9.214; 9.145; 9.075; 9.005; 8.935; 8.865; 8.795; 8.725; 8.655; 8.581; 8.506;
    8.432; 8.358; 8.283; 8.208; 8.134; 8.059; 7.984; 7.909; 7.834; 7.759; 7.683; 7.608; 7.532;
    7.456; 7.38; 7.304; 7.228; 7.152; 7.075; 6.999; 6.922; 6.845; 6.768; 6.69; 6.613; 6.535;
    6.457; 6.379; 6.301; 6.222; 6.143; 6.064; 5.985; 5.905; 5.825; 5.745; 5.664; 5.583; 5.501;
    5.42; 5.338; 5.255; 5.172; 5.088; 5.004; 4.92; 4.834; 4.749; 4.662; 4.575; 4.487; 4.398;
    4.308; 4.217; 4.126; 4.033; 3.938; 3.843; 3.746; 3.647; 3.547; 3.444; 3.34; 3.232; 3.122;
    3.009; 2.891; 2.769; 2.641; 2.507; 2.364; 2.213; 2.058; 1.908; 1.787; 1.72; 1.716; 1.758;
    1.812; 1.855; 1.877; 1.887; 1.898; 1.911; 1.915; 1.904; 1.877; 1.846; 1.825; 1.821; 1.835;
    1.858; 1.881; 1.895; 1.888 ].

End Au.

Definition epsAg (lambda : double) : outcome complex :=
  epsTable Ag.num Ag.energy Ag.ndata Ag.kdata
    "Argument of dielectric function of silver is out of range" lambda.

Definition epsAu (lambda : double) : outcome complex :=
  epsTable Au.num Au.energy Au.ndata Au.kdata
    "Argument of dielectric function of gold is out of range" lambda.

Definition epsAgSD (lambda D : double) : outcome complex :=
  let IRE := cplx 1.0 0.0 in
  let IIM := cplx 0.0 1.0 in
  let vF : double := 1.39e8 in         (* cm/s (Fermi velocity) *)
  let lam_inf : double := 5.2e-6 in    (* cm (mean electron free path) *)
  let omega_p : double := 9.1 in       (* eV (plasma angular frequency) *)
  let A : double := 2.5 in             (* empirical constant *)
  let h_bar : double := 6.582e-16 in
  let gam_inf : double := (h_bar*vF/lam_inf)%D in
  let gam_r : double := (gam_inf + A*h_bar*vF*1.0e7*(2.0/D))%D in
  let omega : double := (1239.8/lambda)%D in
  eps <- epsAg lambda ;;
  Returns (eps
    |+| omega_p*omega_p*|( IRE|/|(IRE|*omega|*omega |+| IIM|*omega|*gam_inf)
                          |-| IRE|/|(IRE|*omega|*omega |+| IIM|*omega|*gam_r) ))%D.

Definition epsAuSD (lambda D : double) : outcome complex :=
  let IRE := cplx 1.0 0.0 in
  let IIM := cplx 0.0 1.0 in
  let vF : double := 1.38e8 in         (* cm/s (Fermi velocity) *)
  let lam_inf : double := 1.28e-6 in   (* cm (mean electron free path) *)
  let omega_p : double := 9.0 in       (* eV (plasma angular frequency) *)
  let A : double := 2.0 in             (* empirical constant *)
  let h_bar : double := 6.582e-16 in
  let gam_inf : double := (h_bar*vF/lam_inf)%D in
  let gam_r : double := (gam_inf + A*h_bar*vF*1.0e7*(2.0/D))%D in
  let omega : double := (1239.8/lambda)%D in
  eps <- epsAu lambda ;;
  Returns (eps
    |+| omega_p*omega_p*|( IRE|/|(IRE|*omega|*omega |+| IIM|*omega|*gam_inf)
                          |-| IRE|/|(IRE|*omega|*omega |+| IIM|*omega|*gam_r) ))%D.

(** Diameter of a sphere of the same volume as the prism. *)
Definition diameter (L H : double) : double :=
  (2.0*dpow (3.0*dsqrt 3.0*L*L*H/(16.0*M_PI)) (1.0/3.0))%D.

(** ** The example program *)

(** The greatest [int]. *)
Definition INT_MAX : Z := (2 ^ 31 - 1)%Z.

(** The conversion [(int)x] of a [double]: the fraction is discarded, and
    the behaviour is undefined when the value does not fit in an [int].
    Here the value converted is the exact one; the program converts the
    rounded one, and the two are one number wherever the arithmetic of the
    program is exact, as it is on whole numbers of moderate size. *)
Definition trunc (r : R) : Z :=
  if Rlt_dec r 0 then (- Int_part (- r))%Z else Int_part r.

Definition to_int (x : double) : outcome Z :=
  match x with
  | Some r =>
      if ((INT_MIN <=? trunc r) && (trunc r <=? INT_MAX))%Z
      then Returns (trunc r) else Faults
  | None => Faults
  end.

(** What the program has written when it ends: the effective size printed
    on the standard output, and the four files; a file is the list of its
    lines, a line the pair of the numbers written on it (the formatting of
    the numbers is left out). *)
Record output : Type := mkOutput {
  printed_D_SD : double;
  fout_re : list (double * double);
  fout_im : list (double * double);
  fout_sc : list (double * double);
  fout_ex : list (double * double)
}.

(** The loop of [main]: [steps] iterations from the index [i]. *)
Fixpoint main_loop (L_size R_size H_size eps_h : double) (is_silver : bool)
    (wl_min wl_step D_SD : double) (steps : nat) (i : Z) (out : output)
    : outcome output :=
  match steps with
  | O => Returns out
  | S steps' =>
      let wl : double := (wl_min + fin (IZR i)*wl_step)%D in
      eps_m <- (if is_silver then epsAgSD wl D_SD else epsAuSD wl D_SD) ;;
      let val := dipPolariz wl eps_m eps_h L_size H_size R_size in
      main_loop L_size R_size H_size eps_h is_silver wl_min wl_step D_SD steps' (i + 1)
        {| printed_D_SD := printed_D_SD out;
           fout_re := fout_re out ++ [(wl, c_real val)];
           fout_im := fout_im out ++ [(wl, c_imag val)];
           fout_sc := fout_sc out
                      ++ [(wl, scatCSdip wl eps_m eps_h L_size H_size R_size)];
           fout_ex := fout_ex out
                      ++ [(wl, extCSdip wl eps_m eps_h L_size H_size R_size)] |}
  end.

(** The body of [main] as a function of its calculation parameters; the
    result is the status that [main] returns and what it has written. *)
Definition main_with (L_size R_size H_size eps_h : double) (is_silver : bool)
    (wl_min wl_max wl_step : double) : outcome (Z * output) :=
  let D_SD := diameter L_size H_size in
  n <- to_int ((wl_max - wl_min)/wl_step)%D ;;
  if (n + 1 >? INT_MAX)%Z then Faults else
  let wl_n := (n + 1)%Z in
  out <- main_loop L_size R_size H_size eps_h is_silver wl_min wl_step D_SD
           (Z.to_nat wl_n) 0 (mkOutput D_SD [] [] [] []) ;;
  Returns (0%Z, out).

Definition main : outcome (Z * output) :=
  main_with 50.0 2.0 20.0 1.0 true 300.0 800.0 2.0.

(** * The program in binary64 arithmetic

    The dielectric functions once more, on the numbers that the program
    computes with: every [double] is a binary64 number,
    every literal is the binary64 number nearest to it, and every
    operation is the operation of IEEE 754, rounded to nearest, with its
    infinities and NaNs.  The definitions follow the ones above line by
    line.  They serve where the program departs from exact arithmetic: a
    sum that absorbs a small term, a product that overflows. *)
Module IEEE.

Local Open Scope float_scope.

(** ** std::complex<double> *)

Record complex : Type := mk { re : float; im : float }.

Definition c_add (z w : complex) : complex := mk (re z + re w) (im z + im w).
Definition c_sub (z w : complex) : complex := mk (re z - re w) (im z - im w).

(** [operator*] with a real operand scales both parts. *)
Definition c_mul_d (z : complex) (x : float) : complex := mk (re z * x) (im z * x).
Definition d_mul_c (x : float) (z : complex) : complex := mk (re z * x) (im z * x).

(** [operator/(const complex<T>&, const complex<T>&)]: the quotient
    [(a + i b)/(c + i d)] by the method of Smith, as the runtime of the
    compiler computes it for operands of ordinary magnitude (its rescaling
    of very large and very small operands by powers of two and its recovery
    of infinities are left out). *)
Definition c_div (z w : complex) : complex :=
  let a := re z in
  let b := im z in
  let c := re w in
  let d := im w in
  if PrimFloat.abs c <? PrimFloat.abs d then
    let ratio := c / d in
    let denom := (c * ratio) + d in
    mk (((a * ratio) + b) / denom) (((b * ratio) - a) / denom)
  else
    let ratio := d / c in
    let denom := (d * ratio) + c in
    mk (((b * ratio) + a) / denom) ((b - (a * ratio)) / denom).

Notation "z |+| w" := (c_add z w) : float_scope.
Notation "z |-| w" := (c_sub z w) : float_scope.
Notation "z |* x" := (c_mul_d z x) : float_scope.
Notation "x *| z" := (d_mul_c x z) : float_scope.
Notation "z |/| w" := (c_div z w) : float_scope.

(** ** Arrays *)

Definition read (a : list float) (i : Z) : outcome float :=
  if (i <? 0)%Z then Faults
  else match nth_error a (Z.to_nat i) with
       | Some v => Returns v
       | None => Faults
       end.

(** ** Dielectric functions of silver and gold *)

Fixpoint scan (x_arr : list float) (x_val : float) (steps : nat) (j : Z)
    (st : Z * bool) : outcome (Z * bool) :=
  match steps with
  | O => Returns st
  | S steps' =>
      if snd st then
        xj <- read x_arr j ;;
        if x_val <? xj
        then scan x_arr x_val steps' (j + 1)%Z ((j - 1)%Z, false)
        else scan x_arr x_val steps' (j + 1)%Z st
      else scan x_arr x_val steps' (j + 1)%Z st
  end.

Definition interpolate (n : Z) (x_arr y_arr : list float) (x_val : float)
    : outcome float :=
  st <- scan x_arr x_val (Z.to_nat (n - 1)) 1%Z (0%Z, true) ;;
  let i := fst st in
  let i := if (i <? 1)%Z then 1%Z else i in
  if (n - 3 <? INT_MIN)%Z then Faults else
  let i := if (i >? n - 3)%Z then (n - 3)%Z else i in
  x0 <- read x_arr (i - 1)%Z ;;  y0 <- read y_arr (i - 1)%Z ;;
  x1 <- read x_arr i ;;          y1 <- read y_arr i ;;
  x2 <- read x_arr (i + 1)%Z ;;  y2 <- read y_arr (i + 1)%Z ;;
  x3 <- read x_arr (i + 2)%Z ;;  y3 <- read y_arr (i + 2)%Z ;;
  Returns
    ((x_val - x1)*(x_val - x2)*(x_val - x3)*y0/((x0 - x1)*(x0 - x2)*(x0 - x3))
   + (x_val - x0)*(x_val - x2)*(x_val - x3)*y1/((x1 - x0)*(x1 - x2)*(x1 - x3))
   + (x_val - x0)*(x_val - x1)*(x_val - x3)*y2/((x2 - x0)*(x2 - x1)*(x2 - x3))
   + (x_val - x0)*(x_val - x1)*(x_val - x2)*y3/((x3 - x0)*(x3 - x1)*(x3 - x2))).

Definition out_of_range (num : Z) (energy : list float) (omega : float)
    : outcome bool :=
  e_first <- read energy 0%Z ;;
  if omega <? e_first
  then e_last <- read energy (num - 1)%Z ;; Returns (e_last <? omega)
  else Returns false.

Definition epsTable (num : Z) (energy ndata kdata : list float) (msg : string)
    (lambda : float) : outcome complex :=
  let IRE := mk 1.0 0.0 in
  let IIM := mk 0.0 1.0 in
  let omega := 1239.8/lambda in
  failed <- out_of_range num energy omega ;;
  if failed then Exits 0%Z msg
  else
    n_val <- interpolate num energy ndata omega ;;
    k_val <- interpolate num energy kdata omega ;;
    Returns (IRE|*(n_val*n_val - k_val*k_val) |+| IIM|*2.0|*n_val|*k_val).

(** Silver: Johnson and Christy, Phys. Rev. B 6, 470 (1972). *)
Module Ag.

Definition num : Z := 49.

Definition energy : list float :=
  [
    0.64; 0.77; 0.89; 1.02; 1.14; 1.26; 1.39; 1.51; 1.64; 1.76; 1.88; 2.01;
    2.13; 2.26; 2.38; 2.50; 2.63; 2.75; 2.88; 3.00; 3.12; 3.25; 3.37; 3.50;
    3.62; 3.74; 3.87; 3.99; 4.12; 4.24; 4.36; 4.49; 4.61; 4.74; 4.86; 4.98;
    5.11; 5.23; 5.36; 5.48; 5.60; 5.73; 5.85; 5.98; 6.10; 6.22; 6.35; 6.47;
    6.60 ].

Definition ndata : list float :=
  [
    0.24; 0.15; 0.13; 0.09; 0.04; 0.04; 0.04; 0.04; 0.03; 0.04; 0.05; 0.06;
    0.05; 0.06; 0.05; 0.05; 0.05; 0.04; 0.04; 0.05; 0.05; 0.05; 0.07; 0.10;
    0.14; 0.17; 0.81; 1.13; 1.34; 1.39; 1.41; 1.41; 1.38; 1.35; 1.33; 1.31;
    1.30; 1.28; 1.28; 1.26; 1.25; 1.22; 1.20; 1.18; 1.15; 1.14; 1.12; 1.10;
    1.07 ].

Definition kdata : list float :=
  [
    14.080; 11.85; 10.10; 8.828; 7.795; 6.992; 6.312; 5.727; 5.242; 4.838; 4.483; 4.152;
    3.858; 3.586; 3.324; 3.093; 2.869; 2.657; 2.462; 2.275; 2.070; 1.864; 1.657; 1.419;
    1.142; 0.829; 0.392; 0.616; 0.964; 1.161; 1.264; 1.331; 1.372; 1.387; 1.393; 1.389;
    1.378; 1.367; 1.357; 1.344; 1.342; 1.336; 1.325; 1.312; 1.296; 1.277; 1.255; 1.232;
    1.212 ].

End Ag.

(** Gold: Olmon et al., Phys. Rev. B 86, 235147 (2012). *)
Module Au.

Definition num : Z := 448.

Definition energy : list float :=
  [
    0.0497329; 0.0516601; 0.0535569; 0.0554739; 0.0574001; 0.0592942; 0.0612268; 0.0631284; 0.0650494; 0.0669461; 0.0688801; 0.0707672;
    0.0726754; 0.0745994; 0.0765334; 0.0784214; 0.0803527; 0.0822722; 0.0841712; 0.0861001; 0.0879944; 0.0899088; 0.0918401; 0.0937144;
    0.0956668; 0.0975485; 0.0995058; 0.101377; 0.10332; 0.10525; 0.10716; 0.109045; 0.110997; 0.112815; 0.1148; 0.116636;
    0.118645; 0.12049; 0.122393; 0.124345; 0.126257; 0.128176; 0.130085; 0.131996; 0.133907; 0.135828; 0.13773; 0.139653;
    0.141567; 0.143467; 0.145385; 0.147302; 0.149217; 0.151126; 0.153048; 0.154961; 0.156863; 0.158771; 0.160685; 0.162602;
    0.164523; 0.166422; 0.168342; 0.170261; 0.172176; 0.174086; 0.175989; 0.177908; 0.179818; 0.181742; 0.183653; 0.18555;
    0.187486; 0.189376; 0.191304; 0.193212; 0.195128; 0.197051; 0.198948; 0.200849; 0.202787; 0.204696; 0.206606; 0.208517;
    0.210428; 0.212338; 0.214246; 0.216151; 0.21809; 0.219986; 0.221915; 0.223839; 0.225713; 0.227661; 0.229558; 0.231487;
    0.233404; 0.235309; 0.237199; 0.239121; 0.241027; 0.242963; 0.244883; 0.246784; 0.248665; 0.250625; 0.252514; 0.254431;
    0.256325; 0.258247; 0.260143; 0.262068; 0.263965; 0.265889; 0.267842; 0.269707; 0.271657; 0.273575; 0.275459; 0.27737;
    0.279307; 0.281207; 0.283134; 0.285021; 0.286934; 0.288873; 0.29077; 0.292692; 0.294569; 0.296542; 0.298398; 0.300349;
    0.302253; 0.304181; 0.306058; 0.307959; 0.309883; 0.311831; 0.313725; 0.315642; 0.317582; 0.319465; 0.321369; 0.323296;
    0.325247; 0.327135; 0.329045; 0.330978; 0.332843; 0.334731; 0.336639; 0.33857; 0.340522; 0.342403; 0.344305; 0.346228;
    0.348172; 0.35004; 0.352028; 0.353937; 0.355765; 0.357715; 0.359687; 0.361575; 0.363483; 0.365412; 0.367252; 0.36922;
    0.371099; 0.372997; 0.374914; 0.376852; 0.378809; 0.38067; 0.382549; 0.384566; 0.386364; 0.3883; 0.390256; 0.392107;
    0.394101; 0.395989; 0.397895; 0.39982; 0.401763; 0.403594; 0.405575; 0.407441; 0.409324; 0.411224; 0.413143; 0.415079;
    0.417034; 0.419007; 0.420856; 0.422721; 0.424749; 0.426649; 0.428566; 0.430351; 0.432302; 0.43427; 0.436103; 0.438107;
    0.439972; 0.441854; 0.443752; 0.445666; 0.447596; 0.449544; 0.451508; 0.453324; 0.455322; 0.457169; 0.459031; 0.461079;
    0.462973; 0.464883; 0.466808; 0.468749; 0.470528; 0.472501; 0.47449; 0.476313; 0.47815; 0.480187; 0.482054; 0.483935;
    0.485831; 0.487743; 0.489669; 0.491611; 0.493568; 0.49554; 0.497329; 0.499332; 0.501149; 0.503183; 0.505027; 0.506885;
    0.508757; 0.510854; 0.512755; 0.514671; 0.518329; 0.520286; 0.522259; 0.524246; 0.526025; 0.528042; 0.529847; 0.533724;
    0.535569; 0.537426; 0.539531; 0.543314; 0.545225; 0.54715; 0.549088; 0.55276; 0.554739; 0.556732; 0.558487; 0.562287;
    0.564334; 0.566138; 0.570042; 0.571883; 0.575867; 0.577745; 0.579636; 0.583455; 0.585383; 0.589278; 0.590964; 0.594934;
    0.596939; 0.600699; 0.60245; 0.60628; 0.608362; 0.612268; 0.614087; 0.617759; 0.619921; 0.623036; 0.626183; 0.629361;
    0.632572; 0.635816; 0.639094; 0.642405; 0.645751; 0.649132; 0.652548; 0.656001; 0.65949; 0.663017; 0.666582; 0.670185;
    0.673827; 0.677509; 0.681232; 0.684995; 0.688801; 0.692649; 0.69654; 0.700476; 0.704456; 0.708481; 0.712553; 0.716672;
    0.720838; 0.725054; 0.729319; 0.733634; 0.738001; 0.74242; 0.746893; 0.751419; 0.756001; 0.760639; 0.765334; 0.770088;
    0.774901; 0.779775; 0.78471; 0.789708; 0.79477; 0.799898; 0.805092; 0.810354; 0.815685; 0.821087; 0.826561; 0.832109;
    0.837731; 0.84343; 0.849207; 0.855063; 0.861001; 0.867022; 0.918401; 0.925255; 0.932212; 0.939274; 0.946444; 0.953724;
    0.961118; 0.968626; 0.976253; 0.984001; 0.991873; 0.999872; 1.008; 1.01626; 1.02466; 1.0332; 1.04188; 1.05071;
    1.05969; 1.06883; 1.07812; 1.08758; 1.09721; 1.107; 1.11697; 1.12713; 1.13747; 1.148; 1.15873; 1.16966;
    1.1808; 1.19216; 1.20373; 1.21553; 1.22757; 1.23984; 1.25237; 1.26514; 1.27819; 1.2915; 1.3051; 1.31898;
    1.33316; 1.34765; 1.36246; 1.3776; 1.39308; 1.40891; 1.42511; 1.44168; 1.45864; 1.476; 1.49379; 1.512;
    1.53067; 1.5498; 1.56942; 1.58954; 1.61018; 1.63137; 1.65312; 1.67546; 1.69841; 1.722; 1.74626; 1.7712;
    1.79687; 1.8233; 1.85051; 1.87855; 1.90745; 1.93725; 1.968; 1.99974; 2.03253; 2.0664; 2.10143; 2.13766;
    2.17516; 2.214; 2.25426; 2.296; 2.33932; 2.38431; 2.43106; 2.47968; 2.53029; 2.583; 2.63796; 2.69531;
    2.7552; 2.81782; 2.88335; 2.952; 3.024; 3.0996; 3.17908; 3.26274; 3.35092; 3.444; 3.54241; 3.64659;
    3.7571; 3.87451; 3.99949; 4.13281 ].

Definition ndata : list float :=
  [
    42.79; 40.92; 39.16; 37.49; 35.91; 34.41; 33; 31.66; 30.39; 29.19; 28.05; 26.97;
    25.94; 24.97; 24.04; 23.17; 22.33; 21.54; 20.78; 20.06; 19.38; 18.72; 18.1; 17.51;
    16.94; 16.4; 15.88; 15.38; 14.91; 14.46; 14.02; 13.61; 13.21; 12.83; 12.46; 12.11;
    11.77; 11.45; 11.14; 10.84; 10.55; 10.27; 10.01; 9.749; 9.502; 9.263; 9.034; 8.812;
    8.598; 8.392; 8.193; 8; 7.814; 7.634; 7.461; 7.293; 7.13; 6.973; 6.82; 6.673;
    6.53; 6.392; 6.258; 6.127; 6.001; 5.879; 5.76; 5.645; 5.533; 5.424; 5.319; 5.216;
    5.117; 5.02; 4.926; 4.834; 4.745; 4.658; 4.574; 4.492; 4.412; 4.334; 4.258; 4.184;
    4.112; 4.042; 3.973; 3.906; 3.841; 3.778; 3.716; 3.655; 3.596; 3.539; 3.482; 3.427;
    3.374; 3.321; 3.27; 3.22; 3.171; 3.123; 3.077; 3.031; 2.986; 2.942; 2.899; 2.858;
    2.817; 2.776; 2.737; 2.699; 2.661; 2.624; 2.588; 2.553; 2.518; 2.484; 2.451; 2.418;
    2.386; 2.355; 2.324; 2.294; 2.264; 2.235; 2.207; 2.179; 2.152; 2.125; 2.098; 2.072;
    2.047; 2.022; 1.998; 1.974; 1.95; 1.927; 1.904; 1.881; 1.859; 1.838; 1.817; 1.796;
    1.775; 1.755; 1.735; 1.716; 1.697; 1.678; 1.659; 1.641; 1.623; 1.605; 1.588; 1.571;
    1.554; 1.538; 1.521; 1.505; 1.49; 1.474; 1.459; 1.444; 1.429; 1.414; 1.4; 1.386;
    1.372; 1.358; 1.345; 1.331; 1.318; 1.305; 1.293; 1.28; 1.268; 1.256; 1.244; 1.232;
    1.22; 1.209; 1.197; 1.186; 1.175; 1.164; 1.153; 1.143; 1.132; 1.122; 1.112; 1.102;
    1.092; 1.082; 1.073; 1.063; 1.054; 1.045; 1.036; 1.027; 1.018; 1.009; 1; 0.9919;
    0.9835; 0.9752; 0.967; 0.9589; 0.9509; 0.943; 0.9352; 0.9275; 0.9199; 0.9123; 0.9049; 0.8976;
    0.8904; 0.8832; 0.8761; 0.8692; 0.8623; 0.8554; 0.8487; 0.8421; 0.8355; 0.829; 0.8226; 0.8162;
    0.8099; 0.8037; 0.7976; 0.7916; 0.7856; 0.7797; 0.7738; 0.768; 0.7623; 0.7566; 0.7511; 0.7455;
    0.7401; 0.7347; 0.7293; 0.724; 0.7136; 0.7085; 0.7034; 0.6984; 0.6935; 0.6886; 0.6837; 0.6742;
    0.6695; 0.6649; 0.6603; 0.6512; 0.6468; 0.6423; 0.638; 0.6294; 0.6252; 0.621; 0.6168; 0.6087;
    0.6047; 0.6007; 0.5929; 0.589; 0.5814; 0.5776; 0.5739; 0.5666; 0.563; 0.5559; 0.5524; 0.5455;
    0.5421; 0.5354; 0.5321; 0.5256; 0.5224; 0.516; 0.5129; 0.5068; 0.5031; 0.4989; 0.4942; 0.4896;
    0.4851; 0.4805; 0.476; 0.4715; 0.4671; 0.4627; 0.4583; 0.454; 0.4497; 0.4454; 0.4412; 0.4369;
    0.4328; 0.4286; 0.4245; 0.4204; 0.4163; 0.4123; 0.4082; 0.4042; 0.4003; 0.3963; 0.3924; 0.3885;
    0.3847; 0.3808; 0.377; 0.3732; 0.3695; 0.3657; 0.362; 0.3583; 0.3546; 0.351; 0.3474; 0.3437;
    0.3402; 0.3366; 0.3331; 0.3295; 0.326; 0.3226; 0.3191; 0.3157; 0.3123; 0.3089; 0.3055; 0.3021;
    0.2988; 0.2955; 0.2922; 0.2889; 0.2857; 0.2824; 0.2551; 0.252; 0.249; 0.246; 0.243; 0.24;
    0.2371; 0.2342; 0.2313; 0.2281; 0.225; 0.2218; 0.2187; 0.2157; 0.2126; 0.2096; 0.2066; 0.2036;
    0.2007; 0.1978; 0.1949; 0.1921; 0.1893; 0.1865; 0.1837; 0.181; 0.1783; 0.1757; 0.1731; 0.1705;
    0.168; 0.1655; 0.163; 0.1606; 0.1582; 0.1559; 0.1536; 0.1514; 0.1493; 0.1471; 0.1451; 0.1431;
    0.1412; 0.1393; 0.1375; 0.1358; 0.1342; 0.1326; 0.1312; 0.1298; 0.1286; 0.1275; 0.1265; 0.1256;
    0.1249; 0.1244; 0.124; 0.1239; 0.1239; 0.1242; 0.1248; 0.1257; 0.1268; 0.1284; 0.1304; 0.1328;
    0.1358; 0.1394; 0.1436; 0.1487; 0.1546; 0.1616; 0.1698; 0.1794; 0.1908; 0.2041; 0.2199; 0.2388;
    0.2617; 0.2899; 0.3256; 0.3724; 0.4363; 0.5263; 0.6527; 0.8197; 1.011; 1.193; 1.333; 1.422;
    1.472; 1.505; 1.537; 1.567; 1.585; 1.588; 1.585; 1.588; 1.606; 1.637; 1.671; 1.695;
    1.701; 1.685; 1.649; 1.596 ].

Definition kdata : list float :=
  [
    137.5; 133.9; 130.4; 127.1; 124; 121; 118.2; 115.5; 112.9; 110.4; 108.1; 105.8;
    103.6; 101.5; 99.47; 97.52; 95.64; 93.83; 92.08; 90.39; 88.76; 87.18; 85.66; 84.18;
    82.76; 81.37; 80.03; 78.73; 77.47; 76.25; 75.07; 73.91; 72.8; 71.71; 70.65; 69.63;
    68.63; 67.65; 66.71; 65.78; 64.89; 64.01; 63.16; 62.33; 61.52; 60.73; 59.96; 59.2;
    58.47; 57.75; 57.05; 56.37; 55.7; 55.04; 54.4; 53.78; 53.17; 52.57; 51.98; 51.41;
    50.85; 50.3; 49.76; 49.24; 48.72; 48.21; 47.72; 47.23; 46.76; 46.29; 45.83; 45.38;
    44.94; 44.51; 44.08; 43.67; 43.26; 42.85; 42.46; 42.07; 41.69; 41.32; 40.95; 40.59;
    40.23; 39.88; 39.54; 39.2; 38.87; 38.54; 38.22; 37.9; 37.59; 37.29; 36.98; 36.69;
    36.4; 36.11; 35.82; 35.55; 35.27; 35; 34.73; 34.47; 34.21; 33.96; 33.71; 33.46;
    33.21; 32.97; 32.74; 32.5; 32.27; 32.04; 31.82; 31.6; 31.38; 31.16; 30.95; 30.74;
    30.53; 30.33; 30.13; 29.93; 29.73; 29.54; 29.34; 29.15; 28.97; 28.78; 28.6; 28.42;
    28.24; 28.07; 27.89; 27.72; 27.55; 27.38; 27.22; 27.06; 26.89; 26.73; 26.58; 26.42;
    26.27; 26.11; 25.96; 25.81; 25.67; 25.52; 25.38; 25.23; 25.09; 24.95; 24.81; 24.68;
    24.54; 24.41; 24.28; 24.14; 24.01; 23.89; 23.76; 23.63; 23.51; 23.39; 23.26; 23.14;
    23.02; 22.91; 22.79; 22.67; 22.56; 22.45; 22.33; 22.22; 22.11; 22; 21.89; 21.79;
    21.68; 21.57; 21.47; 21.37; 21.26; 21.16; 21.06; 20.96; 20.86; 20.77; 20.67; 20.57;
    20.48; 20.38; 20.29; 20.2; 20.11; 20.02; 19.93; 19.84; 19.75; 19.66; 19.57; 19.49;
    19.4; 19.32; 19.23; 19.15; 19.06; 18.98; 18.9; 18.82; 18.74; 18.66; 18.58; 18.5;
    18.43; 18.35; 18.27; 18.2; 18.12; 18.05; 17.97; 17.9; 17.83; 17.75; 17.68; 17.61;
    17.54; 17.47; 17.4; 17.33; 17.26; 17.2; 17.13; 17.06; 17; 16.93; 16.86; 16.8;
    16.73; 16.67; 16.61; 16.54; 16.42; 16.36; 16.3; 16.24; 16.17; 16.11; 16.06; 15.94;
    15.88; 15.82; 15.76; 15.65; 15.59; 15.54; 15.48; 15.37; 15.32; 15.26; 15.21; 15.1;
    15.05; 15; 14.89; 14.84; 14.74; 14.69; 14.64; 14.54; 14.49; 14.39; 14.35; 14.25;
    14.2; 14.11; 14.06; 13.97; 13.93; 13.84; 13.79; 13.7; 13.65; 13.59; 13.52; 13.46;
    13.39; 13.32; 13.25; 13.19; 13.12; 13.05; 12.99; 12.92; 12.85; 12.78; 12.72; 12.65;
    12.58; 12.52; 12.45; 12.38; 12.31; 12.25; 12.18; 12.11; 12.04; 11.98; 11.91; 11.84;
    11.77; 11.71; 11.64; 11.57; 11.5; 11.44; 11.37; 11.3; 11.23; 11.16; 11.1; 11.03;
    10.96; 10.89; 10.82; 10.76; 10.69; 10.62; 10.55; 10.48; 10.41; 10.35; 10.28; 10.21;
    10.14; 10.07; 10; 9.934; 9.865; 9.796; 9.214; 9.145; 9.075; 9.005; 8.935; 8.865;
    8.795; 8.725; 8.655; 8.581; 8.506; 8.432; 8.358; 8.283; 8.208; 8.134; 8.059; 7.984;
    7.909; 7.834; 7.759; 7.683; 7.608; 7.532; 7.456; 7.38; 7.304; 7.228; 7.152; 7.075;
    6.999; 6.922; 6.845; 6.768; 6.69; 6.613; 6.535; 6.457; 6.379; 6.301; 6.222; 6.143;
    6.064; 5.985; 5.905; 5.825; 5.745; 5.664; 5.583; 5.501; 5.42; 5.338; 5.255; 5.172;
    5.088; 5.004; 4.92; 4.834; 4.749; 4.662; 4.575; 4.487; 4.398; 4.308; 4.217; 4.126;
    4.033; 3.938; 3.843; 3.746; 3.647; 3.547; 3.444; 3.34; 3.232; 3.122; 3.009; 2.891;
    2.769; 2.641; 2.507; 2.364; 2.213; 2.058; 1.908; 1.787; 1.72; 1.716; 1.758; 1.812;
    1.855; 1.877; 1.887; 1.898; 1.911; 1.915; 1.904; 1.877; 1.846; 1.825; 1.821; 1.835;
    1.858; 1.881; 1.895; 1.888 ].

End Au.

Definition epsAg (lambda : float) : outcome complex :=
  epsTable Ag.num Ag.energy Ag.ndata Ag.kdata
    "Argument of dielectric function of silver is out of range" lambda.

Definition epsAu (lambda : float) : outcome complex :=
  epsTable Au.num Au.energy Au.ndata Au.kdata
    "Argument of dielectric function of gold is out of range" lambda.

Definition epsAgSD (lambda D : float) : outcome complex :=
  let IRE := mk 1.0 0.0 in
  let IIM := mk 0.0 1.0 in
  let vF := 1.39e8 in                  (* cm/s (Fermi velocity) *)
  let lam_inf := 5.2e-6 in             (* cm (mean electron free path) *)
  let omega_p := 9.1 in                (* eV (plasma angular frequency) *)
  let A := 2.5 in                      (* empirical constant *)
  let h_bar := 6.582e-16 in
  let gam_inf := h_bar*vF/lam_inf in
  let gam_r := gam_inf + A*h_bar*vF*1.0e7*(2.0/D) in
  let omega := 1239.8/lambda in
  eps <- epsAg lambda ;;
  Returns (eps
    |+| omega_p*omega_p*|( IRE|/|(IRE|*omega|*omega |+| IIM|*omega|*gam_inf)
                          |-| IRE|/|(IRE|*omega|*omega |+| IIM|*omega|*gam_r) )).

Definition epsAuSD (lambda D : float) : outcome complex :=
  let IRE := mk 1.0 0.0 in
  let IIM := mk 0.0 1.0 in
  let vF := 1.38e8 in                  (* cm/s (Fermi velocity) *)
  let lam_inf := 1.28e-6 in            (* cm (mean electron free path) *)
  let omega_p := 9.0 in                (* eV (plasma angular frequency) *)
  let A := 2.0 in                      (* empirical constant *)
  let h_bar := 6.582e-16 in
  let gam_inf := h_bar*vF/lam_inf in
  let gam_r := gam_inf + A*h_bar*vF*1.0e7*(2.0/D) in
  let omega := 1239.8/lambda in
  eps <- epsAu lambda ;;
  Returns (eps
    |+| omega_p*omega_p*|( IRE|/|(IRE|*omega|*omega |+| IIM|*omega|*gam_inf)
                          |-| IRE|/|(IRE|*omega|*omega |+| IIM|*omega|*gam_r) )).

End IEEE.

(** * Notions of the specification *)

(** ** Complex numbers *)

(** Arithmetic of finite complex numbers. *)
Definition Cadd (z w : Cx) : Cx := mkCx (re z + re w) (im z + im w).
Definition Csub (z w : Cx) : Cx := mkCx (re z - re w) (im z - im w).
Definition Cmul (z w : Cx) : Cx :=
  mkCx (re z * re w - im z * im w) (re z * im w + im z * re w).
Definition Cscale (a : R) (z : Cx) : Cx := mkCx (a * re z) (a * im z).
Definition Cinv (z : Cx) : Cx :=
  mkCx (re z / (re z * re z + im z * im z)) (- im z / (re z * re z + im z * im z)).
Definition ofR (a : R) : Cx := mkCx a 0.

(** The quotient of two finite complex numbers. *)
Definition Cquot (z w : Cx) : Cx :=
  mkCx ((re z * re w + im z * im w) / (re w * re w + im w * im w))
       ((im z * re w - re z * im w) / (re w * re w + im w * im w)).

(** The square of the modulus. *)
Definition Cnorm2 (z : Cx) : R := re z * re z + im z * im z.

(** The modulus of a complex number. *)
Definition Cmod (z : Cx) : R := sqrt (re z * re z + im z * im z).

(** ** Tables and the cubic through four samples *)

(** The element of index [i] (0 out of the array). *)
Definition at_ (a : list R) (i : Z) : R := nth (Z.to_nat i) a 0.

(** Strictly increasing lists. *)
Fixpoint increasing (l : list R) : Prop :=
  match l with
  | a :: t => match t with b :: _ => a < b | [] => True end /\ increasing t
  | [] => True
  end.

(** The cubic polynomial through [(x0, y0)], ..., [(x3, y3)] in the form of
    Lagrange, at [v]. *)
Definition cubic4 (x0 x1 x2 x3 y0 y1 y2 y3 v : R) : R :=
    (v - x1) * (v - x2) * (v - x3) * y0 / ((x0 - x1) * (x0 - x2) * (x0 - x3))
  + (v - x0) * (v - x2) * (v - x3) * y1 / ((x1 - x0) * (x1 - x2) * (x1 - x3))
  + (v - x0) * (v - x1) * (v - x3) * y2 / ((x2 - x0) * (x2 - x1) * (x2 - x3))
  + (v - x0) * (v - x1) * (v - x2) * y3 / ((x3 - x0) * (x3 - x1) * (x3 - x2)).

(** The cubic through the four points of indices [i - 1], [i], [i + 1] and
    [i + 2] of a table. *)
Definition window_value (x y : list R) (i : Z) (v : R) : R :=
  cubic4 (at_ x (i - 1)) (at_ x i) (at_ x (i + 1)) (at_ x (i + 2))
         (at_ y (i - 1)) (at_ y i) (at_ y (i + 1)) (at_ y (i + 2)) v.

(** A polynomial of degree at most three. *)
Definition poly3 (a0 a1 a2 a3 v : R) : R :=
  a0 + a1 * v + a2 * (v * v) + a3 * (v * v * v).

(** The index clamped by [interpolate]. *)
Definition clamp (n i : Z) : Z := Z.min (Z.max i 1) (n - 3).

(** The window named by the specification: the largest index [k] with
    [x[k] <= v] ([-1] when there is none), clamped. *)
Definition is_last_below (n : Z) (x : list R) (v : R) (k : Z) : Prop :=
  (-1 <= k <= n - 1)%Z /\
  (forall j, (0 <= j <= k)%Z -> at_ x j <= v) /\
  (forall j, (k < j <= n - 1)%Z -> v < at_ x j).


(** A table of five samples on the arguments 0, ..., 4. *)
Definition five_x : list R := [0; 1; 2; 3; 4].
Definition first_only : list R := [1; 0; 0; 0; 0].
Definition last_only : list R := [0; 0; 0; 0; 1].

(** ** Permittivity and its size correction *)

(** The permittivity of the optical constants [n] and [k]. *)
Definition permittivity (n k : R) : Cx := mkCx (n * n - k * k) (2 * n * k).

(** The reduced Planck constant in eV s. *)
Definition h_bar : R := 6.582e-16.

(** The damping rate of the bulk, from the Fermi velocity and the mean free
    path of the electrons (both in cm), and the damping rate of a particle
    of diameter [D] nm ([1.0e7] nm make a cm). *)
Definition gamma_inf (vF lam_inf : R) : R := h_bar * vF / lam_inf.
Definition gamma_r (A vF lam_inf D : R) : R :=
  gamma_inf vF lam_inf + A * h_bar * vF * 1.0e7 * (2 / D).

(** The damping rate of the particle as the specification writes it,
    [gamma_inf + A h_bar v_F (2/D)], for a Fermi velocity, a mean free path
    and a diameter in one unit of length. *)
Definition gamma_r_spec (A vF lam_inf D : R) : R :=
  gamma_inf vF lam_inf + A * h_bar * vF * (2 / D).

(** The term of Drude [1 / (omega^2 + i omega gamma)]. *)
Definition drude (omega gamma : R) : Cx :=
  Cinv (mkCx (omega * omega) (omega * gamma)).

(** The correction
    [omega_p^2 (1/(omega^2 + i omega g_inf) - 1/(omega^2 + i omega g_r))]. *)
Definition size_correction (omega_p omega g_inf g_r : R) : Cx :=
  Cscale (omega_p * omega_p) (Csub (drude omega g_inf) (drude omega g_r)).

(** ** Polarizability and cross sections *)

(** The fitted coefficients of the model, sums of four power laws in the
    ratios [L/H], [L/R] and [H/R]. *)
Definition beta_fit (L H Rc : R) : R :=
  -0.649487 * Rpower (L / H) (-1.27802) + 1.87718 * Rpower (L / Rc) (-0.928178)
  + 0.0784606 * Rpower (H / Rc) (-0.619604) + 0.617065.

Definition eps_c_fit (L H Rc : R) : R :=
  -1.73983 * Rpower (L / H) 0.904851 + 23.7005 * Rpower (L / Rc) (-9.71985)
  + 3.73666 * Rpower (H / Rc) (-0.416187) - 4.23387.

Definition a2_fit (L H Rc : R) : R :=
  1.35181 * Rpower (L / H) (-0.556507) + 1.13818 * Rpower (L / Rc) (-0.483608)
  - 0.287856 * Rpower (H / Rc) (-0.468685) - 0.0564038.

Definition a4_fit (L H Rc : R) : R :=
  -2.58813 * Rpower (L / H) (-0.447242) - 2.62882 * Rpower (L / Rc) (-2.97322)
  - 0.254773 * Rpower (H / Rc) (-0.125501) + 0.702526.

(** The size parameter [s], the volume [V0] of the prism and the corrected
    volume [V1]. *)
Definition size_parameter (lambda eps_h L : R) : R := sqrt eps_h * L / lambda.
Definition prism_volume (L H : R) : R := sqrt 3 / 4 * L ^ 2 * H.
Definition corrected_volume (L H Rc : R) : R := prism_volume L H * beta_fit L H Rc.

(** The radiative correction
    [A_rc = s^2 a2 + i (4 pi^2 / 3) (V1 / L^3) s^3 + s^4 a4]. *)
Definition Arc_spec (s a2 a4 V1 L : R) : Cx :=
  Cadd (Cadd (ofR (s ^ 2 * a2))
             (Cmul (mkCx 0 1) (ofR (4 * PI ^ 2 / 3 * (V1 / L ^ 3) * s ^ 3))))
       (ofR (s ^ 4 * a4)).

(** The polarizability as the specification assembles it,
    [(1/(4 pi)) V1 / (1/(eps_m/eps_h - 1) - 1/(eps_c - 1) - A_rc)],
    in the arithmetic of complex numbers, the real numbers taken as complex
    numbers; a quotient by zero is not a finite number. *)
Definition alpha_spec (lambda : R) (eps_m : Cx) (eps_h L H Rc : R) : complex :=
  let s := size_parameter lambda eps_h L in
  let V1 := corrected_volume L H Rc in
  let one := Some (ofR 1) in
  let Arc := Arc_spec s (a2_fit L H Rc) (a4_fit L H Rc) V1 L in
  c_div (Some (ofR (1 / (4 * PI) * V1)))
        (c_sub (c_sub (c_div one (c_sub (c_div (Some eps_m) (Some (ofR eps_h))) one))
                      (c_div one (Some (ofR (eps_c_fit L H Rc - 1)))))
               (Some Arc)).

(** [eps_m/eps_h - 1]. *)
Definition contrast (em : Cx) (eh : R) : Cx := Csub (Cquot em (ofR eh)) (ofR 1).

(** The denominator [1/(eps_m/eps_h - 1) - 1/(eps_c - 1) - A_rc] of the
    polarizability. *)
Definition polariz_den (l : R) (em : Cx) (eh L H Rc : R) : Cx :=
  Csub (Csub (Cquot (ofR 1) (contrast em eh))
             (Cquot (ofR 1) (ofR (eps_c_fit L H Rc - 1))))
       (Arc_spec (size_parameter l eh L) (a2_fit L H Rc) (a4_fit L H Rc)
                 (corrected_volume L H Rc) L).

(** The wavenumber in the host medium. *)
Definition wavenumber (lambda eps_h : R) : R := 2 * PI * sqrt eps_h / lambda.

(** ** The sphere of the volume of the prism *)

(** The cube root of a positive number, as [pow] computes it. *)
Definition cube_root (x : R) : R := Rpower x (1 / 3).

(** The diameter of the sphere of volume [V]. *)
Definition sphere_diameter (V : R) : R := 2 * cube_root (3 * V / (4 * PI)).

(** The volume of the sphere of diameter [D]. *)
Definition sphere_volume (D : R) : R := PI / 6 * D ^ 3.

(** ** Further notions *)

(** The table of the combinations [a y1[i] + b y2[i]] of two tables. *)
Definition lincomb (a : R) (y1 : list R) (b : R) (y2 : list R) : list R :=
  map (fun p => a * fst p + b * snd p) (combine y1 y2).

(** The cubes of the arguments of [five_x], and a table of three samples. *)
Definition five_cubes : list R := [0; 1; 8; 27; 64].
Definition three_x : list R := [0; 1; 2].

(** The bound [omega_p^2 (2 A h_bar v_F 1.0e7) / omega^3] of the size
    correction of a particle of diameter 1 nm. *)
Definition correction_bound (omega_p A vF omega : R) : R :=
  omega_p * omega_p * (A * h_bar * vF * 1.0e7 * 2) / omega ^ 3.

(** The wavelengths [wl_min + k wl_step] of the first [n] lines. *)
Definition grid (wl_min wl_step : R) (n : nat) : list double :=
  map (fun k => fin (wl_min + IZR (Z.of_nat k) * wl_step)) (seq 0 n).

(** The four files have as many lines. *)
Definition aligned (out : output) : Prop :=
  length (fout_im out) = length (fout_re out) /\
  length (fout_sc out) = length (fout_re out) /\
  length (fout_ex out) = length (fout_re out).

(** Four lines of one index agree: they carry one wavelength, and for a
    positive wavelength [w], a positive permittivity of the host and a
    finite polarizability [a + i b] on the first two, the last two carry
    [(8 pi / 3) k^4 (a^2 + b^2) 1e-14] and [4 pi k b 1e-14] with
    [k = 2 pi sqrt eps_h / w]. *)
Definition lines_agree (eps_h : double) (lr li ls le : double * double) : Prop :=
  fst li = fst lr /\ fst ls = fst lr /\ fst le = fst lr /\
  forall eh w a b : R,
    eps_h = fin eh -> 0 < eh -> fst lr = fin w -> 0 < w ->
    snd lr = fin a -> snd li = fin b ->
    snd ls = fin (8 * PI / 3 * wavenumber w eh ^ 4 * (a * a + b * b) * 1e-14) /\
    snd le = fin (4 * PI * wavenumber w eh * b * 1e-14).

Definition files_agree (eps_h : double) (out : output) : Prop :=
  forall (k : nat) (lr li ls le : double * double),
    nth_error (fout_re out) k = Some lr -> nth_error (fout_im out) k = Some li ->
    nth_error (fout_sc out) k = Some ls -> nth_error (fout_ex out) k = Some le ->
    lines_agree eps_h lr li ls le.

(** * Properties *)

(** ** Evaluation of the lifted operations on finite values *)

Lemma ddiv_fin (x y : R) : y <> 0 -> ddiv (fin x) (fin y) = fin (x / y).
Proof.
  intros Hy. unfold ddiv, fin. destruct (Req_dec_T y 0); [contradiction | reflexivity].
Qed.

Lemma dsqrt_fin (x : R) : 0 <= x -> dsqrt (fin x) = fin (sqrt x).
Proof.
  intros Hx. unfold dsqrt, fin. destruct (Rlt_dec x 0); [lra | reflexivity].
Qed.

Lemma dpow_fin (x y : R) : 0 < x -> dpow (fin x) (fin y) = fin (Rpower x y).
Proof.
  intros Hx. unfold dpow, fin. destruct (Rlt_dec 0 x); [reflexivity | contradiction].
Qed.

Lemma dlt_true (x y : R) : x < y -> dlt (fin x) (fin y) = true.
Proof.
  intros H. unfold dlt, fin. destruct (Rlt_dec x y); [reflexivity | contradiction].
Qed.

Lemma dlt_false (x y : R) : y <= x -> dlt (fin x) (fin y) = false.
Proof.
  intros H. unfold dlt, fin. destruct (Rlt_dec x y); [lra | reflexivity].
Qed.

Lemma c_div_d_fin (z : Cx) (x : R) :
  x <> 0 -> c_div_d (Some z) (fin x) = Some (mkCx (re z / x) (im z / x)).
Proof.
  intros Hx. unfold c_div_d, fin. destruct (Req_dec_T x 0); [contradiction | reflexivity].
Qed.

Lemma c_div_fin (z w : Cx) :
  re w * re w + im w * im w <> 0 ->
  c_div (Some z) (Some w) =
  Some (mkCx ((re z * re w + im z * im w) / (re w * re w + im w * im w))
             ((im z * re w - re z * im w) / (re w * re w + im w * im w))).
Proof.
  intros Hw. unfold c_div.
  destruct (Req_dec_T (re w * re w + im w * im w) 0); [contradiction | reflexivity].
Qed.

Lemma sum_squares_pos (a b : R) : a <> 0 \/ b <> 0 -> 0 < a * a + b * b.
Proof. intros [H | H]; nra. Qed.

(** ** Arrays and increasing tables *)

Lemma read_at (a : list R) (i : Z) :
  (0 <= i < Z.of_nat (length a))%Z -> read a i = Returns (fin (at_ a i)).
Proof.
  intros Hi. unfold read, at_.
  destruct (Z.ltb_spec i 0); [lia | ].
  destruct (nth_error a (Z.to_nat i)) as [v | ] eqn:E.
  - apply (nth_error_nth a _ 0) in E. now rewrite E.
  - apply nth_error_None in E. lia.
Qed.

Lemma increasing_head (a : R) (t : list R) :
  increasing (a :: t) -> forall k, (k < length t)%nat -> a < nth k t 0.
Proof.
  revert a. induction t as [ | b t IH]; intros a [Hab Ht] k Hk; simpl in Hk; [lia | ].
  destruct k as [ | k]; simpl; [exact Hab | ].
  apply Rlt_trans with b; [exact Hab | ].
  apply IH; [exact Ht | lia].
Qed.

Lemma increasing_nth (l : list R) :
  increasing l ->
  forall i j, (i < j < length l)%nat -> nth i l 0 < nth j l 0.
Proof.
  induction l as [ | a t IH]; intros Hl i j Hij; simpl in Hij; [lia | ].
  destruct j as [ | j]; [lia | ].
  destruct i as [ | i]; simpl.
  - apply increasing_head; [exact Hl | lia].
  - apply IH; [apply Hl | lia].
Qed.

Lemma increasing_at (l : list R) (i j : Z) :
  increasing l -> (0 <= i < j)%Z -> (j < Z.of_nat (length l))%Z ->
  at_ l i < at_ l j.
Proof.
  intros Hl Hij Hj. unfold at_. apply increasing_nth; [exact Hl | lia].
Qed.

Lemma increasing_at_le (l : list R) (i j : Z) :
  increasing l -> (0 <= i <= j)%Z -> (j < Z.of_nat (length l))%Z ->
  at_ l i <= at_ l j.
Proof.
  intros Hl Hij Hj. destruct (Z.eq_dec i j) as [-> | Hne]; [lra | ].
  left. apply increasing_at; [exact Hl | lia | lia].
Qed.

(** ** The interpolation procedure *)

Lemma prod3_neq0 (a b c : R) : a <> 0 -> b <> 0 -> c <> 0 -> a * b * c <> 0.
Proof.
  intros Ha Hb Hc. apply Rmult_integral_contrapositive_currified; [ | exact Hc].
  apply Rmult_integral_contrapositive_currified; assumption.
Qed.

(** The formula of Lagrange is the only cubic through the four points. *)
Lemma cubic4_unique (x0 x1 x2 x3 y0 y1 y2 y3 a0 a1 a2 a3 : R) :
  x0 < x1 -> x1 < x2 -> x2 < x3 ->
  poly3 a0 a1 a2 a3 x0 = y0 -> poly3 a0 a1 a2 a3 x1 = y1 ->
  poly3 a0 a1 a2 a3 x2 = y2 -> poly3 a0 a1 a2 a3 x3 = y3 ->
  forall v, cubic4 x0 x1 x2 x3 y0 y1 y2 y3 v = poly3 a0 a1 a2 a3 v.
Proof.
  intros H01 H12 H23 <- <- <- <- v. unfold cubic4, poly3. field.
  repeat split; lra.
Qed.

Lemma cubic4_node0 (x0 x1 x2 x3 y0 y1 y2 y3 : R) :
  x0 < x1 -> x1 < x2 -> x2 < x3 -> cubic4 x0 x1 x2 x3 y0 y1 y2 y3 x0 = y0.
Proof. intros. unfold cubic4. field. repeat split; lra. Qed.

Lemma cubic4_node1 (x0 x1 x2 x3 y0 y1 y2 y3 : R) :
  x0 < x1 -> x1 < x2 -> x2 < x3 -> cubic4 x0 x1 x2 x3 y0 y1 y2 y3 x1 = y1.
Proof. intros. unfold cubic4. field. repeat split; lra. Qed.

Lemma cubic4_node2 (x0 x1 x2 x3 y0 y1 y2 y3 : R) :
  x0 < x1 -> x1 < x2 -> x2 < x3 -> cubic4 x0 x1 x2 x3 y0 y1 y2 y3 x2 = y2.
Proof. intros. unfold cubic4. field. repeat split; lra. Qed.

Lemma cubic4_node3 (x0 x1 x2 x3 y0 y1 y2 y3 : R) :
  x0 < x1 -> x1 < x2 -> x2 < x3 -> cubic4 x0 x1 x2 x3 y0 y1 y2 y3 x3 = y3.
Proof. intros. unfold cubic4. field. repeat split; lra. Qed.

(** The formula of [interpolate] on finite values with increasing nodes. *)
Lemma lagrange_fin (x0 x1 x2 x3 y0 y1 y2 y3 v : R) :
  x0 < x1 -> x1 < x2 -> x2 < x3 ->
  ((v - x1)*(v - x2)*(v - x3)*y0/((x0 - x1)*(x0 - x2)*(x0 - x3))
   + (v - x0)*(v - x2)*(v - x3)*y1/((x1 - x0)*(x1 - x2)*(x1 - x3))
   + (v - x0)*(v - x1)*(v - x3)*y2/((x2 - x0)*(x2 - x1)*(x2 - x3))
   + (v - x0)*(v - x1)*(v - x2)*y3/((x3 - x0)*(x3 - x1)*(x3 - x2)))%D
  = fin (cubic4 x0 x1 x2 x3 y0 y1 y2 y3 v).
Proof.
  intros H01 H12 H23.
  cbn [dsub dmul lift2 fin].
  change (@Some R ?a) with (fin a).
  rewrite !ddiv_fin by (apply prod3_neq0; lra).
  reflexivity.
Qed.

(** Once the flag is cleared the loop changes nothing. *)
Lemma scan_cleared (x : list R) (v : double) (steps : nat) (j i : Z) :
  scan x v steps j (i, false) = Returns (i, false).
Proof.
  revert j. induction steps as [ | steps IH]; intros j; simpl; [reflexivity | apply IH].
Qed.

(** The loop stops at the first index from [j] whose argument exceeds [v],
    and leaves the state as it was when there is none. *)
Lemma scan_spec (x : list R) (v : R) (i0 : Z) (steps : nat) :
  forall j : Z,
  (0 <= j)%Z -> (j + Z.of_nat steps <= Z.of_nat (length x))%Z ->
  (scan x (fin v) steps j (i0, true) = Returns (i0, true) /\
   forall k, (j <= k < j + Z.of_nat steps)%Z -> at_ x k <= v)
  \/
  (exists m, (j <= m < j + Z.of_nat steps)%Z /\
     scan x (fin v) steps j (i0, true) = Returns ((m - 1)%Z, false) /\
     v < at_ x m /\
     forall k, (j <= k < m)%Z -> at_ x k <= v).
Proof.
  induction steps as [ | steps IH]; intros j Hj Hn.
  - left. split; [reflexivity | intros k Hk; lia].
  - cbn [scan snd]. rewrite read_at by lia. cbn [bind]. unfold dgt.
    destruct (Rlt_dec v (at_ x j)) as [Hlt | Hge].
    + rewrite dlt_true by exact Hlt. right. exists j.
      split; [lia | ]. split; [apply scan_cleared | ].
      split; [exact Hlt | intros k Hk; lia].
    + rewrite dlt_false by lra.
      destruct (IH (j + 1)%Z ltac:(lia) ltac:(lia)) as [[E Hall] | [m [Hm [E [Hv Hall]]]]].
      * left. split; [exact E | ]. intros k Hk.
        destruct (Z.eq_dec k j) as [-> | Hne]; [lra | apply Hall; lia].
      * right. exists m. split; [lia | ]. split; [exact E | ]. split; [exact Hv | ].
        intros k Hk. destruct (Z.eq_dec k j) as [-> | Hne]; [lra | apply Hall; lia].
Qed.

Lemma clamp_code (n i : Z) :
  (if ((if (i <? 1)%Z then 1%Z else i) >? n - 3)%Z then (n - 3)%Z
   else (if (i <? 1)%Z then 1%Z else i)) = clamp n i.
Proof.
  unfold clamp.
  destruct (Z.ltb_spec i 1); destruct (Z.gtb_spec 1 (n - 3));
    try destruct (Z.gtb_spec i (n - 3)); lia.
Qed.

(** The window of [interpolate] once the loop has left the index [i]. *)
Lemma interpolate_after_scan (n : Z) (x y : list R) (v : R) (i : Z) (flag : bool) :
  Z.of_nat (length x) = n -> length y = length x -> (4 <= n)%Z -> increasing x ->
  scan x (fin v) (Z.to_nat (n - 1)) 1 (0%Z, true) = Returns (i, flag) ->
  interpolate n x y (fin v) = Returns (fin (window_value x y (clamp n i) v)).
Proof.
  intros Hn Hy H4 Hx Hscan. unfold interpolate. rewrite Hscan. cbn [bind fst].
  cbv zeta.
  destruct (Z.ltb_spec (n - 3) INT_MIN) as [Hmin | _];
    [unfold INT_MIN in Hmin; lia | ].
  rewrite (clamp_code n i).
  assert (1 <= clamp n i <= n - 3)%Z as Hc by (unfold clamp; lia).
  rewrite !read_at by lia. cbn [bind].
  rewrite lagrange_fin by (apply increasing_at; [exact Hx | lia | lia]).
  reflexivity.
Qed.

(** [interpolate] on a strictly increasing table of at least four entries:
    the result is finite, and is the cubic through a window that lies in
    the table.  The window starts the table when the argument is below
    [x[1]]; it is the window of the interval [[x[k], x[k+1])] that holds the
    argument, moved into the table, when there is one; it starts the table
    again when the argument is [x[n-1]] or more. *)
Lemma interpolate_window (n : Z) (x y : list R) (v : R) :
  Z.of_nat (length x) = n -> length y = length x -> (4 <= n)%Z -> increasing x ->
  exists i : Z,
    (1 <= i <= n - 3)%Z /\
    interpolate n x y (fin v) = Returns (fin (window_value x y i v)) /\
    ((v < at_ x 1 /\ i = 1%Z) \/
     (exists k, (1 <= k <= n - 2)%Z /\ at_ x k <= v < at_ x (k + 1) /\
                i = Z.min k (n - 3)) \/
     (at_ x (n - 1) <= v /\ i = 1%Z)).
Proof.
  intros Hn Hy H4 Hx.
  destruct (scan_spec x v 0%Z (Z.to_nat (n - 1)) 1%Z ltac:(lia) ltac:(lia))
    as [[E Hall] | [m [Hm [E [Hv Hall]]]]].
  - exists 1%Z. split; [lia | ]. split.
    + rewrite (interpolate_after_scan n x y v 0%Z true Hn Hy H4 Hx E).
      replace (clamp n 0) with 1%Z by (unfold clamp; lia). reflexivity.
    + right. right. split; [apply Hall; lia | reflexivity].
  - rewrite (interpolate_after_scan n x y v (m - 1)%Z false Hn Hy H4 Hx E).
    exists (clamp n (m - 1)). split; [unfold clamp; lia | ].
    split; [reflexivity | ].
    destruct (Z.eq_dec m 1) as [-> | Hm1].
    + left. split; [exact Hv | unfold clamp; lia].
    + right. left. exists (m - 1)%Z. split; [lia | ].
      replace (m - 1 + 1)%Z with m by lia.
      split; [split; [apply Hall; lia | exact Hv] | unfold clamp; lia].
Qed.

(** Below the last argument of the table [interpolate] uses the window the
    specification names. *)
Lemma interpolate_below_last (n : Z) (x y : list R) (v : R) (k : Z) :
  Z.of_nat (length x) = n -> length y = length x -> (4 <= n)%Z -> increasing x ->
  is_last_below n x v k -> v < at_ x (n - 1) ->
  interpolate n x y (fin v) = Returns (fin (window_value x y (clamp n k) v)).
Proof.
  intros Hn Hy H4 Hx [Hk [Hle Hgt]] Hlast.
  destruct (interpolate_window n x y v Hn Hy H4 Hx)
    as [i [Hi [E [[Hv ->] | [[k' [Hk' [[Hv1 Hv2] ->]]] | [Hv ->]]]]]].
  - rewrite E. replace (clamp n k) with 1%Z; [reflexivity | ].
    assert (k < 1)%Z.
    { destruct (Z.lt_ge_cases k 1) as [ | Hk1]; [assumption | ].
      pose proof (Hle 1%Z ltac:(lia)). lra. }
    unfold clamp. lia.
  - rewrite E. replace k with k'; [unfold clamp; f_equal; f_equal; f_equal; lia | ].
    destruct (Z.lt_trichotomy k k') as [Hlt | [Heq | Hgt']]; [ | congruence | ].
    + pose proof (Hgt k' ltac:(lia)). lra.
    + pose proof (Hle (k' + 1)%Z ltac:(lia)). lra.
  - lra.
Qed.

(** At the last argument of the table and beyond it the window starts the
    table. *)
Lemma interpolate_from_last (n : Z) (x y : list R) (v : R) :
  Z.of_nat (length x) = n -> length y = length x -> (4 <= n)%Z -> increasing x ->
  at_ x (n - 1) <= v ->
  interpolate n x y (fin v) = Returns (fin (window_value x y 1 v)).
Proof.
  intros Hn Hy H4 Hx Hv.
  destruct (interpolate_window n x y v Hn Hy H4 Hx)
    as [i [Hi [E [[Hv' ->] | [[k' [Hk' [[Hv1 Hv2] ->]]] | [_ ->]]]]]].
  - exact E.
  - pose proof (increasing_at_le x (k' + 1) (n - 1) Hx ltac:(lia) ltac:(lia)). lra.
  - exact E.
Qed.

(** A sample is reproduced at its own argument, the last sample apart. *)
Lemma interpolate_node (n : Z) (x y : list R) (j : Z) :
  Z.of_nat (length x) = n -> length y = length x -> (4 <= n)%Z -> increasing x ->
  (0 <= j <= n - 2)%Z ->
  interpolate n x y (fin (at_ x j)) = Returns (fin (at_ y j)).
Proof.
  intros Hn Hy H4 Hx Hj.
  assert (is_last_below n x (at_ x j) j) as Hk.
  { split; [lia | ]. split; intros i Hi.
    - apply increasing_at_le; [exact Hx | lia | lia].
    - apply increasing_at; [exact Hx | lia | lia]. }
  rewrite (interpolate_below_last n x y (at_ x j) j Hn Hy H4 Hx Hk)
    by (apply increasing_at; [exact Hx | lia | lia]).
  do 2 f_equal. unfold window_value.
  set (c := clamp n j).
  assert (1 <= c <= n - 3)%Z as Hc by (unfold c, clamp; lia).
  assert (j = c - 1 \/ j = c \/ j = c + 1)%Z as Hjc by (unfold c, clamp; lia).
  clearbody c.
  pose proof (increasing_at x (c - 1) c Hx ltac:(lia) ltac:(lia)) as H01.
  pose proof (increasing_at x c (c + 1) Hx ltac:(lia) ltac:(lia)) as H12.
  pose proof (increasing_at x (c + 1) (c + 2) Hx ltac:(lia) ltac:(lia)) as H23.
  destruct Hjc as [-> | [-> | ->]].
  - apply cubic4_node0; assumption.
  - apply cubic4_node1; assumption.
  - apply cubic4_node2; assumption.
Qed.

(** With four samples there is one window, and the last sample is
    reproduced as well. *)
Lemma interpolate_last_node_of_four (x y : list R) :
  length x = 4%nat -> length y = 4%nat -> increasing x ->
  interpolate 4 x y (fin (at_ x 3)) = Returns (fin (at_ y 3)).
Proof.
  intros Hx4 Hy4 Hx.
  rewrite (interpolate_from_last 4 x y (at_ x 3));
    [ | rewrite Hx4; reflexivity | congruence | lia | exact Hx | apply Rle_refl].
  do 2 f_equal. unfold window_value.
  change (1 - 1)%Z with 0%Z. change (1 + 1)%Z with 2%Z. change (1 + 2)%Z with 3%Z.
  apply cubic4_node3; apply increasing_at; try exact Hx; lia.
Qed.

(** Decimal constants as quotients of integers. *)
Ltac lits := unfold Q2R; cbn [QArith_base.Qnum QArith_base.Qden].

(** Evaluation of the reads of a table at closed indices. *)
Ltac at_eval :=
  unfold at_;
  repeat match goal with
         | |- context [Z.to_nat ?z] =>
             let n := eval vm_compute in (Z.to_nat z) in
             change (Z.to_nat z) with n
         end;
  cbn [nth].

Lemma five_x_increasing : increasing five_x.
Proof. unfold five_x. cbn [increasing]. repeat split; lra. Qed.

(** C4: with five samples at 0, ..., 4 and the query 4, the largest index
    whose argument is at most the query is 4, which clamped is 2: the cubic
    through the samples 1 to 4, which vanish, is 0 at 4.  [interpolate]
    returns -1, the value at 4 of the cubic through the samples 0 to 3. *)
Theorem interpolate_window_at_last :
  is_last_below 5 five_x 4 4 /\
  clamp 5 4 = 2%Z /\
  window_value five_x first_only (clamp 5 4) 4 = 0 /\
  interpolate 5 five_x first_only (fin 4) = Returns (fin (-1)).
Proof.
  split.
  { split; [lia | ]. split; intros j Hj.
    - assert (j = 0 \/ j = 1 \/ j = 2 \/ j = 3 \/ j = 4)%Z as Hc by lia.
      destruct Hc as [-> | [-> | [-> | [-> | ->]]]]; unfold five_x; at_eval; lra.
    - lia. }
  split; [reflexivity | ].
  split; [unfold window_value, cubic4, five_x, first_only; at_eval; lra | ].
  rewrite (interpolate_from_last 5 five_x first_only 4);
    [ | reflexivity | reflexivity | lia | apply five_x_increasing
      | unfold five_x; at_eval; lra].
  do 2 f_equal. unfold window_value, cubic4, five_x, first_only. at_eval. lra.
Qed.

(** C5: with five samples at 0, ..., 4, of which the last one only is not
    zero, [interpolate] at the argument of the last sample returns 0 and
    not the sample, 1. *)
Theorem interpolate_last_sample :
  at_ five_x 4 = 4 /\
  at_ last_only 4 = 1 /\
  interpolate 5 five_x last_only (fin (at_ five_x 4)) = Returns (fin 0).
Proof.
  split; [reflexivity | ]. split; [reflexivity | ].
  rewrite (interpolate_from_last 5 five_x last_only (at_ five_x 4));
    [ | reflexivity | reflexivity | lia | apply five_x_increasing
      | unfold five_x; at_eval; lra].
  do 2 f_equal. unfold window_value, cubic4, five_x, last_only. at_eval. lra.
Qed.

(** ** The embedded tables *)

Lemma Ag_energy_increasing : increasing Ag.energy.
Proof. unfold Ag.energy. cbn [increasing]. repeat split; lra. Qed.

Lemma Au_energy_increasing : increasing Au.energy.
Proof. unfold Au.energy. cbn [increasing]. repeat split; lra. Qed.

Lemma Ag_sizes :
  Z.of_nat (length Ag.energy) = Ag.num /\
  length Ag.ndata = length Ag.energy /\ length Ag.kdata = length Ag.energy.
Proof. repeat split; reflexivity. Qed.

Lemma Au_sizes :
  Z.of_nat (length Au.energy) = Au.num /\
  length Au.ndata = length Au.energy /\ length Au.kdata = length Au.energy.
Proof. repeat split; reflexivity. Qed.

(** ** The tabulated dielectric functions *)

(** No value is at once below the first and above the last energy of an
    increasing table. *)
Lemma guard_unsatisfiable (e_first e_last : R) (omega : double) :
  e_first < e_last ->
  dlt omega (fin e_first) && dgt omega (fin e_last) = false.
Proof.
  intros He. destruct omega as [w | ]; [ | reflexivity].
  unfold dgt, dlt, fin.
  destruct (Rlt_dec w e_first); destruct (Rlt_dec e_last w); try reflexivity; lra.
Qed.

(** The condition of the range check holds of no energy. *)
Lemma out_of_range_never (num : Z) (energy : list R) (omega : double) :
  Z.of_nat (length energy) = num -> (2 <= num)%Z -> increasing energy ->
  out_of_range num energy omega = Returns false.
Proof.
  intros Hn H2 Hx. unfold out_of_range.
  rewrite read_at by lia. cbn [bind].
  destruct (dlt omega (fin (at_ energy 0))) eqn:E; [ | reflexivity].
  rewrite read_at by lia. cbn [bind].
  pose proof (guard_unsatisfiable (at_ energy 0) (at_ energy (num - 1)) omega
                ltac:(apply increasing_at; [exact Hx | lia | lia])) as G.
  rewrite E in G. cbn [andb] in G. now rewrite G.
Qed.

Lemma scan_returns (x : list R) (v : R) (n : Z) :
  Z.of_nat (length x) = n -> (1 <= n)%Z ->
  exists i flag, scan x (fin v) (Z.to_nat (n - 1)) 1 (0%Z, true) = Returns (i, flag).
Proof.
  intros Hn H1.
  destruct (scan_spec x v 0%Z (Z.to_nat (n - 1)) 1%Z ltac:(lia) ltac:(lia))
    as [[E _] | [m [_ [E _]]]]; eauto.
Qed.

Lemma epsTable_returns (num : Z) (energy ndata kdata : list R) (msg : string) (l : R) :
  Z.of_nat (length energy) = num ->
  length ndata = length energy -> length kdata = length energy ->
  (4 <= num)%Z -> increasing energy -> 0 < l ->
  exists n k : R,
    interpolate num energy ndata (fin (1239.8 / l)) = Returns (fin n) /\
    interpolate num energy kdata (fin (1239.8 / l)) = Returns (fin k) /\
    epsTable num energy ndata kdata msg (fin l) = Returns (Some (permittivity n k)).
Proof.
  intros Hn Hnd Hkd H4 Hx Hl.
  destruct (scan_returns energy (1239.8 / l) num Hn ltac:(lia)) as [i [flag E]].
  pose proof (interpolate_after_scan num energy ndata _ i flag Hn Hnd H4 Hx E) as En.
  pose proof (interpolate_after_scan num energy kdata _ i flag Hn Hkd H4 Hx E) as Ek.
  eexists. eexists. split; [exact En | ]. split; [exact Ek | ].
  unfold epsTable. cbv zeta.
  rewrite ddiv_fin by lra.
  rewrite (out_of_range_never num energy _ Hn ltac:(lia) Hx). cbn [bind].
  rewrite En, Ek.
  cbn [bind]. unfold permittivity.
  cbn [cplx c_mul_d c_add fin dmul dsub lift2 re im].
  apply f_equal, f_equal. apply (f_equal2 mkCx); nra.
Qed.

Lemma epsAg_returns (l : R) :
  0 < l ->
  exists n k : R,
    interpolate Ag.num Ag.energy Ag.ndata (fin (1239.8 / l)) = Returns (fin n) /\
    interpolate Ag.num Ag.energy Ag.kdata (fin (1239.8 / l)) = Returns (fin k) /\
    epsAg (fin l) = Returns (Some (permittivity n k)).
Proof.
  intros Hl. destruct Ag_sizes as [Hn [Hnd Hkd]].
  apply epsTable_returns; try assumption;
    [unfold Ag.num; lia | apply Ag_energy_increasing].
Qed.

Lemma epsAu_returns (l : R) :
  0 < l ->
  exists n k : R,
    interpolate Au.num Au.energy Au.ndata (fin (1239.8 / l)) = Returns (fin n) /\
    interpolate Au.num Au.energy Au.kdata (fin (1239.8 / l)) = Returns (fin k) /\
    epsAu (fin l) = Returns (Some (permittivity n k)).
Proof.
  intros Hl. destruct Au_sizes as [Hn [Hnd Hkd]].
  apply epsTable_returns; try assumption;
    [unfold Au.num; lia | apply Au_energy_increasing].
Qed.


(** *** The range check *)




(** Beyond the last energy of the table the optical constants come from
    the window that starts the table. *)
Lemma epsTable_from_last (num : Z) (energy ndata kdata : list R) (msg : string) (l : R) :
  Z.of_nat (length energy) = num ->
  length ndata = length energy -> length kdata = length energy ->
  (4 <= num)%Z -> increasing energy -> 0 < l ->
  at_ energy (num - 1) <= 1239.8 / l ->
  epsTable num energy ndata kdata msg (fin l) =
  Returns (Some (permittivity (window_value energy ndata 1 (1239.8 / l))
                              (window_value energy kdata 1 (1239.8 / l)))).
Proof.
  intros Hn Hnd Hkd H4 Hx Hl Hlast.
  destruct (epsTable_returns num energy ndata kdata msg l Hn Hnd Hkd H4 Hx Hl)
    as [n [k [En [Ek E]]]].
  rewrite (interpolate_from_last num energy ndata _ Hn Hnd H4 Hx Hlast) in En.
  rewrite (interpolate_from_last num energy kdata _ Hn Hkd H4 Hx Hlast) in Ek.
  injection En as <-. injection Ek as <-. exact E.
Qed.

(** C1: at the wavelength of 100 nm the photon energy, 12.398 eV, is above
    the last energy of both tables, and [epsAg] and [epsAu] return a
    permittivity, extrapolated from the first four entries of the table,
    where the specification has them fail. *)
Theorem eps_out_of_range_returns :
  at_ Ag.energy (Ag.num - 1) < 1239.8 / 100 /\
  at_ Au.energy (Au.num - 1) < 1239.8 / 100 /\
  epsAg (fin 100) =
    Returns (Some (permittivity (window_value Ag.energy Ag.ndata 1 (1239.8 / 100))
                                (window_value Ag.energy Ag.kdata 1 (1239.8 / 100)))) /\
  epsAu (fin 100) =
    Returns (Some (permittivity (window_value Au.energy Au.ndata 1 (1239.8 / 100))
                                (window_value Au.energy Au.kdata 1 (1239.8 / 100)))).
Proof.
  assert (at_ Ag.energy (Ag.num - 1) = 6.60) as EAg by reflexivity.
  assert (at_ Au.energy (Au.num - 1) = 4.13281) as EAu by reflexivity.
  destruct Ag_sizes as [HnAg [HndAg HkdAg]]. destruct Au_sizes as [HnAu [HndAu HkdAu]].
  split; [rewrite EAg; lra | ]. split; [rewrite EAu; lra | ]. split.
  - apply epsTable_from_last; try assumption;
      [unfold Ag.num; lia | apply Ag_energy_increasing | lra | rewrite EAg; lra].
  - apply epsTable_from_last; try assumption;
      [unfold Au.num; lia | apply Au_energy_increasing | lra | rewrite EAu; lra].
Qed.

(** ** The size-dependent dielectric functions *)

Lemma modulus_neq0 (a b : R) : a <> 0 -> a * a + b * b <> 0.
Proof. intros Ha. apply Rgt_not_eq, sum_squares_pos. now left. Qed.

(** [IRE/w] is the inverse of [w]. *)
Lemma IRE_over (w : Cx) :
  re w * re w + im w * im w <> 0 ->
  c_div (cplx 1.0 0.0) (Some w) = Some (Cinv w).
Proof.
  intros Hw. cbn [cplx fin]. rewrite c_div_fin by exact Hw.
  unfold Cinv. cbn [re im]. apply f_equal. apply (f_equal2 mkCx); lits; field; exact Hw.
Qed.

(** [IRE*omega*omega + IIM*omega*gamma]. *)
Lemma drude_code (omega gamma : R) :
  c_add (c_mul_d (c_mul_d (cplx 1.0 0.0) (fin omega)) (fin omega))
        (c_mul_d (c_mul_d (cplx 0.0 1.0) (fin omega)) (fin gamma))
  = Some (mkCx (omega * omega) (omega * gamma)).
Proof.
  cbn [cplx c_mul_d c_add fin re im]. apply f_equal. apply (f_equal2 mkCx); lra.
Qed.

Lemma drude_modulus (omega gamma : R) :
  0 < omega ->
  re (mkCx (omega * omega) (omega * gamma)) * re (mkCx (omega * omega) (omega * gamma)) +
  im (mkCx (omega * omega) (omega * gamma)) * im (mkCx (omega * omega) (omega * gamma)) <> 0.
Proof.
  intros Hw. cbn [re im]. apply modulus_neq0. nra.
Qed.

(** The shape of the size correction in [epsAgSD] and [epsAuSD]. *)
Ltac size_correction_eval Hw :=
  cbn [dmul lift2 fin];
  change (@Some R ?a) with (fin a);
  rewrite !ddiv_fin by lra;
  cbn [dadd dmul lift2 fin];
  change (@Some R ?a) with (fin a);
  rewrite !drude_code;
  rewrite !IRE_over by (apply drude_modulus; exact Hw);
  cbn [c_sub d_mul_c c_add];
  unfold size_correction, Cadd, Cscale, Csub, drude, gamma_r, gamma_inf, h_bar;
  replace 2.0 with 2 by lra;
  reflexivity.

Lemma epsAgSD_eq (l D : R) (z : Cx) :
  0 < l -> 0 < D ->
  epsAg (fin l) = Returns (Some z) ->
  epsAgSD (fin l) (fin D) =
  Returns (Some (Cadd z (size_correction 9.1 (1239.8 / l)
                           (gamma_inf 1.39e8 5.2e-6) (gamma_r 2.5 1.39e8 5.2e-6 D)))).
Proof.
  intros Hl HD E. unfold epsAgSD. cbv zeta. rewrite E. cbn [bind].
  assert (0 < 1239.8 / l) as Hw by (apply Rdiv_lt_0_compat; lra).
  size_correction_eval Hw.
Qed.

Lemma epsAuSD_eq (l D : R) (z : Cx) :
  0 < l -> 0 < D ->
  epsAu (fin l) = Returns (Some z) ->
  epsAuSD (fin l) (fin D) =
  Returns (Some (Cadd z (size_correction 9.0 (1239.8 / l)
                           (gamma_inf 1.38e8 1.28e-6) (gamma_r 2.0 1.38e8 1.28e-6 D)))).
Proof.
  intros Hl HD E. unfold epsAuSD. cbv zeta. rewrite E. cbn [bind].
  assert (0 < 1239.8 / l) as Hw by (apply Rdiv_lt_0_compat; lra).
  size_correction_eval Hw.
Qed.

(** The code's damping rate of the particle is the one of the
    specification once the Fermi velocity and the mean free path, given in
    cm, are converted to the nm of the diameter. *)
Lemma gamma_r_units (A vF lam_inf D : R) :
  lam_inf <> 0 -> D <> 0 ->
  gamma_r A vF lam_inf D = gamma_r_spec A (vF * 1.0e7) (lam_inf * 1.0e7) D.
Proof.
  intros Hlam HD. unfold gamma_r, gamma_r_spec, gamma_inf, h_bar.
  lits. field. split; [exact HD | exact Hlam].
Qed.

(** C3: for a positive wavelength and a positive diameter [D] in nm the
    size-dependent permittivity is the tabulated one plus
    [omega_p^2 (1/(omega^2 + i omega gamma_inf) - 1/(omega^2 + i omega gamma_r))]
    with [omega = 1239.8/lambda], [gamma_inf = h_bar v_F / lam_inf] and
    [gamma_r = gamma_inf + A h_bar v_F 1.0e7 (2/D)], where
    [(v_F, lam_inf, omega_p, A)] is [(1.39e8, 5.2e-6, 9.1, 2.5)] for silver
    and [(1.38e8, 1.28e-6, 9.0, 2.0)] for gold.  The factor [1.0e7], the
    number of nm in a cm, is the conversion of units: with the Fermi
    velocity and the mean free path in nm, as the diameter, [gamma_r] is
    [gamma_inf + A h_bar v_F (2/D)]. *)
Theorem size_dependent_permittivity (l D : R) :
  0 < l -> 0 < D ->
  (exists z : Cx,
     epsAg (fin l) = Returns (Some z) /\
     epsAgSD (fin l) (fin D) =
     Returns (Some (Cadd z (size_correction 9.1 (1239.8 / l)
                              (gamma_inf 1.39e8 5.2e-6)
                              (gamma_r 2.5 1.39e8 5.2e-6 D))))) /\
  (exists z : Cx,
     epsAu (fin l) = Returns (Some z) /\
     epsAuSD (fin l) (fin D) =
     Returns (Some (Cadd z (size_correction 9.0 (1239.8 / l)
                              (gamma_inf 1.38e8 1.28e-6)
                              (gamma_r 2.0 1.38e8 1.28e-6 D))))) /\
  gamma_r 2.5 1.39e8 5.2e-6 D = gamma_r_spec 2.5 (1.39e8 * 1.0e7) (5.2e-6 * 1.0e7) D /\
  gamma_r 2.0 1.38e8 1.28e-6 D = gamma_r_spec 2.0 (1.38e8 * 1.0e7) (1.28e-6 * 1.0e7) D.
Proof.
  intros Hl HD. split; [ | split; [ | split]].
  - destruct (epsAg_returns l Hl) as [n [k [_ [_ E]]]].
    exists (permittivity n k). split; [exact E | apply epsAgSD_eq; assumption].
  - destruct (epsAu_returns l Hl) as [n [k [_ [_ E]]]].
    exists (permittivity n k). split; [exact E | apply epsAuSD_eq; assumption].
  - apply gamma_r_units; lra.
  - apply gamma_r_units; lra.
Qed.

Lemma size_dependent_permittivity_witness :
  0 < 500 /\ 0 < 30 /\
  (exists z : Cx,
     epsAg (fin 500) = Returns (Some z) /\
     epsAgSD (fin 500) (fin 30) =
     Returns (Some (Cadd z (size_correction 9.1 (1239.8 / 500)
                              (gamma_inf 1.39e8 5.2e-6)
                              (gamma_r 2.5 1.39e8 5.2e-6 30))))).
Proof.
  assert (0 < 500) as Hl by lra. assert (0 < 30) as HD by lra.
  split; [exact Hl | ]. split; [exact HD | ].
  exact (proj1 (size_dependent_permittivity 500 30 Hl HD)).
Defined.

Lemma drude_re (omega gamma : R) :
  0 < omega -> re (drude omega gamma) = 1 / (omega * omega + gamma * gamma).
Proof.
  intros Hw. unfold drude, Cinv. cbn [re im].
  assert (0 < omega * omega + gamma * gamma) by nra.
  field. split; [lra | ].
  replace (omega * omega * (omega * omega) + omega * gamma * (omega * gamma))
    with ((omega * omega) * (omega * omega + gamma * gamma)) by ring.
  apply Rmult_integral_contrapositive_currified; nra.
Qed.

Lemma drude_re_decreasing (omega g1 g2 : R) :
  0 < omega -> 0 <= g1 < g2 -> re (drude omega g2) < re (drude omega g1).
Proof.
  intros Hw Hg. rewrite !drude_re by exact Hw.
  unfold Rdiv. rewrite !Rmult_1_l.
  apply Rinv_lt_contravar; [ | nra].
  apply Rmult_lt_0_compat; nra.
Qed.

Lemma gamma_inf_pos (vF lam_inf : R) : 0 < vF -> 0 < lam_inf -> 0 < gamma_inf vF lam_inf.
Proof.
  intros Hv Hlam. unfold gamma_inf, h_bar.
  apply Rdiv_lt_0_compat; [ | exact Hlam]. apply Rmult_lt_0_compat; lra.
Qed.

Lemma gamma_r_above (A vF lam_inf D : R) :
  0 < A -> 0 < vF -> 0 < D -> gamma_inf vF lam_inf < gamma_r A vF lam_inf D.
Proof.
  intros HA Hv HD. unfold gamma_r.
  assert (0 < 2 / D) by (apply Rdiv_lt_0_compat; lra).
  assert (0 < A * h_bar * vF * 1.0e7 * (2 / D)).
  { assert (0 < h_bar) by (unfold h_bar; lra).
    assert (0 < A * h_bar) by (apply Rmult_lt_0_compat; assumption).
    assert (0 < A * h_bar * vF) by (apply Rmult_lt_0_compat; assumption).
    apply Rmult_lt_0_compat; [ | assumption].
    apply Rmult_lt_0_compat; [assumption | lra]. }
  lra.
Qed.





(** ** The dipole polarizability *)

(** Positivity of products, quotients, roots and powers. *)
Ltac pos :=
  match goal with
  | |- _ <> 0 => apply Rgt_not_eq; pos
  | |- _ > 0 => unfold Rgt; pos
  | |- 0 <= _ => apply Rlt_le; pos
  | |- 0 < PI => exact PI_RGT_0
  | |- 0 < sqrt _ => apply sqrt_lt_R0; pos
  | |- 0 < Rpower _ _ => unfold Rpower; apply exp_pos
  | |- 0 < _ * _ => first [assumption | lra | apply Rmult_lt_0_compat; pos]
  | |- 0 < _ / _ => first [assumption | lra | apply Rdiv_lt_0_compat; pos]
  | |- _ => first [assumption | lra]
  end.

(** A quotient by a real number is a quotient by a complex one. *)
Lemma c_div_d_as_c_div (z : complex) (x : R) :
  c_div_d z (fin x) = c_div z (Some (ofR x)).
Proof.
  destruct z as [z | ]; [ | reflexivity].
  unfold c_div_d, c_div, ofR, fin. cbn [re im].
  destruct (Req_dec_T x 0) as [-> | Hx].
  - destruct (Req_dec_T (0 * 0 + 0 * 0) 0) as [_ | Hn]; [reflexivity | ].
    exfalso. apply Hn. ring.
  - destruct (Req_dec_T (x * x + 0 * 0) 0) as [H0 | _]; [exfalso; nra | ].
    apply f_equal. apply (f_equal2 mkCx); field; exact Hx.
Qed.

Lemma IRE_one : cplx 1.0 0.0 = Some (ofR 1).
Proof. cbn [cplx fin]. unfold ofR. apply f_equal. apply (f_equal2 mkCx); lra. Qed.

Lemma dipPolariz_formula_aux (l eh L H Rc : R) (em : Cx) :
  0 < l -> 0 < eh -> 0 < L -> 0 < H -> 0 < Rc ->
  dipPolariz (fin l) (Some em) (fin eh) (fin L) (fin H) (fin Rc) =
  alpha_spec l em eh L H Rc.
Proof.
  intros Hl Heh HL HH HR.
  unfold dipPolariz. cbv zeta.
  rewrite !ddiv_fin by pos.
  rewrite !dpow_fin by pos.
  rewrite !dsqrt_fin by pos.
  unfold M_PI.
  cbn [dadd dsub dmul lift2 fin].
  change (@Some R ?a) with (fin a).
  rewrite !ddiv_fin by pos.
  cbn [dmul lift2 fin].
  change (@Some R ?a) with (fin a).
  fold (beta_fit L H Rc) (eps_c_fit L H Rc) (a2_fit L H Rc) (a4_fit L H Rc).
  fold (size_parameter l eh L).
  unfold alpha_spec. cbv zeta.
  set (s := size_parameter l eh L).
  set (beta := beta_fit L H Rc). set (a2 := a2_fit L H Rc). set (a4 := a4_fit L H Rc).
  set (ec := eps_c_fit L H Rc).
  rewrite !c_div_d_as_c_div.
  rewrite IRE_one.
  unfold d_div_c. cbn [cplx fin].
  apply (f_equal2 c_div).
  { unfold ofR, corrected_volume, prism_volume. fold beta.
    apply f_equal. apply (f_equal2 mkCx); [ | reflexivity].
    assert (PI <> 0) as Hpi by pos.
    replace (sqrt 3.0) with (sqrt 3) by (f_equal; lra).
    lits. field. exact Hpi. }
  apply (f_equal2 c_sub).
  { apply (f_equal2 c_sub); [reflexivity | ].
    apply f_equal. apply f_equal. unfold ofR. apply (f_equal2 mkCx); lra. }
  unfold fin, ofR. cbn [c_mul_d d_mul_c re im].
  rewrite !c_div_fin by (cbn [re im]; apply modulus_neq0; pos).
  cbn [c_add re im].
  unfold Arc_spec, Cadd, Cmul, ofR, corrected_volume, prism_volume. fold beta.
  cbn [re im].
  replace (sqrt 3.0) with (sqrt 3) by (f_equal; lra).
  apply f_equal. apply (f_equal2 mkCx); lits; field; lra.
Qed.

(** C2: for positive wavelength, host permittivity and geometry and every
    permittivity of the material, [dipPolariz] returns
    [(1/(4 pi)) V1 / (1/(eps_m/eps_h - 1) - 1/(eps_c - 1) - A_rc)] with
    [s = sqrt eps_h L / lambda], [V0 = (sqrt 3 / 4) L^2 H], [V1 = V0 beta],
    [A_rc = s^2 a2 + i (4 pi^2 / 3) (V1 / L^3) s^3 + s^4 a4] and the fitted
    sums of four power laws [beta], [eps_c], [a2] and [a4]; the denominator
    is the difference of its three terms. *)
Theorem dipPolariz_formula (l eh L H Rc : R) (em : Cx) :
  0 < l -> 0 < eh -> 0 < L -> 0 < H -> 0 < Rc ->
  let s := sqrt eh * L / l in
  let V0 := sqrt 3 / 4 * L ^ 2 * H in
  let V1 := V0 * beta_fit L H Rc in
  let Arc := Cadd (Cadd (ofR (s ^ 2 * a2_fit L H Rc))
                        (Cmul (mkCx 0 1) (ofR (4 * PI ^ 2 / 3 * (V1 / L ^ 3) * s ^ 3))))
                  (ofR (s ^ 4 * a4_fit L H Rc)) in
  let one := Some (ofR 1) in
  dipPolariz (fin l) (Some em) (fin eh) (fin L) (fin H) (fin Rc) =
  c_div (Some (ofR (1 / (4 * PI) * V1)))
        (c_sub (c_sub (c_div one (c_sub (c_div (Some em) (Some (ofR eh))) one))
                      (c_div one (Some (ofR (eps_c_fit L H Rc - 1)))))
               (Some Arc)).
Proof.
  intros Hl Heh HL HH HR. cbv zeta.
  exact (dipPolariz_formula_aux l eh L H Rc em Hl Heh HL HH HR).
Qed.

Lemma dipPolariz_formula_witness :
  dipPolariz (fin 500) (Some (mkCx (-10) 1)) (fin 1) (fin 50) (fin 20) (fin 2) =
  alpha_spec 500 (mkCx (-10) 1) 1 50 20 2.
Proof.
  apply (dipPolariz_formula 500 1 50 20 2 (mkCx (-10) 1)); lra.
Defined.

(** ** The cross sections *)

Lemma wavenumber_pos (l eh : R) : 0 < l -> 0 < eh -> 0 < wavenumber l eh.
Proof. intros Hl Heh. unfold wavenumber. pos. Qed.

Lemma Rpower_nat (x : R) (n : nat) : 0 < x -> Rpower x (INR n) = x ^ n.
Proof. intros Hx. apply Rpower_pow. exact Hx. Qed.

Lemma dpow_4 (x : R) : 0 < x -> dpow (fin x) (fin 4) = fin (x ^ 4).
Proof.
  intros Hx. rewrite dpow_fin by exact Hx.
  replace 4 with (INR 4) by (simpl; lra).
  now rewrite Rpower_nat.
Qed.

Lemma dpow_2 (x : R) : 0 <= x -> dpow (fin x) (fin 2) = fin (x ^ 2).
Proof.
  intros [Hx | <-].
  - rewrite dpow_fin by exact Hx.
    replace 2 with (INR 2) by (simpl; lra).
    now rewrite Rpower_nat.
  - unfold dpow, fin.
    destruct (Rlt_dec 0 0) as [H | _]; [lra | ].
    destruct (Req_dec_T 0 0) as [_ | H]; [ | contradiction].
    destruct (Rlt_dec 0 2) as [_ | H]; [ | lra].
    f_equal. ring.
Qed.

Lemma scatCSdip_eval (l eh : R) (em : complex) (L H Rc : double) :
  0 < l -> 0 < eh ->
  scatCSdip (fin l) em (fin eh) L H Rc =
  match dipPolariz (fin l) em (fin eh) L H Rc with
  | Some alpha => fin (8 * PI / 3 * wavenumber l eh ^ 4 * Cmod alpha ^ 2 * 1e-14)
  | None => None
  end.
Proof.
  intros Hl Heh. unfold scatCSdip. cbv zeta.
  rewrite dsqrt_fin by pos. unfold M_PI.
  cbn [dmul lift2 fin]. change (@Some R ?a) with (fin a).
  rewrite ddiv_fin by pos.
  replace (2.0 * PI * sqrt eh / l) with (wavenumber l eh)
    by (unfold wavenumber; lra).
  rewrite dpow_4 by (apply wavenumber_pos; assumption).
  destruct (dipPolariz (fin l) em (fin eh) L H Rc) as [alpha | ].
  - cbn [c_abs]. change (@Some R ?a) with (fin a).
    fold (Cmod alpha). rewrite dpow_2 by (apply sqrt_pos).
    cbn [dmul lift2 fin]. change (@Some R ?a) with (fin a).
    rewrite ddiv_fin by lra.
    unfold fin. apply f_equal. lits. field.
  - reflexivity.
Qed.

Lemma extCSdip_eval (l eh : R) (em : complex) (L H Rc : double) :
  0 < l -> 0 < eh ->
  extCSdip (fin l) em (fin eh) L H Rc =
  match dipPolariz (fin l) em (fin eh) L H Rc with
  | Some alpha => fin (4 * PI * wavenumber l eh * im alpha * 1e-14)
  | None => None
  end.
Proof.
  intros Hl Heh. unfold extCSdip. cbv zeta.
  rewrite dsqrt_fin by pos. unfold M_PI.
  cbn [dmul lift2 fin]. change (@Some R ?a) with (fin a).
  rewrite ddiv_fin by pos.
  replace (2.0 * PI * sqrt eh / l) with (wavenumber l eh)
    by (unfold wavenumber; lra).
  destruct (dipPolariz (fin l) em (fin eh) L H Rc) as [alpha | ].
  - cbn [c_imag dmul lift2 fin]. unfold fin. apply f_equal. lits. field.
  - reflexivity.
Qed.

(** C6: for a positive wavelength and a positive host permittivity, with
    [k = 2 pi sqrt eps_h / lambda] and [alpha] the polarizability that
    [dipPolariz] returns on the same arguments, [scatCSdip] returns
    [(8 pi / 3) k^4 |alpha|^2 1e-14] and [extCSdip] returns
    [4 pi k Im(alpha) 1e-14] (neither is finite when [alpha] is not). *)
Theorem cross_sections_formula (l eh L H Rc : R) (em : Cx) :
  0 < l -> 0 < eh -> 0 < L -> 0 < H -> 0 < Rc ->
  let k := 2 * PI * sqrt eh / l in
  scatCSdip (fin l) (Some em) (fin eh) (fin L) (fin H) (fin Rc) =
  match dipPolariz (fin l) (Some em) (fin eh) (fin L) (fin H) (fin Rc) with
  | Some alpha => fin (8 * PI / 3 * k ^ 4 * Cmod alpha ^ 2 * 1e-14)
  | None => None
  end /\
  extCSdip (fin l) (Some em) (fin eh) (fin L) (fin H) (fin Rc) =
  match dipPolariz (fin l) (Some em) (fin eh) (fin L) (fin H) (fin Rc) with
  | Some alpha => fin (4 * PI * k * im alpha * 1e-14)
  | None => None
  end.
Proof.
  intros Hl Heh _ _ _. cbv zeta. split.
  - exact (scatCSdip_eval l eh (Some em) (fin L) (fin H) (fin Rc) Hl Heh).
  - exact (extCSdip_eval l eh (Some em) (fin L) (fin H) (fin Rc) Hl Heh).
Qed.

Lemma cross_sections_formula_witness :
  let k := 2 * PI * sqrt 1 / 500 in
  scatCSdip (fin 500) (Some (mkCx (-10) 1)) (fin 1) (fin 50) (fin 20) (fin 2) =
  match dipPolariz (fin 500) (Some (mkCx (-10) 1)) (fin 1) (fin 50) (fin 20) (fin 2) with
  | Some alpha => fin (8 * PI / 3 * k ^ 4 * Cmod alpha ^ 2 * 1e-14)
  | None => None
  end /\
  extCSdip (fin 500) (Some (mkCx (-10) 1)) (fin 1) (fin 50) (fin 20) (fin 2) =
  match dipPolariz (fin 500) (Some (mkCx (-10) 1)) (fin 1) (fin 50) (fin 20) (fin 2) with
  | Some alpha => fin (4 * PI * k * im alpha * 1e-14)
  | None => None
  end.
Proof.
  apply (cross_sections_formula 500 1 50 20 2 (mkCx (-10) 1)); lra.
Defined.

(** *** The sign of the cross sections *)

Lemma c_div_quot (z w : Cx) :
  Cnorm2 w <> 0 -> c_div (Some z) (Some w) = Some (Cquot z w).
Proof. intros Hw. unfold Cnorm2 in Hw. now rewrite c_div_fin. Qed.

Lemma Cnorm2_ofR (x : R) : x <> 0 -> Cnorm2 (ofR x) <> 0.
Proof. intros Hx. unfold Cnorm2, ofR. cbn [re im]. apply modulus_neq0. exact Hx. Qed.

Lemma Cnorm2_im (z : Cx) : im z <> 0 -> Cnorm2 z <> 0.
Proof.
  intros Hz. unfold Cnorm2. apply Rgt_not_eq, sum_squares_pos. now right.
Qed.

Lemma Cnorm2_pos (z : Cx) : Cnorm2 z <> 0 -> 0 < Cnorm2 z.
Proof. unfold Cnorm2. intros Hz. nra. Qed.

(** The polarizability is finite when the permittivities of the particle
    and of the host differ, [eps_c] is not 1 and the denominator does not
    vanish. *)
Lemma dipPolariz_finite (l eh L H Rc : R) (em : Cx) :
  0 < l -> 0 < eh -> 0 < L -> 0 < H -> 0 < Rc ->
  Cnorm2 (contrast em eh) <> 0 ->
  eps_c_fit L H Rc <> 1 ->
  Cnorm2 (polariz_den l em eh L H Rc) <> 0 ->
  dipPolariz (fin l) (Some em) (fin eh) (fin L) (fin H) (fin Rc) =
  Some (Cquot (ofR (1 / (4 * PI) * corrected_volume L H Rc))
              (polariz_den l em eh L H Rc)).
Proof.
  intros Hl Heh HL HH HR Hz Hc Hden.
  rewrite dipPolariz_formula_aux by assumption.
  unfold alpha_spec. cbv zeta.
  rewrite (c_div_quot em (ofR eh)) by (apply Cnorm2_ofR; lra).
  cbn [c_sub]. fold (Csub (Cquot em (ofR eh)) (ofR 1)). fold (contrast em eh).
  rewrite (c_div_quot (ofR 1) (contrast em eh)) by exact Hz.
  rewrite (c_div_quot (ofR 1) (ofR (eps_c_fit L H Rc - 1))) by (apply Cnorm2_ofR; lra).
  cbn [c_sub].
  change (c_div (Some (ofR (1 / (4 * PI) * corrected_volume L H Rc)))
                (Some (polariz_den l em eh L H Rc)) =
          Some (Cquot (ofR (1 / (4 * PI) * corrected_volume L H Rc))
                      (polariz_den l em eh L H Rc))).
  apply c_div_quot. exact Hden.
Qed.

(** The imaginary part of the quotient of a real number by a complex one. *)
Lemma im_quot_real (x : R) (w : Cx) :
  im (Cquot (ofR x) w) = - x * im w / Cnorm2 w.
Proof. unfold Cquot, Cnorm2, ofR. cbn [re im]. unfold Rdiv. ring. Qed.

(** The imaginary part of the denominator of the polarizability. *)
Lemma polariz_den_im (l eh L H Rc : R) (em : Cx) :
  0 < eh ->
  im (polariz_den l em eh L H Rc) =
  - (im em / eh) / Cnorm2 (contrast em eh)
  - 4 * PI ^ 2 / 3 * (corrected_volume L H Rc / L ^ 3) * size_parameter l eh L ^ 3.
Proof.
  intros Heh.
  assert (im (contrast em eh) = im em / eh) as Him.
  { unfold contrast, Csub, Cquot, ofR. cbn [re im]. field. lra. }
  unfold polariz_den, Csub. cbn [re im].
  rewrite !im_quot_real. rewrite Him.
  unfold Arc_spec, Cadd, Cmul, ofR. cbn [re im].
  unfold Rdiv. ring.
Qed.

Lemma prism_volume_pos (L H : R) : 0 < L -> 0 < H -> 0 < prism_volume L H.
Proof.
  intros HL HH. unfold prism_volume.
  assert (0 < sqrt 3) by (apply sqrt_lt_R0; lra).
  assert (0 < L ^ 2) by (apply pow_lt; exact HL).
  pos.
Qed.

Lemma size_parameter_pos (l eh L : R) :
  0 < l -> 0 < eh -> 0 < L -> 0 < size_parameter l eh L.
Proof. intros Hl Heh HL. unfold size_parameter. pos. Qed.

(** With a negative imaginary part of the denominator the polarizability
    is finite, and the sign of its imaginary part is the sign of the
    fitted factor [beta]. *)
Lemma polarizability_im_sign (l eh L H Rc : R) (em : Cx) :
  0 < l -> 0 < eh -> 0 < L -> 0 < H -> 0 < Rc ->
  Cnorm2 (contrast em eh) <> 0 ->
  eps_c_fit L H Rc <> 1 ->
  im (polariz_den l em eh L H Rc) < 0 ->
  exists alpha : Cx,
    dipPolariz (fin l) (Some em) (fin eh) (fin L) (fin H) (fin Rc) = Some alpha /\
    (0 < beta_fit L H Rc -> 0 < im alpha) /\
    (beta_fit L H Rc < 0 -> im alpha < 0).
Proof.
  intros Hl Heh HL HH HR Hz Hc Him.
  assert (Cnorm2 (polariz_den l em eh L H Rc) <> 0) as Hden
    by (apply Cnorm2_im; lra).
  eexists. split; [apply dipPolariz_finite; assumption | ].
  rewrite im_quot_real.
  pose proof (Cnorm2_pos _ Hden) as HN.
  pose proof (prism_volume_pos L H HL HH) as HV0.
  pose proof PI_RGT_0 as Hpi.
  assert (0 < 1 / (4 * PI)) as Hc4 by pos.
  assert (0 < / Cnorm2 (polariz_den l em eh L H Rc)) as HiN
    by (apply Rinv_0_lt_compat; exact HN).
  unfold corrected_volume. unfold Rdiv in *.
  set (N' := / Cnorm2 (polariz_den l em eh L H Rc)) in *.
  set (d := im (polariz_den l em eh L H Rc)) in *.
  set (V0 := prism_volume L H) in *.
  set (c4 := 1 * / (4 * PI)) in *.
  clearbody N' d V0 c4.
  split; intros Hb.
  - assert (0 < c4 * (V0 * beta_fit L H Rc)) by (repeat apply Rmult_lt_0_compat; assumption).
    assert (0 < c4 * (V0 * beta_fit L H Rc) * (- d)) by (apply Rmult_lt_0_compat; lra).
    replace (- (c4 * (V0 * beta_fit L H Rc)) * d * N')
      with (c4 * (V0 * beta_fit L H Rc) * (- d) * N') by ring.
    apply Rmult_lt_0_compat; assumption.
  - assert (0 < c4 * (V0 * (- beta_fit L H Rc)))
      by (repeat apply Rmult_lt_0_compat; try assumption; lra).
    assert (0 < c4 * (V0 * (- beta_fit L H Rc)) * (- d)) by (apply Rmult_lt_0_compat; lra).
    assert (0 < c4 * (V0 * (- beta_fit L H Rc)) * (- d) * N')
      by (apply Rmult_lt_0_compat; assumption).
    replace (- (c4 * (V0 * beta_fit L H Rc)) * d * N')
      with (- (c4 * (V0 * (- beta_fit L H Rc)) * (- d) * N')) by ring.
    lra.
Qed.

(** The denominator has a negative imaginary part when the material does
    not gain energy and [beta] is positive. *)
Lemma polariz_den_im_neg (l eh L H Rc : R) (em : Cx) :
  0 < l -> 0 < eh -> 0 < L -> 0 < H -> 0 < Rc ->
  0 <= im em -> 0 < beta_fit L H Rc ->
  Cnorm2 (contrast em eh) <> 0 ->
  im (polariz_den l em eh L H Rc) < 0.
Proof.
  intros Hl Heh HL HH HR Hem Hb Hz.
  rewrite polariz_den_im by exact Heh.
  pose proof (Cnorm2_pos _ Hz) as HN.
  pose proof (prism_volume_pos L H HL HH) as HV0.
  pose proof (size_parameter_pos l eh L Hl Heh HL) as Hs.
  pose proof PI_RGT_0 as Hpi.
  assert (0 <= im em / eh / Cnorm2 (contrast em eh)) as H1.
  { apply Rmult_le_pos; [ | apply Rlt_le, Rinv_0_lt_compat; exact HN].
    apply Rmult_le_pos; [exact Hem | apply Rlt_le, Rinv_0_lt_compat; exact Heh]. }
  assert (0 < 4 * PI ^ 2 / 3 * (corrected_volume L H Rc / L ^ 3) * size_parameter l eh L ^ 3)
    as H2.
  { assert (0 < PI ^ 2) by (apply pow_lt; exact Hpi).
    assert (0 < L ^ 3) by (apply pow_lt; exact HL).
    assert (0 < size_parameter l eh L ^ 3) by (apply pow_lt; exact Hs).
    assert (0 < corrected_volume L H Rc)
      by (unfold corrected_volume; apply Rmult_lt_0_compat; assumption).
    pos. }
  unfold Rdiv in *. lra.
Qed.

Lemma contrast_nonzero (em : Cx) (eh : R) :
  0 < eh -> re em <> eh \/ im em <> 0 -> Cnorm2 (contrast em eh) <> 0.
Proof.
  intros Heh Hne.
  assert (re (contrast em eh) = re em / eh - 1) as Hre
    by (unfold contrast, Csub, Cquot, ofR; cbn [re im]; field; lra).
  assert (im (contrast em eh) = im em / eh) as Him
    by (unfold contrast, Csub, Cquot, ofR; cbn [re im]; field; lra).
  unfold Cnorm2. rewrite Hre, Him.
  apply Rgt_not_eq, sum_squares_pos.
  destruct Hne as [H | H].
  - left. intros E. apply H.
    assert (re em / eh = 1) as E1 by lra.
    apply (f_equal (fun t => t * eh)) in E1. field_simplify in E1; lra.
  - right. intros E. apply H.
    apply (f_equal (fun t => t * eh)) in E. field_simplify in E; lra.
Qed.

Lemma scat_nonneg (k : R) (alpha : Cx) :
  0 <= 8 * PI / 3 * k ^ 4 * Cmod alpha ^ 2 * 1e-14.
Proof.
  pose proof PI_RGT_0 as Hpi.
  assert (0 <= k ^ 4) by (replace (k ^ 4) with ((k * k) * (k * k)) by ring; nra).
  assert (0 <= Cmod alpha ^ 2) by apply pow2_ge_0.
  assert (0 <= 8 * PI / 3) by lra.
  apply Rmult_le_pos; [ | lra].
  apply Rmult_le_pos; [ | assumption].
  apply Rmult_le_pos; assumption.
Qed.

(** C7 (as amended): for positive wavelength, host permittivity and
    geometry, a finite scattering cross section is not negative; the
    extinction cross section is not negative exactly when the imaginary
    part of the polarizability is not, without any clamp; and both cross
    sections are finite and not negative when the material does not gain
    energy ([Im eps_m >= 0]), the fitted factor [beta] of the geometry is
    positive, [eps_m] is not [eps_h] and [eps_c] is not 1. *)
Theorem cross_sections_sign (l eh L H Rc : R) (em : Cx) :
  0 < l -> 0 < eh -> 0 < L -> 0 < H -> 0 < Rc ->
  (forall v : R,
     scatCSdip (fin l) (Some em) (fin eh) (fin L) (fin H) (fin Rc) = fin v -> 0 <= v) /\
  (forall alpha : Cx,
     dipPolariz (fin l) (Some em) (fin eh) (fin L) (fin H) (fin Rc) = Some alpha ->
     exists v : R,
       extCSdip (fin l) (Some em) (fin eh) (fin L) (fin H) (fin Rc) = fin v /\
       (0 <= v <-> 0 <= im alpha)) /\
  (0 <= im em -> 0 < beta_fit L H Rc ->
   re em <> eh \/ im em <> 0 -> eps_c_fit L H Rc <> 1 ->
   exists vs ve : R,
     scatCSdip (fin l) (Some em) (fin eh) (fin L) (fin H) (fin Rc) = fin vs /\
     extCSdip (fin l) (Some em) (fin eh) (fin L) (fin H) (fin Rc) = fin ve /\
     0 <= vs /\ 0 <= ve).
Proof.
  intros Hl Heh HL HH HR.
  pose proof (wavenumber_pos l eh Hl Heh) as Hk.
  pose proof PI_RGT_0 as Hpi.
  assert (forall t, 0 <= 4 * PI * wavenumber l eh * t * 1e-14 <-> 0 <= t) as Hext.
  { intros t. assert (0 < 4 * PI * wavenumber l eh) as Hc by pos.
    split; intros Ht; [ | apply Rmult_le_pos; [apply Rmult_le_pos; lra | lra]].
    destruct (Rle_lt_dec 0 t) as [ | Hneg]; [assumption | exfalso].
    assert (0 < 4 * PI * wavenumber l eh * (- t)) by (apply Rmult_lt_0_compat; lra).
    lra. }
  split; [ | split].
  - intros v. rewrite scatCSdip_eval by assumption.
    destruct (dipPolariz _ _ _ _ _ _) as [alpha | ]; [ | discriminate].
    intros E. injection E as <-. apply scat_nonneg.
  - intros alpha E. rewrite extCSdip_eval by assumption. rewrite E.
    eexists. split; [reflexivity | apply Hext].
  - intros Hem Hb Hne Hc.
    pose proof (contrast_nonzero em eh Heh Hne) as Hz.
    pose proof (polariz_den_im_neg l eh L H Rc em Hl Heh HL HH HR Hem Hb Hz) as Hd.
    destruct (polarizability_im_sign l eh L H Rc em Hl Heh HL HH HR Hz Hc Hd)
      as [alpha [E [Hpos _]]].
    rewrite scatCSdip_eval, extCSdip_eval by assumption. rewrite E.
    eexists. eexists. split; [reflexivity | ]. split; [reflexivity | ].
    split; [apply scat_nonneg | ].
    apply Hext. apply Rlt_le, Hpos, Hb.
Qed.

Lemma cross_sections_sign_witness :
  0 < 500 /\ 0 < 1 /\ 0 < 50 /\ 0 < 20 /\ 0 < 2 /\
  forall v : R,
    scatCSdip (fin 500) (Some (mkCx (-10) 1)) (fin 1) (fin 50) (fin 20) (fin 2) = fin v ->
    0 <= v.
Proof.
  assert (0 < 500) as Hl by lra. assert (0 < 1) as Heh by lra.
  assert (0 < 50) as HL by lra. assert (0 < 20) as HH by lra.
  assert (0 < 2) as HR by lra.
  repeat (split; [assumption | ]).
  exact (proj1 (cross_sections_sign 500 1 50 20 2 (mkCx (-10) 1) Hl Heh HL HH HR)).
Defined.

(** Bounds on the powers of a base that is at least 1. *)
Lemma Rpower_pos (x y : R) : 0 < Rpower x y.
Proof. unfold Rpower. apply exp_pos. Qed.

Lemma Rpower_le_1 (x y : R) : 1 <= x -> y <= 0 -> Rpower x y <= 1.
Proof.
  intros Hx Hy. rewrite <- (Rpower_O x) by lra. apply Rle_Rpower; assumption.
Qed.

Lemma Rpower_ge_1 (x y : R) : 1 <= x -> 0 <= y -> 1 <= Rpower x y.
Proof.
  intros Hx Hy. rewrite <- (Rpower_O x) by lra. apply Rle_Rpower; assumption.
Qed.

Lemma Rpower_le_inv_sqrt (x y : R) : 1 <= x -> y <= - / 2 -> Rpower x y <= / sqrt x.
Proof.
  intros Hx Hy. rewrite <- Rpower_sqrt by lra. rewrite <- Rpower_Ropp.
  apply Rle_Rpower; assumption.
Qed.

Lemma Rpower_ge_inv_square (x y : R) : 1 <= x -> - 2 <= y -> / (x * x) <= Rpower x y.
Proof.
  intros Hx Hy.
  replace (x * x) with (Rpower x 2).
  - rewrite <- Rpower_Ropp. apply Rle_Rpower; assumption.
  - replace 2 with (INR 2) by (simpl; lra). rewrite Rpower_pow by lra. ring.
Qed.

Lemma inv_sqrt_le_100 (x : R) : 10000 <= x -> / sqrt x <= / 100.
Proof.
  intros Hx.
  assert (100 <= sqrt x) as Hs.
  { replace 100 with (sqrt (100 * 100)) by (apply sqrt_square; lra).
    apply sqrt_le_1_alt. lra. }
  apply Rinv_le_contravar; lra.
Qed.

(** A thick prism with sharp corners, of edge 10010 nm, thickness 10000 nm
    and corner radius 1 nm: its fitted factor [beta] is negative and its
    [eps_c] is below 1. *)
Lemma thick_prism_beta : -0.0325 < beta_fit 10010 10000 1 < -0.0115.
Proof.
  unfold beta_fit.
  pose proof (Rpower_ge_inv_square (10010 / 10000) (-1.27802) ltac:(lra) ltac:(lra)) as H1.
  pose proof (Rpower_le_1 (10010 / 10000) (-1.27802) ltac:(lra) ltac:(lra)) as H1'.
  pose proof (Rpower_le_inv_sqrt (10010 / 1) (-0.928178) ltac:(lra) ltac:(lra)) as H2.
  pose proof (inv_sqrt_le_100 (10010 / 1) ltac:(lra)) as H2'.
  pose proof (Rpower_pos (10010 / 1) (-0.928178)) as H2p.
  pose proof (Rpower_le_inv_sqrt (10000 / 1) (-0.619604) ltac:(lra) ltac:(lra)) as H3.
  pose proof (inv_sqrt_le_100 (10000 / 1) ltac:(lra)) as H3'.
  pose proof (Rpower_pos (10000 / 1) (-0.619604)) as H3p.
  assert (/ (10010 / 10000 * (10010 / 10000)) >= 0.998) as H1n by lra.
  lra.
Qed.

Lemma thick_prism_eps_c : eps_c_fit 10010 10000 1 < 1.
Proof.
  unfold eps_c_fit.
  pose proof (Rpower_ge_1 (10010 / 10000) 0.904851 ltac:(lra) ltac:(lra)) as H1.
  pose proof (Rpower_le_inv_sqrt (10010 / 1) (-9.71985) ltac:(lra) ltac:(lra)) as H2.
  pose proof (inv_sqrt_le_100 (10010 / 1) ltac:(lra)) as H2'.
  pose proof (Rpower_le_1 (10000 / 1) (-0.416187) ltac:(lra) ltac:(lra)) as H3.
  lra.
Qed.

Lemma sqrt_3_bounds : 0 < sqrt 3 <= 2.
Proof.
  split; [apply sqrt_lt_R0; lra | ].
  replace 2 with (sqrt (2 * 2)) by (apply sqrt_square; lra).
  apply sqrt_le_1_alt. lra.
Qed.

Lemma thick_prism_den_im :
  im (polariz_den 100100 (mkCx (-10) 1) 1 10010 10000 1) < 0.
Proof.
  rewrite polariz_den_im by lra. cbn [im].
  assert (Cnorm2 (contrast (mkCx (-10) 1) 1) = 122) as ->
    by (unfold Cnorm2, contrast, Csub, Cquot, ofR; cbn [re im]; lra).
  assert (size_parameter 100100 1 10010 ^ 3 = 0.001) as ->
    by (unfold size_parameter; rewrite sqrt_1; lra).
  assert (corrected_volume 10010 10000 1 / 10010 ^ 3
          = sqrt 3 * (beta_fit 10010 10000 1 * (10000 / (4 * 10010)))) as ->
    by (unfold corrected_volume, prism_volume; field).
  pose proof thick_prism_beta as [Hb1 Hb2].
  pose proof sqrt_3_bounds as [Hs1 Hs2].
  pose proof PI_RGT_0 as Hpi. pose proof PI_4 as Hpi4.
  set (b := beta_fit 10010 10000 1) in *. set (r := sqrt 3) in *.
  clearbody b r.
  assert (0 <= - (b * (10000 / (4 * 10010))) <= 0.0082) as [Hy1 Hy2] by lra.
  assert (r * - (b * (10000 / (4 * 10010))) <= 2 * 0.0082) as Hu
    by (apply Rmult_le_compat; lra).
  assert (0 <= r * - (b * (10000 / (4 * 10010)))) as Hu0
    by (apply Rmult_le_pos; lra).
  assert (PI ^ 2 <= 4 * 4) as Hp2
    by (simpl; rewrite Rmult_1_r; apply Rmult_le_compat; lra).
  assert (0 <= PI ^ 2) as Hp0 by apply pow2_ge_0.
  assert (PI ^ 2 * (r * - (b * (10000 / (4 * 10010)))) <= 4 * 4 * (2 * 0.0082)) as Hprod
    by (apply Rmult_le_compat; lra).
  replace (4 * PI ^ 2 / 3 * (r * (b * (10000 / (4 * 10010)))) * 0.001)
    with (- (4 / 3 * 0.001 * (PI ^ 2 * (r * - (b * (10000 / (4 * 10010)))))))
    by (unfold Rdiv; ring).
  lra.
Qed.

(** C7 (as stated): a silver-like permittivity with a positive imaginary
    part, the host permittivity 1 and a thick prism with sharp corners, of
    edge 10010 nm, thickness 10000 nm and corner radius 1 nm, at the
    wavelength of 100100 nm: the extinction cross section that [extCSdip]
    returns is negative. *)
Lemma extinction_negative :
  0 < 100100 /\ 0 < 1 /\ 0 < 1 < 10000 /\ 10000 < 10010 /\
  0 <= im (mkCx (-10) 1) /\
  exists v : R,
    extCSdip (fin 100100) (Some (mkCx (-10) 1)) (fin 1)
             (fin 10010) (fin 10000) (fin 1) = fin v /\
    v < 0.
Proof.
  split; [lra | ]. split; [lra | ]. split; [lra | ]. split; [lra | ].
  split; [cbn [im]; lra | ].
  assert (Cnorm2 (contrast (mkCx (-10) 1) 1) <> 0) as Hz
    by (apply contrast_nonzero; [lra | right; cbn [im]; lra]).
  pose proof thick_prism_eps_c as Hc.
  pose proof thick_prism_beta as [_ Hb].
  destruct (polarizability_im_sign 100100 1 10010 10000 1 (mkCx (-10) 1)
              ltac:(lra) ltac:(lra) ltac:(lra) ltac:(lra) ltac:(lra)
              Hz ltac:(lra) thick_prism_den_im) as [alpha [E [_ Hneg]]].
  rewrite extCSdip_eval by lra. rewrite E.
  eexists. split; [reflexivity | ].
  pose proof (wavenumber_pos 100100 1 ltac:(lra) ltac:(lra)) as Hk.
  pose proof PI_RGT_0 as Hpi.
  pose proof (Hneg ltac:(lra)) as Ha.
  assert (0 < 4 * PI * wavenumber 100100 1) as Hc4 by pos.
  assert (0 < 4 * PI * wavenumber 100100 1 * (- im alpha))
    by (apply Rmult_lt_0_compat; lra).
  lra.
Qed.

(** ** The diameter of the sphere of the volume of the prism *)

Lemma cube_root_pow3 (x : R) : 0 < x -> cube_root x ^ 3 = x.
Proof.
  intros Hx. unfold cube_root.
  rewrite <- (Rpower_pow 3) by apply Rpower_pos.
  rewrite Rpower_mult.
  replace (1 / 3 * INR 3) with 1 by (simpl; field).
  apply Rpower_1. exact Hx.
Qed.

Lemma cube_root_of_cube (a : R) : 0 < a -> cube_root (a ^ 3) = a.
Proof.
  intros Ha. unfold cube_root.
  rewrite <- (Rpower_pow 3) by exact Ha.
  rewrite Rpower_mult.
  replace (INR 3 * (1 / 3)) with 1 by (simpl; field).
  apply Rpower_1. exact Ha.
Qed.

Lemma cube_root_lt (x y : R) : 0 < x < y -> cube_root x < cube_root y.
Proof. intros Hxy. unfold cube_root. apply Rlt_Rpower_l; lra. Qed.

Lemma diameter_eval (L H : R) :
  0 < L -> 0 < H ->
  diameter (fin L) (fin H) = fin (sphere_diameter (prism_volume L H)).
Proof.
  intros HL HH. unfold diameter.
  pose proof PI_RGT_0 as Hpi.
  assert (0 < sqrt 3) as Hs by (apply sqrt_lt_R0; lra).
  rewrite dsqrt_fin by lra. unfold M_PI.
  cbn [dmul lift2 fin]. change (@Some R ?a) with (fin a).
  rewrite !ddiv_fin by lra.
  replace (sqrt 3.0) with (sqrt 3) by (f_equal; lra).
  assert (0 < 3.0 * sqrt 3 * L * L * H / (16.0 * PI)) as Hq by pos.
  rewrite dpow_fin by exact Hq.
  cbn [dmul lift2 fin]. unfold fin. apply f_equal.
  unfold sphere_diameter, cube_root, prism_volume.
  replace (1.0 / 3.0) with (1 / 3) by lra.
  replace 2.0 with 2 by lra.
  f_equal. f_equal. lits. field. lra.
Qed.

Lemma PI_bounds : 3.1415 < PI < 3.1416.
Proof.
  pose proof (PI_2_3_7_ineq 2) as [Hlo Hhi].
  unfold sum_f_R0, tg_alt, PI_2_3_7_tg, Ratan_seq in Hlo, Hhi.
  simpl in Hlo, Hhi.
  split; lra.
Qed.

Lemma sqrt_3_tight : 1.732 < sqrt 3 < 1.7321.
Proof.
  split.
  - replace 1.732 with (sqrt (1.732 * 1.732)) by (apply sqrt_square; lra).
    apply sqrt_lt_1_alt. lra.
  - replace 1.7321 with (sqrt (1.7321 * 1.7321)) by (apply sqrt_square; lra).
    apply sqrt_lt_1_alt. lra.
Qed.

(** The diameter of the example prism, of edge 50 nm and thickness 20 nm. *)
Lemma diameter_50_20_bounds :
  34.57 < sphere_diameter (prism_volume 50 20) < 34.59.
Proof.
  pose proof PI_bounds as [Hp1 Hp2]. pose proof sqrt_3_tight as [Hr1 Hr2].
  unfold sphere_diameter, prism_volume.
  assert (3 * (sqrt 3 / 4 * 50 ^ 2 * 20) / (4 * PI) = 9375 * sqrt 3 / PI) as ->
    by (field; lra).
  set (r := sqrt 3) in *. clearbody r.
  assert (17.285 ^ 3 < 9375 * r / PI) as Hlo.
  { apply Rmult_lt_reg_r with PI; [lra | ].
    replace (9375 * r / PI * PI) with (9375 * r) by (field; lra). lra. }
  assert (9375 * r / PI < 17.295 ^ 3) as Hhi.
  { apply Rmult_lt_reg_r with PI; [lra | ].
    replace (9375 * r / PI * PI) with (9375 * r) by (field; lra). lra. }
  pose proof (cube_root_lt (17.285 ^ 3) (9375 * r / PI) ltac:(lra)) as H1.
  pose proof (cube_root_lt (9375 * r / PI) (17.295 ^ 3) ltac:(lra)) as H2.
  rewrite cube_root_of_cube in H1, H2 by lra.
  lra.
Qed.

(** C8 (as amended): for a positive edge and a positive thickness
    [diameter] succeeds and returns [2 (3 V / (4 pi))^(1/3)], with
    [V = (sqrt 3 / 4) L^2 H] the volume of the prism, which is
    [2 (3 sqrt 3 L^2 H / (16 pi))^(1/3)] and the diameter of the sphere of
    volume [V]; for the edge 50 and the thickness 20 this is
    [2 (3 sqrt 3 50^2 20 / (16 pi))^(1/3)], between 34.57 and 34.59. *)
Theorem diameter_formula (L H : R) :
  0 < L -> 0 < H ->
  diameter (fin L) (fin H) = fin (2 * Rpower (3 * (sqrt 3 / 4 * L ^ 2 * H) / (4 * PI)) (1 / 3)) /\
  2 * Rpower (3 * (sqrt 3 / 4 * L ^ 2 * H) / (4 * PI)) (1 / 3)
    = 2 * Rpower (3 * sqrt 3 * L ^ 2 * H / (16 * PI)) (1 / 3) /\
  sphere_volume (2 * Rpower (3 * (sqrt 3 / 4 * L ^ 2 * H) / (4 * PI)) (1 / 3))
    = sqrt 3 / 4 * L ^ 2 * H /\
  diameter (fin 50) (fin 20) = fin (2 * Rpower (3 * sqrt 3 * 50 ^ 2 * 20 / (16 * PI)) (1 / 3)) /\
  34.57 < 2 * Rpower (3 * sqrt 3 * 50 ^ 2 * 20 / (16 * PI)) (1 / 3) < 34.59.
Proof.
  intros HL HH.
  pose proof PI_RGT_0 as Hpi.
  assert (forall l h, 3 * (sqrt 3 / 4 * l ^ 2 * h) / (4 * PI)
                      = 3 * sqrt 3 * l ^ 2 * h / (16 * PI)) as Hsame
    by (intros l h; field; lra).
  split; [exact (diameter_eval L H HL HH) | ].
  split; [now rewrite Hsame | ].
  split.
  - fold (prism_volume L H). fold (cube_root (3 * prism_volume L H / (4 * PI))).
    pose proof (prism_volume_pos L H HL HH) as HV.
    unfold sphere_volume.
    replace ((2 * cube_root (3 * prism_volume L H / (4 * PI))) ^ 3)
      with (8 * cube_root (3 * prism_volume L H / (4 * PI)) ^ 3) by ring.
    rewrite cube_root_pow3 by pos.
    field. lra.
  - rewrite <- Hsame. split.
    + exact (diameter_eval 50 20 ltac:(lra) ltac:(lra)).
    + exact diameter_50_20_bounds.
Qed.

Lemma diameter_formula_witness :
  0 < 50 /\ 0 < 20 /\
  diameter (fin 50) (fin 20) = fin (2 * Rpower (3 * (sqrt 3 / 4 * 50 ^ 2 * 20) / (4 * PI)) (1 / 3)).
Proof.
  assert (0 < 50) as HL by lra. assert (0 < 20) as HH by lra.
  split; [exact HL | ]. split; [exact HH | ].
  exact (proj1 (diameter_formula 50 20 HL HH)).
Defined.

(** C8 (as stated): the diameter of the prism of edge 50 and thickness 20
    is above 34.57, more than a quarter of a nanometre away from 34.3. *)
Lemma diameter_50_20_not_34_3 :
  exists d : R,
    diameter (fin 50) (fin 20) = fin d /\ 34.57 < d /\ 0.27 < Rabs (d - 34.3).
Proof.
  exists (sphere_diameter (prism_volume 50 20)).
  pose proof diameter_50_20_bounds as [Hlo _].
  split; [exact (diameter_eval 50 20 ltac:(lra) ltac:(lra)) | ].
  split; [exact Hlo | ].
  rewrite Rabs_pos_eq by lra. lra.
Qed.

(** * Further properties of the code *)

(** ** The interpolation procedure *)

(** The loop never exits the program. *)
Lemma scan_never_exits (x : list R) (v : double) (steps : nat) :
  forall (j : Z) (st : Z * bool) (status : Z) (out : string),
  scan x v steps j st <> Exits status out.
Proof.
  induction steps as [ | steps IH]; intros j st status out; cbn [scan].
  - discriminate.
  - destruct (snd st); [ | apply IH].
    unfold read. destruct (j <? 0)%Z; [cbn [bind]; discriminate | ].
    destruct (nth_error x (Z.to_nat j)) as [xj | ]; cbn [bind]; [ | discriminate].
    destruct (dgt (fin xj) v); apply IH.
Qed.

(** X1: with fewer than four samples [interpolate] reads before the start
    of [x_arr], whatever the arrays and the query are: the behaviour is
    undefined. *)
Theorem interpolate_needs_four_samples (n : Z) (x y : list R) (v : double) :
  (n <= 3)%Z -> interpolate n x y v = Faults.
Proof.
  intros Hn. unfold interpolate.
  destruct (scan x v (Z.to_nat (n - 1)) 1 (0%Z, true)) as [st | status out | ] eqn:E.
  - cbn [bind]. cbv zeta.
    destruct (n - 3 <? INT_MIN)%Z; [reflexivity | ].
    rewrite (clamp_code n (fst st)).
    assert (clamp n (fst st) - 1 < 0)%Z as Hneg by (unfold clamp; lia).
    unfold read at 1. destruct (Z.ltb_spec (clamp n (fst st) - 1) 0); [reflexivity | lia].
  - exfalso. exact (scan_never_exits _ _ _ _ _ _ _ E).
  - reflexivity.
Qed.

Lemma interpolate_needs_four_samples_witness :
  (3 <= 3)%Z /\ interpolate 3 three_x three_x (fin 1) = Faults.
Proof.
  assert (3 <= 3)%Z as H by lia.
  split; [exact H | exact (interpolate_needs_four_samples 3 three_x three_x (fin 1) H)].
Defined.

(** X2: on a strictly increasing table of at least four samples and for a
    finite query [v], [interpolate] returns the value at [v] of the cubic
    through four successive samples, from index [i - 1] to [i + 2]: [i] is 1
    when [v < x[1]]; it is [min k (n - 3)] when [x[k] <= v < x[k+1]] with
    [1 <= k <= n - 2]; and it is 1 again when [x[n-1] <= v].  No query is
    rejected. *)
Theorem interpolate_window_selection (n : Z) (x y : list R) (v : R) :
  Z.of_nat (length x) = n -> length y = length x -> (4 <= n)%Z -> increasing x ->
  exists i : Z,
    (1 <= i <= n - 3)%Z /\
    interpolate n x y (fin v) = Returns (fin (window_value x y i v)) /\
    ((v < at_ x 1 /\ i = 1%Z) \/
     (exists k, (1 <= k <= n - 2)%Z /\ at_ x k <= v < at_ x (k + 1) /\
                i = Z.min k (n - 3)) \/
     (at_ x (n - 1) <= v /\ i = 1%Z)).
Proof. exact (interpolate_window n x y v). Qed.

Lemma interpolate_window_selection_witness :
  exists i : Z,
    (1 <= i <= 5 - 3)%Z /\
    interpolate 5 five_x five_cubes (fin 10) = Returns (fin (window_value five_x five_cubes i 10)) /\
    ((10 < at_ five_x 1 /\ i = 1%Z) \/
     (exists k, (1 <= k <= 5 - 2)%Z /\ at_ five_x k <= 10 < at_ five_x (k + 1) /\
                i = Z.min k (5 - 3)) \/
     (at_ five_x (5 - 1) <= 10 /\ i = 1%Z)).
Proof.
  apply (interpolate_window_selection 5 five_x five_cubes 10);
    [reflexivity | reflexivity | lia | exact five_x_increasing].
Defined.

(** X3: [interpolate] is exact on cubic polynomials: when every sample is
    the value of one polynomial of degree at most three at its argument,
    the result is the value of that polynomial at the query, inside the
    table and outside it. *)
Theorem interpolate_exact_on_cubics (n : Z) (x y : list R) (a0 a1 a2 a3 v : R) :
  Z.of_nat (length x) = n -> length y = length x -> (4 <= n)%Z -> increasing x ->
  (forall j, (0 <= j < n)%Z -> at_ y j = poly3 a0 a1 a2 a3 (at_ x j)) ->
  interpolate n x y (fin v) = Returns (fin (poly3 a0 a1 a2 a3 v)).
Proof.
  intros Hn Hy H4 Hx Hp.
  destruct (interpolate_window n x y v Hn Hy H4 Hx) as [i [Hi [E _]]].
  rewrite E. do 2 f_equal. unfold window_value.
  apply cubic4_unique;
    try (apply increasing_at; [exact Hx | lia | lia]);
    symmetry; apply Hp; lia.
Qed.

Lemma five_cubes_spec (j : Z) :
  (0 <= j < 5)%Z -> at_ five_cubes j = poly3 0 0 0 1 (at_ five_x j).
Proof.
  intros Hj.
  assert (j = 0 \/ j = 1 \/ j = 2 \/ j = 3 \/ j = 4)%Z as Hc by lia.
  destruct Hc as [-> | [-> | [-> | [-> | ->]]]];
    unfold five_cubes, five_x, poly3; at_eval; lra.
Qed.

Lemma interpolate_exact_on_cubics_witness :
  interpolate 5 five_x five_cubes (fin 10) = Returns (fin (poly3 0 0 0 1 10)).
Proof.
  apply (interpolate_exact_on_cubics 5 five_x five_cubes 0 0 0 1 10);
    [reflexivity | reflexivity | lia | exact five_x_increasing | exact five_cubes_spec].
Defined.

(** X4: on a strictly increasing table of at least four samples,
    [interpolate] at the argument of a sample returns that sample, for
    every sample but the last one. *)
Theorem interpolate_reproduces_samples (n : Z) (x y : list R) (j : Z) :
  Z.of_nat (length x) = n -> length y = length x -> (4 <= n)%Z -> increasing x ->
  (0 <= j <= n - 2)%Z ->
  interpolate n x y (fin (at_ x j)) = Returns (fin (at_ y j)).
Proof. exact (interpolate_node n x y j). Qed.

Lemma interpolate_reproduces_samples_witness :
  interpolate 5 five_x last_only (fin (at_ five_x 3)) = Returns (fin (at_ last_only 3)).
Proof.
  apply (interpolate_reproduces_samples 5 five_x last_only 3);
    [reflexivity | reflexivity | lia | exact five_x_increasing | lia].
Defined.

Lemma lincomb_length (a b : R) (y1 y2 : list R) :
  length y2 = length y1 -> length (lincomb a y1 b y2) = length y1.
Proof.
  intros Hy. unfold lincomb. rewrite length_map, length_combine, Hy. apply Nat.min_id.
Qed.

Lemma at_lincomb (a b : R) (y1 y2 : list R) (k : Z) :
  length y2 = length y1 -> (0 <= k < Z.of_nat (length y1))%Z ->
  at_ (lincomb a y1 b y2) k = a * at_ y1 k + b * at_ y2 k.
Proof.
  intros Hy Hk. unfold at_, lincomb.
  set (f := fun p : R * R => a * fst p + b * snd p).
  rewrite (nth_indep _ 0 (f (0, 0)))
    by (rewrite length_map, length_combine, Hy, Nat.min_id; lia).
  rewrite map_nth. rewrite combine_nth by (symmetry; exact Hy).
  reflexivity.
Qed.

Lemma cubic4_linear (x0 x1 x2 x3 p0 p1 p2 p3 q0 q1 q2 q3 a b v : R) :
  x0 < x1 -> x1 < x2 -> x2 < x3 ->
  cubic4 x0 x1 x2 x3 (a * p0 + b * q0) (a * p1 + b * q1)
         (a * p2 + b * q2) (a * p3 + b * q3) v
  = a * cubic4 x0 x1 x2 x3 p0 p1 p2 p3 v + b * cubic4 x0 x1 x2 x3 q0 q1 q2 q3 v.
Proof. intros. unfold cubic4. field. repeat split; lra. Qed.

(** X5: the window that [interpolate] uses depends on the arguments and on
    the query only, and the result is linear in the samples: on one
    increasing table of arguments, the interpolation of the combination
    [a y1 + b y2] of two tables of samples is the same combination of
    their interpolations. *)
Theorem interpolate_linear (n : Z) (x y1 y2 : list R) (a b v : R) :
  Z.of_nat (length x) = n -> length y1 = length x -> length y2 = length x ->
  (4 <= n)%Z -> increasing x ->
  exists r1 r2 : R,
    interpolate n x y1 (fin v) = Returns (fin r1) /\
    interpolate n x y2 (fin v) = Returns (fin r2) /\
    interpolate n x (lincomb a y1 b y2) (fin v) = Returns (fin (a * r1 + b * r2)).
Proof.
  intros Hn Hy1 Hy2 H4 Hx.
  destruct (scan_returns x v n Hn ltac:(lia)) as [i [flag E]].
  assert (length y2 = length y1) as Hy21 by congruence.
  assert (length (lincomb a y1 b y2) = length x) as Hyl
    by (rewrite lincomb_length; assumption).
  eexists. eexists.
  split; [exact (interpolate_after_scan n x y1 v i flag Hn Hy1 H4 Hx E) | ].
  split; [exact (interpolate_after_scan n x y2 v i flag Hn Hy2 H4 Hx E) | ].
  rewrite (interpolate_after_scan n x _ v i flag Hn Hyl H4 Hx E).
  do 2 f_equal. unfold window_value.
  assert (1 <= clamp n i <= n - 3)%Z as Hc by (unfold clamp; lia).
  rewrite !at_lincomb by (try exact Hy21; lia).
  apply cubic4_linear; apply increasing_at; try exact Hx; lia.
Qed.

Lemma interpolate_linear_witness :
  exists r1 r2 : R,
    interpolate 5 five_x first_only (fin 10) = Returns (fin r1) /\
    interpolate 5 five_x last_only (fin 10) = Returns (fin r2) /\
    interpolate 5 five_x (lincomb 2 first_only 3 last_only) (fin 10)
      = Returns (fin (2 * r1 + 3 * r2)).
Proof.
  apply (interpolate_linear 5 five_x first_only last_only 2 3 10);
    [reflexivity | reflexivity | reflexivity | lia | exact five_x_increasing].
Defined.

(** ** The tabulated dielectric functions *)

(** A query that is not finite stops the loop nowhere. *)
Lemma scan_nonfinite (x : list R) (i0 : Z) (steps : nat) :
  forall j : Z,
  (0 <= j)%Z -> (j + Z.of_nat steps <= Z.of_nat (length x))%Z ->
  scan x None steps j (i0, true) = Returns (i0, true).
Proof.
  induction steps as [ | steps IH]; intros j Hj Hn; [reflexivity | ].
  cbn [scan snd]. rewrite read_at by lia. cbn [bind].
  change (dgt (fin (at_ x j)) None) with false. cbv iota.
  apply IH; lia.
Qed.

Lemma interpolate_nonfinite (n : Z) (x y : list R) :
  Z.of_nat (length x) = n -> length y = length x -> (4 <= n)%Z ->
  interpolate n x y None = Returns None.
Proof.
  intros Hn Hy H4. unfold interpolate.
  rewrite scan_nonfinite by lia. cbn [bind fst]. cbv zeta.
  destruct (Z.ltb_spec (n - 3) INT_MIN) as [Hmin | _];
    [unfold INT_MIN in Hmin; lia | ].
  rewrite (clamp_code n 0).
  assert (1 <= clamp n 0 <= n - 3)%Z as Hc by (unfold clamp; lia).
  rewrite !read_at by lia. cbn [bind]. reflexivity.
Qed.

Lemma epsTable_returns_always (num : Z) (energy ndata kdata : list R)
    (msg : string) (lambda : double) :
  Z.of_nat (length energy) = num ->
  length ndata = length energy -> length kdata = length energy ->
  (4 <= num)%Z -> increasing energy ->
  exists z : complex, epsTable num energy ndata kdata msg lambda = Returns z.
Proof.
  intros Hn Hnd Hkd H4 Hx. unfold epsTable. cbv zeta.
  rewrite (out_of_range_never num energy _ Hn ltac:(lia) Hx). cbn [bind].
  destruct (ddiv (fin 1239.8) lambda) as [w | ].
  - destruct (scan_returns energy w num Hn ltac:(lia)) as [i [flag E]].
    change (Some w) with (fin w).
    rewrite (interpolate_after_scan num energy ndata w i flag Hn Hnd H4 Hx E).
    rewrite (interpolate_after_scan num energy kdata w i flag Hn Hkd H4 Hx E).
    cbn [bind]. eexists. reflexivity.
  - rewrite !interpolate_nonfinite by assumption.
    cbn [bind]. eexists. reflexivity.
Qed.

Lemma epsTable_returns_nonzero (num : Z) (energy ndata kdata : list R)
    (msg : string) (l : R) :
  Z.of_nat (length energy) = num ->
  length ndata = length energy -> length kdata = length energy ->
  (4 <= num)%Z -> increasing energy -> l <> 0 ->
  exists n k : R,
    interpolate num energy ndata (fin (1239.8 / l)) = Returns (fin n) /\
    interpolate num energy kdata (fin (1239.8 / l)) = Returns (fin k) /\
    epsTable num energy ndata kdata msg (fin l) = Returns (Some (permittivity n k)).
Proof.
  intros Hn Hnd Hkd H4 Hx Hl.
  destruct (scan_returns energy (1239.8 / l) num Hn ltac:(lia)) as [i [flag E]].
  pose proof (interpolate_after_scan num energy ndata _ i flag Hn Hnd H4 Hx E) as En.
  pose proof (interpolate_after_scan num energy kdata _ i flag Hn Hkd H4 Hx E) as Ek.
  eexists. eexists. split; [exact En | ]. split; [exact Ek | ].
  unfold epsTable. cbv zeta.
  rewrite ddiv_fin by exact Hl.
  rewrite (out_of_range_never num energy _ Hn ltac:(lia) Hx). cbn [bind].
  rewrite En, Ek.
  cbn [bind]. unfold permittivity.
  cbn [cplx c_mul_d c_add fin dmul dsub lift2 re im].
  apply f_equal, f_equal. apply (f_equal2 mkCx); nra.
Qed.

(** X6: [epsAg] and [epsAu] reject no input: whatever the wavelength is,
    zero, negative or not finite, they return: they neither exit nor read
    outside their tables. *)
Theorem eps_rejects_nothing (lambda : double) :
  (exists z : complex, epsAg lambda = Returns z) /\
  (exists z : complex, epsAu lambda = Returns z).
Proof.
  destruct Ag_sizes as [HnAg [HndAg HkdAg]]. destruct Au_sizes as [HnAu [HndAu HkdAu]].
  pose proof Ag_energy_increasing as HAg. pose proof Au_energy_increasing as HAu.
  assert (4 <= Ag.num)%Z as H4Ag by (unfold Ag.num; lia).
  assert (4 <= Au.num)%Z as H4Au by (unfold Au.num; lia).
  split; apply epsTable_returns_always; assumption.
Qed.

Lemma interpolate_before_second (n : Z) (x y : list R) (v : R) :
  Z.of_nat (length x) = n -> length y = length x -> (4 <= n)%Z -> increasing x ->
  v < at_ x 1 ->
  interpolate n x y (fin v) = Returns (fin (window_value x y 1 v)).
Proof.
  intros Hn Hy H4 Hx Hv.
  destruct (interpolate_window n x y v Hn Hy H4 Hx)
    as [i [Hi [E [[_ ->] | [[k [Hk [[Hv1 _] _]]] | [_ ->]]]]]].
  - exact E.
  - pose proof (increasing_at_le x 1 k Hx ltac:(lia) ltac:(lia)). lra.
  - exact E.
Qed.

Lemma epsTable_outside (num : Z) (energy ndata kdata : list R) (msg : string) (l : R) :
  Z.of_nat (length energy) = num ->
  length ndata = length energy -> length kdata = length energy ->
  (4 <= num)%Z -> increasing energy -> l <> 0 ->
  1239.8 / l < at_ energy 1 \/ at_ energy (num - 1) <= 1239.8 / l ->
  epsTable num energy ndata kdata msg (fin l) =
  Returns (Some (permittivity (window_value energy ndata 1 (1239.8 / l))
                              (window_value energy kdata 1 (1239.8 / l)))).
Proof.
  intros Hn Hnd Hkd H4 Hx Hl Hout.
  destruct (epsTable_returns_nonzero num energy ndata kdata msg l Hn Hnd Hkd H4 Hx Hl)
    as [n [k [En [Ek E]]]].
  assert (forall y, length y = length energy ->
            interpolate num energy y (fin (1239.8 / l))
            = Returns (fin (window_value energy y 1 (1239.8 / l)))) as Hw.
  { intros y Hy. destruct Hout as [Hlow | Hhigh].
    - apply interpolate_before_second; assumption.
    - apply interpolate_from_last; assumption. }
  rewrite (Hw ndata Hnd) in En. rewrite (Hw kdata Hkd) in Ek.
  injection En as <-. injection Ek as <-. exact E.
Qed.

(** X7: for a wavelength other than zero whose photon energy
    [1239.8/lambda] is below the second energy of the table (below the table,
    or negative, the wavelength being negative) or is the last energy of the
    table or more, [epsAg] and [epsAu] return the permittivity of the optical
    constants extrapolated by the cubic through the first four entries of
    the table. *)
Theorem eps_extrapolates_from_first_window (l : R) :
  l <> 0 ->
  (1239.8 / l < at_ Ag.energy 1 \/ at_ Ag.energy (Ag.num - 1) <= 1239.8 / l ->
   epsAg (fin l) =
   Returns (Some (permittivity (window_value Ag.energy Ag.ndata 1 (1239.8 / l))
                               (window_value Ag.energy Ag.kdata 1 (1239.8 / l))))) /\
  (1239.8 / l < at_ Au.energy 1 \/ at_ Au.energy (Au.num - 1) <= 1239.8 / l ->
   epsAu (fin l) =
   Returns (Some (permittivity (window_value Au.energy Au.ndata 1 (1239.8 / l))
                               (window_value Au.energy Au.kdata 1 (1239.8 / l))))).
Proof.
  intros Hl.
  destruct Ag_sizes as [HnAg [HndAg HkdAg]]. destruct Au_sizes as [HnAu [HndAu HkdAu]].
  split; intros Hout.
  - apply epsTable_outside; try assumption;
      [unfold Ag.num; lia | exact Ag_energy_increasing].
  - apply epsTable_outside; try assumption;
      [unfold Au.num; lia | exact Au_energy_increasing].
Qed.

Lemma eps_extrapolates_from_first_window_witness :
  -500 <> 0 /\
  1239.8 / -500 < at_ Ag.energy 1 /\
  epsAg (fin (-500)) =
  Returns (Some (permittivity (window_value Ag.energy Ag.ndata 1 (1239.8 / -500))
                              (window_value Ag.energy Ag.kdata 1 (1239.8 / -500)))).
Proof.
  assert (-500 <> 0) as Hl by lra.
  assert (1239.8 / -500 < at_ Ag.energy 1) as Hlow
    by (change (at_ Ag.energy 1) with 0.77; lra).
  split; [exact Hl | ]. split; [exact Hlow | ].
  exact (proj1 (eps_extrapolates_from_first_window (-500) Hl) (or_introl Hlow)).
Defined.

Lemma epsTable_at_node (num : Z) (energy ndata kdata : list R) (msg : string) (j : Z) :
  Z.of_nat (length energy) = num ->
  length ndata = length energy -> length kdata = length energy ->
  (4 <= num)%Z -> increasing energy -> 0 < at_ energy 0 ->
  (0 <= j <= num - 2)%Z ->
  epsTable num energy ndata kdata msg (fin (1239.8 / at_ energy j)) =
  Returns (Some (permittivity (at_ ndata j) (at_ kdata j))).
Proof.
  intros Hn Hnd Hkd H4 Hx H0 Hj.
  pose proof (increasing_at_le energy 0 j Hx ltac:(lia) ltac:(lia)) as He.
  assert (0 < 1239.8 / at_ energy j) as Hl by (apply Rdiv_lt_0_compat; lra).
  destruct (epsTable_returns_nonzero num energy ndata kdata msg _ Hn Hnd Hkd H4 Hx
              (Rgt_not_eq _ _ Hl)) as [n [k [En [Ek E]]]].
  replace (1239.8 / (1239.8 / at_ energy j)) with (at_ energy j) in En, Ek
    by (field; lra).
  rewrite (interpolate_node num energy ndata j Hn Hnd H4 Hx Hj) in En.
  rewrite (interpolate_node num energy kdata j Hn Hkd H4 Hx Hj) in Ek.
  injection En as <-. injection Ek as <-. exact E.
Qed.

(** X8: at the wavelength [1239.8/energy[j]] of a tabulated energy, the
    last entry of the table apart, [epsAg] and [epsAu] return the
    permittivity [(n^2 - k^2) + i 2 n k] of the tabulated optical constants
    [n = ndata[j]] and [k = kdata[j]] themselves. *)
Theorem eps_at_tabulated_energy (j : Z) :
  ((0 <= j <= Ag.num - 2)%Z ->
   epsAg (fin (1239.8 / at_ Ag.energy j)) =
   Returns (Some (mkCx (at_ Ag.ndata j * at_ Ag.ndata j - at_ Ag.kdata j * at_ Ag.kdata j)
                       (2 * at_ Ag.ndata j * at_ Ag.kdata j)))) /\
  ((0 <= j <= Au.num - 2)%Z ->
   epsAu (fin (1239.8 / at_ Au.energy j)) =
   Returns (Some (mkCx (at_ Au.ndata j * at_ Au.ndata j - at_ Au.kdata j * at_ Au.kdata j)
                       (2 * at_ Au.ndata j * at_ Au.kdata j)))).
Proof.
  destruct Ag_sizes as [HnAg [HndAg HkdAg]]. destruct Au_sizes as [HnAu [HndAu HkdAu]].
  split; intros Hj.
  - apply (epsTable_at_node Ag.num Ag.energy Ag.ndata Ag.kdata); try assumption;
      [unfold Ag.num; lia | exact Ag_energy_increasing
       | change (at_ Ag.energy 0) with 0.64; lra].
  - apply (epsTable_at_node Au.num Au.energy Au.ndata Au.kdata); try assumption;
      [unfold Au.num; lia | exact Au_energy_increasing
       | change (at_ Au.energy 0) with 0.0497329; lra].
Qed.

Lemma eps_at_tabulated_energy_witness :
  (0 <= 10 <= Ag.num - 2)%Z /\
  epsAg (fin (1239.8 / at_ Ag.energy 10)) =
  Returns (Some (mkCx (at_ Ag.ndata 10 * at_ Ag.ndata 10 - at_ Ag.kdata 10 * at_ Ag.kdata 10)
                      (2 * at_ Ag.ndata 10 * at_ Ag.kdata 10))).
Proof.
  assert (0 <= 10 <= Ag.num - 2)%Z as Hj by (unfold Ag.num; lia).
  split; [exact Hj | exact (proj1 (eps_at_tabulated_energy 10) Hj)].
Defined.

(** ** The size-dependent dielectric functions *)

Lemma div_le_div (n m p q : R) :
  0 < m -> 0 < q -> n * q <= p * m -> n / m <= p / q.
Proof.
  intros Hm Hq H.
  apply Rmult_le_reg_r with (m * q); [apply Rmult_lt_0_compat; assumption | ].
  replace (n / m * (m * q)) with (n * q) by (field; lra).
  replace (p / q * (m * q)) with (p * m) by (field; lra).
  exact H.
Qed.

Lemma drude_im (omega gamma : R) :
  0 < omega ->
  im (drude omega gamma) = - gamma / (omega * (omega * omega + gamma * gamma)).
Proof.
  intros Hw. unfold drude, Cinv. cbn [re im].
  assert (0 < omega * omega + gamma * gamma) by nra.
  assert (omega * omega * (omega * omega) + omega * gamma * (omega * gamma) <> 0).
  { replace (omega * omega * (omega * omega) + omega * gamma * (omega * gamma))
      with ((omega * omega) * (omega * omega + gamma * gamma)) by ring.
    apply Rmult_integral_contrapositive_currified; nra. }
  field. repeat split; lra.
Qed.

Lemma drude_re_diff (w a b : R) :
  0 < w ->
  re (drude w a) - re (drude w b)
  = (b - a) * (a + b) / ((w * w + a * a) * (w * w + b * b)).
Proof.
  intros Hw. rewrite !drude_re by exact Hw.
  assert (0 < w * w + a * a) by nra. assert (0 < w * w + b * b) by nra.
  field. split; lra.
Qed.

Lemma drude_im_diff (w a b : R) :
  0 < w ->
  im (drude w a) - im (drude w b)
  = (b - a) * (w * w - a * b) / (w * ((w * w + a * a) * (w * w + b * b))).
Proof.
  intros Hw. rewrite !drude_im by exact Hw.
  assert (0 < w * w + a * a) by nra. assert (0 < w * w + b * b) by nra.
  field. repeat split; lra.
Qed.

(** The two parts of the difference of two terms of Drude are at most
    [(b - a) / w^3] in absolute value. *)
Lemma drude_diff_bounds (w a b : R) :
  0 < w -> 0 <= a -> a <= b ->
  Rabs (re (drude w a) - re (drude w b)) <= (b - a) / w ^ 3 /\
  Rabs (im (drude w a) - im (drude w b)) <= (b - a) / w ^ 3.
Proof.
  intros Hw Ha Hab.
  assert (0 < w * w + a * a) as Hma by nra.
  assert (0 < w * w + b * b) as Hmb by nra.
  assert (0 < (w * w + a * a) * (w * w + b * b)) as Hm
    by (apply Rmult_lt_0_compat; assumption).
  assert (0 < w ^ 3) as Hw3 by (apply pow_lt; exact Hw).
  assert (0 <= b - a) as Hd by lra.
  assert (0 <= (w * w - a * w) * (w * w - a * w)) as Sa by apply Rle_0_sqr.
  assert (0 <= (w * w - b * w) * (w * w - b * w)) as Sb by apply Rle_0_sqr.
  assert (0 <= a * b) as Hab0 by (apply Rmult_le_pos; lra).
  assert (0 <= (a - b) * (a - b)) as Sab by apply Rle_0_sqr.
  split.
  - rewrite drude_re_diff by exact Hw.
    rewrite Rabs_pos_eq.
    + apply div_le_div; try assumption.
      replace ((b - a) * (a + b) * w ^ 3) with ((b - a) * ((a + b) * w ^ 3)) by ring.
      apply Rmult_le_compat_l; [exact Hd | ].
      replace ((a + b) * w ^ 3) with (a * w * (w * w) + b * w * (w * w)) by ring.
      nra.
    + apply Rmult_le_pos; [ | apply Rlt_le, Rinv_0_lt_compat; exact Hm].
      apply Rmult_le_pos; lra.
  - rewrite drude_im_diff by exact Hw.
    assert (0 < w * ((w * w + a * a) * (w * w + b * b))) as Hwm
      by (apply Rmult_lt_0_compat; assumption).
    assert (Rabs (w * w - a * b) * (w * w) <= (w * w + a * a) * (w * w + b * b)) as Hkey.
    { assert (0 <= a * a * (b * b)) by (apply Rmult_le_pos; nra).
      assert (0 <= w * w * (a * a + b * b)) by nra.
      unfold Rabs. destruct (Rcase_abs (w * w - a * b)); nra. }
    unfold Rdiv at 1. rewrite Rabs_mult, Rabs_mult.
    rewrite (Rabs_pos_eq (b - a)) by exact Hd.
    rewrite (Rabs_pos_eq (/ _)) by (apply Rlt_le, Rinv_0_lt_compat; exact Hwm).
    change ((b - a) * Rabs (w * w - a * b) * / (w * ((w * w + a * a) * (w * w + b * b))))
      with ((b - a) * Rabs (w * w - a * b) / (w * ((w * w + a * a) * (w * w + b * b)))).
    apply div_le_div; try assumption.
    replace ((b - a) * Rabs (w * w - a * b) * w ^ 3)
      with ((b - a) * (w * (Rabs (w * w - a * b) * (w * w)))) by ring.
    replace ((b - a) * (w * ((w * w + a * a) * (w * w + b * b))))
      with ((b - a) * (w * ((w * w + a * a) * (w * w + b * b)))) by ring.
    apply Rmult_le_compat_l; [exact Hd | ].
    apply Rmult_le_compat_l; [lra | exact Hkey].
Qed.

Lemma size_correction_bounds (wp w a b : R) :
  0 < w -> 0 <= a -> a <= b ->
  Rabs (re (size_correction wp w a b)) <= wp * wp * ((b - a) / w ^ 3) /\
  Rabs (im (size_correction wp w a b)) <= wp * wp * ((b - a) / w ^ 3).
Proof.
  intros Hw Ha Hab.
  destruct (drude_diff_bounds w a b Hw Ha Hab) as [Hre Him].
  assert (0 <= wp * wp) as Hp by apply Rle_0_sqr.
  unfold size_correction, Cscale, Csub. cbn [re im].
  split; rewrite Rabs_mult, (Rabs_pos_eq (wp * wp)) by exact Hp;
    apply Rmult_le_compat_l; assumption.
Qed.

Lemma gamma_r_gap (A vF lam_inf D : R) :
  D <> 0 ->
  gamma_r A vF lam_inf D - gamma_inf vF lam_inf = A * h_bar * vF * 1.0e7 * 2 / D.
Proof. intros HD. unfold gamma_r. field. exact HD. Qed.

Lemma gamma_r_decreasing (A vF lam_inf D1 D2 : R) :
  0 < A -> 0 < vF -> 0 < D1 -> D1 < D2 ->
  gamma_r A vF lam_inf D2 < gamma_r A vF lam_inf D1.
Proof.
  intros HA Hv HD1 HD.
  assert (0 < h_bar) by (unfold h_bar; lra).
  assert (0 < A * h_bar) by (apply Rmult_lt_0_compat; assumption).
  assert (0 < A * h_bar * vF) by (apply Rmult_lt_0_compat; assumption).
  assert (0 < A * h_bar * vF * 1.0e7) as Hc
    by (apply Rmult_lt_0_compat; [assumption | lra]).
  assert (2 / D2 < 2 / D1) as Hinv.
  { unfold Rdiv. apply Rmult_lt_compat_l; [lra | ].
    apply Rinv_lt_contravar; [apply Rmult_lt_0_compat; lra | exact HD]. }
  unfold gamma_r.
  apply Rplus_lt_compat_l. apply Rmult_lt_compat_l; assumption.
Qed.

(** The size correction of a material of constants [(vF, lam_inf, omega_p, A)]
    at the photon energy [w] and the diameter [D]. *)
Lemma correction_facts (wp A vF lam_inf w D1 D2 : R) :
  0 < wp -> 0 < A -> 0 < vF -> 0 < lam_inf -> 0 < w -> 0 < D1 -> D1 <= D2 ->
  let a := gamma_inf vF lam_inf in
  let c1 := size_correction wp w a (gamma_r A vF lam_inf D1) in
  let c2 := size_correction wp w a (gamma_r A vF lam_inf D2) in
  (D1 < D2 -> re c2 < re c1) /\
  (0 < im c1 <-> a * gamma_r A vF lam_inf D1 < w * w) /\
  Rabs (re c1) <= correction_bound wp A vF w / D1 /\
  Rabs (im c1) <= correction_bound wp A vF w / D1.
Proof.
  intros Hp HA Hv Hlam Hw HD1 HD. cbv zeta.
  pose proof (gamma_inf_pos vF lam_inf Hv Hlam) as Ha.
  pose proof (gamma_r_above A vF lam_inf D1 HA Hv HD1) as Hb1.
  assert (0 < wp * wp) as Hpp by (apply Rmult_lt_0_compat; assumption).
  split; [ | split].
  - intros HD12.
    pose proof (gamma_r_above A vF lam_inf D2 HA Hv ltac:(lra)) as Hb2.
    pose proof (gamma_r_decreasing A vF lam_inf D1 D2 HA Hv HD1 HD12) as Hdec.
    pose proof (drude_re_decreasing w _ _ Hw
                  (conj (Rlt_le _ _ (Rlt_trans _ _ _ Ha Hb2)) Hdec)) as Hre.
    unfold size_correction, Cscale, Csub. cbn [re].
    apply Rmult_lt_compat_l; [exact Hpp | lra].
  - unfold size_correction, Cscale, Csub. cbn [im].
    rewrite drude_im_diff by exact Hw.
    set (a := gamma_inf vF lam_inf) in *. set (b := gamma_r A vF lam_inf D1) in *.
    clearbody a b.
    assert (0 < w * ((w * w + a * a) * (w * w + b * b))) as Hm.
    { apply Rmult_lt_0_compat; [exact Hw | ]. apply Rmult_lt_0_compat; nra. }
    assert (0 < / (w * ((w * w + a * a) * (w * w + b * b)))) as Hi
      by (apply Rinv_0_lt_compat; exact Hm).
    unfold Rdiv.
    set (m := / (w * ((w * w + a * a) * (w * w + b * b)))) in *. clearbody m.
    assert (0 < wp * wp * ((b - a) * m)) as Hk
      by (apply Rmult_lt_0_compat; [exact Hpp | apply Rmult_lt_0_compat; lra]).
    replace (wp * wp * ((b - a) * (w * w - a * b) * m))
      with (wp * wp * ((b - a) * m) * (w * w - a * b)) by ring.
    set (k := wp * wp * ((b - a) * m)) in *. clearbody k.
    split; intros Hs.
    + destruct (Rlt_le_dec (a * b) (w * w)) as [ | Hge]; [assumption | exfalso].
      assert (k * (w * w - a * b) <= 0); [ | lra].
      replace (k * (w * w - a * b)) with (- (k * (a * b - w * w))) by ring.
      assert (0 <= k * (a * b - w * w)) by (apply Rmult_le_pos; lra). lra.
    + apply Rmult_lt_0_compat; lra.
  - destruct (size_correction_bounds wp w _ _ Hw (Rlt_le _ _ Ha) (Rlt_le _ _ Hb1))
      as [Hre Him].
    rewrite gamma_r_gap in Hre, Him by lra.
    assert (0 < w ^ 3) by (apply pow_lt; exact Hw).
    assert (wp * wp * (A * h_bar * vF * 1.0e7 * 2 / D1 / w ^ 3)
            = correction_bound wp A vF w / D1) as Heq
      by (unfold correction_bound; field; split; lra).
    rewrite Heq in Hre, Him. split; assumption.
Qed.

Lemma correction_bound_pos (wp A vF w : R) :
  0 < wp -> 0 < A -> 0 < vF -> 0 < w -> 0 < correction_bound wp A vF w.
Proof.
  intros Hp HA Hv Hw. unfold correction_bound.
  assert (0 < h_bar) by (unfold h_bar; lra).
  assert (0 < w ^ 3) by (apply pow_lt; exact Hw).
  assert (0 < A * h_bar) by (apply Rmult_lt_0_compat; assumption).
  assert (0 < A * h_bar * vF) by (apply Rmult_lt_0_compat; assumption).
  assert (0 < A * h_bar * vF * 1.0e7) by (apply Rmult_lt_0_compat; [assumption | lra]).
  assert (0 < wp * wp) by (apply Rmult_lt_0_compat; assumption).
  apply Rdiv_lt_0_compat; [ | assumption].
  apply Rmult_lt_0_compat; [assumption | lra].
Qed.

Lemma bound_vanishes (K eps D : R) :
  0 < K -> 0 < eps -> K / eps < D -> 0 < D /\ K / D < eps.
Proof.
  intros HK He HD.
  assert (0 < K / eps) by (apply Rdiv_lt_0_compat; assumption).
  assert (0 < D) as HD0 by lra.
  split; [exact HD0 | ].
  apply Rmult_lt_reg_r with D; [exact HD0 | ].
  replace (K / D * D) with K by (field; lra).
  apply Rmult_lt_compat_l with (r := eps) in HD; [ | exact He].
  replace (eps * (K / eps)) with K in HD by (field; lra). exact HD.
Qed.

(** X9: at a positive wavelength the real part of the size-dependent
    permittivity does not grow with the diameter: the larger particle has
    the real part that is not the larger one; for silver and for gold. *)
Theorem size_correction_monotone_in_diameter (l D1 D2 : R) :
  0 < l -> 0 < D1 -> D1 <= D2 ->
  (exists z1 z2 : Cx,
     epsAgSD (fin l) (fin D1) = Returns (Some z1) /\
     epsAgSD (fin l) (fin D2) = Returns (Some z2) /\ re z2 <= re z1) /\
  (exists z1 z2 : Cx,
     epsAuSD (fin l) (fin D1) = Returns (Some z1) /\
     epsAuSD (fin l) (fin D2) = Returns (Some z2) /\ re z2 <= re z1).
Proof.
  intros Hl HD1 HD.
  assert (0 < 1239.8 / l) as Hw by (apply Rdiv_lt_0_compat; lra).
  split.
  - destruct (epsAg_returns l Hl) as [n [k [_ [_ E]]]].
    eexists. eexists.
    split; [exact (epsAgSD_eq l D1 _ Hl HD1 E) | ].
    split; [exact (epsAgSD_eq l D2 _ Hl ltac:(lra) E) | ].
    destruct (correction_facts 9.1 2.5 1.39e8 5.2e-6 (1239.8 / l) D1 D2
                ltac:(lra) ltac:(lra) ltac:(lra) ltac:(lra) Hw HD1 ltac:(lra))
      as [Hdec _].
    unfold Cadd. cbn [re].
    destruct (Rle_lt_or_eq_dec D1 D2 HD) as [Hlt | Heq];
      [pose proof (Hdec Hlt); lra | subst D2; lra].
  - destruct (epsAu_returns l Hl) as [n [k [_ [_ E]]]].
    eexists. eexists.
    split; [exact (epsAuSD_eq l D1 _ Hl HD1 E) | ].
    split; [exact (epsAuSD_eq l D2 _ Hl ltac:(lra) E) | ].
    destruct (correction_facts 9.0 2.0 1.38e8 1.28e-6 (1239.8 / l) D1 D2
                ltac:(lra) ltac:(lra) ltac:(lra) ltac:(lra) Hw HD1 ltac:(lra))
      as [Hdec _].
    unfold Cadd. cbn [re].
    destruct (Rle_lt_or_eq_dec D1 D2 HD) as [Hlt | Heq];
      [pose proof (Hdec Hlt); lra | subst D2; lra].
Qed.

Lemma size_correction_monotone_in_diameter_witness :
  0 < 500 /\ 0 < 10 /\ 10 <= 30 /\
  exists z1 z2 : Cx,
    epsAgSD (fin 500) (fin 10) = Returns (Some z1) /\
    epsAgSD (fin 500) (fin 30) = Returns (Some z2) /\ re z2 <= re z1.
Proof.
  assert (0 < 500) as Hl by lra. assert (0 < 10) as H1 by lra.
  assert (10 <= 30) as H2 by lra.
  split; [exact Hl | ]. split; [exact H1 | ]. split; [exact H2 | ].
  exact (proj1 (size_correction_monotone_in_diameter 500 10 30 Hl H1 H2)).
Defined.

(** X11: the size correction vanishes for large particles: at a positive
    wavelength and a positive diameter [D] the real and the imaginary part
    of the size-dependent permittivity differ from those of the tabulated
    one by at most [omega_p^2 (2 A h_bar v_F 1.0e7) / omega^3 / D], so that
    [epsAgSD] and [epsAuSD] tend to [epsAg] and [epsAu] as [D] grows. *)
Theorem size_correction_vanishes (l D : R) :
  0 < l -> 0 < D ->
  (exists z zsd : Cx,
     epsAg (fin l) = Returns (Some z) /\
     epsAgSD (fin l) (fin D) = Returns (Some zsd) /\
     Rabs (re zsd - re z) <= correction_bound 9.1 2.5 1.39e8 (1239.8 / l) / D /\
     Rabs (im zsd - im z) <= correction_bound 9.1 2.5 1.39e8 (1239.8 / l) / D) /\
  (exists z zsd : Cx,
     epsAu (fin l) = Returns (Some z) /\
     epsAuSD (fin l) (fin D) = Returns (Some zsd) /\
     Rabs (re zsd - re z) <= correction_bound 9.0 2.0 1.38e8 (1239.8 / l) / D /\
     Rabs (im zsd - im z) <= correction_bound 9.0 2.0 1.38e8 (1239.8 / l) / D) /\
  (forall eps : R, 0 < eps ->
     exists D0 : R, forall D' : R, D0 < D' ->
       correction_bound 9.1 2.5 1.39e8 (1239.8 / l) / D' < eps /\
       correction_bound 9.0 2.0 1.38e8 (1239.8 / l) / D' < eps).
Proof.
  intros Hl HD.
  assert (0 < 1239.8 / l) as Hw by (apply Rdiv_lt_0_compat; lra).
  split; [ | split].
  - destruct (epsAg_returns l Hl) as [n [k [_ [_ E]]]].
    eexists. eexists. split; [exact E | ].
    split; [exact (epsAgSD_eq l D _ Hl HD E) | ].
    destruct (correction_facts 9.1 2.5 1.39e8 5.2e-6 (1239.8 / l) D D
                ltac:(lra) ltac:(lra) ltac:(lra) ltac:(lra) Hw HD ltac:(lra))
      as [_ [_ [Hre Him]]].
    unfold Cadd. cbn [re im].
    split; [ | ]; match goal with
                  | |- Rabs (?a + ?c - ?a) <= _ => replace (a + c - a) with c by ring
                  end; assumption.
  - destruct (epsAu_returns l Hl) as [n [k [_ [_ E]]]].
    eexists. eexists. split; [exact E | ].
    split; [exact (epsAuSD_eq l D _ Hl HD E) | ].
    destruct (correction_facts 9.0 2.0 1.38e8 1.28e-6 (1239.8 / l) D D
                ltac:(lra) ltac:(lra) ltac:(lra) ltac:(lra) Hw HD ltac:(lra))
      as [_ [_ [Hre Him]]].
    unfold Cadd. cbn [re im].
    split; [ | ]; match goal with
                  | |- Rabs (?a + ?c - ?a) <= _ => replace (a + c - a) with c by ring
                  end; assumption.
  - intros eps He.
    pose proof (correction_bound_pos 9.1 2.5 1.39e8 (1239.8 / l)
                  ltac:(lra) ltac:(lra) ltac:(lra) Hw) as HKAg.
    pose proof (correction_bound_pos 9.0 2.0 1.38e8 (1239.8 / l)
                  ltac:(lra) ltac:(lra) ltac:(lra) Hw) as HKAu.
    exists (Rmax (correction_bound 9.1 2.5 1.39e8 (1239.8 / l) / eps)
                 (correction_bound 9.0 2.0 1.38e8 (1239.8 / l) / eps)).
    intros D' HD'.
    pose proof (Rmax_l (correction_bound 9.1 2.5 1.39e8 (1239.8 / l) / eps)
                       (correction_bound 9.0 2.0 1.38e8 (1239.8 / l) / eps)).
    pose proof (Rmax_r (correction_bound 9.1 2.5 1.39e8 (1239.8 / l) / eps)
                       (correction_bound 9.0 2.0 1.38e8 (1239.8 / l) / eps)).
    split.
    + exact (proj2 (bound_vanishes _ eps D' HKAg He ltac:(lra))).
    + exact (proj2 (bound_vanishes _ eps D' HKAu He ltac:(lra))).
Qed.

Lemma size_correction_vanishes_witness :
  0 < 500 /\ 0 < 30 /\
  exists z zsd : Cx,
    epsAg (fin 500) = Returns (Some z) /\
    epsAgSD (fin 500) (fin 30) = Returns (Some zsd) /\
    Rabs (re zsd - re z) <= correction_bound 9.1 2.5 1.39e8 (1239.8 / 500) / 30 /\
    Rabs (im zsd - im z) <= correction_bound 9.1 2.5 1.39e8 (1239.8 / 500) / 30.
Proof.
  assert (0 < 500) as Hl by lra. assert (0 < 30) as HD by lra.
  split; [exact Hl | ]. split; [exact HD | ].
  exact (proj1 (size_correction_vanishes 500 30 Hl HD)).
Defined.

(** ** The polarizability and the cross sections under a change of scale *)

Lemma beta_fit_scale (t L H Rc : R) :
  0 < t -> 0 < H -> 0 < Rc -> beta_fit (t * L) (t * H) (t * Rc) = beta_fit L H Rc.
Proof.
  intros Ht HH HR. unfold beta_fit.
  replace (t * L / (t * H)) with (L / H) by (field; lra).
  replace (t * L / (t * Rc)) with (L / Rc) by (field; lra).
  replace (t * H / (t * Rc)) with (H / Rc) by (field; lra).
  reflexivity.
Qed.

Lemma eps_c_fit_scale (t L H Rc : R) :
  0 < t -> 0 < H -> 0 < Rc -> eps_c_fit (t * L) (t * H) (t * Rc) = eps_c_fit L H Rc.
Proof.
  intros Ht HH HR. unfold eps_c_fit.
  replace (t * L / (t * H)) with (L / H) by (field; lra).
  replace (t * L / (t * Rc)) with (L / Rc) by (field; lra).
  replace (t * H / (t * Rc)) with (H / Rc) by (field; lra).
  reflexivity.
Qed.

Lemma a2_fit_scale (t L H Rc : R) :
  0 < t -> 0 < H -> 0 < Rc -> a2_fit (t * L) (t * H) (t * Rc) = a2_fit L H Rc.
Proof.
  intros Ht HH HR. unfold a2_fit.
  replace (t * L / (t * H)) with (L / H) by (field; lra).
  replace (t * L / (t * Rc)) with (L / Rc) by (field; lra).
  replace (t * H / (t * Rc)) with (H / Rc) by (field; lra).
  reflexivity.
Qed.

Lemma a4_fit_scale (t L H Rc : R) :
  0 < t -> 0 < H -> 0 < Rc -> a4_fit (t * L) (t * H) (t * Rc) = a4_fit L H Rc.
Proof.
  intros Ht HH HR. unfold a4_fit.
  replace (t * L / (t * H)) with (L / H) by (field; lra).
  replace (t * L / (t * Rc)) with (L / Rc) by (field; lra).
  replace (t * H / (t * Rc)) with (H / Rc) by (field; lra).
  reflexivity.
Qed.

Lemma c_div_scale (t x : R) (w : complex) :
  c_div (Some (ofR (t * x))) w = c_mul_d (c_div (Some (ofR x)) w) (fin t).
Proof.
  destruct w as [w | ]; [ | reflexivity].
  unfold c_div, ofR. cbn [re im].
  destruct (Req_dec_T (re w * re w + im w * im w) 0) as [ | Hw]; [reflexivity | ].
  cbn [c_mul_d fin re im]. apply f_equal. apply (f_equal2 mkCx); field; exact Hw.
Qed.

Lemma alpha_spec_scale (t l eh L H Rc : R) (em : Cx) :
  0 < t -> 0 < l -> 0 < L -> 0 < H -> 0 < Rc ->
  alpha_spec (t * l) em eh (t * L) (t * H) (t * Rc)
  = c_mul_d (alpha_spec l em eh L H Rc) (fin (t ^ 3)).
Proof.
  intros Ht Hl HL HH HR. unfold alpha_spec. cbv zeta.
  pose proof PI_RGT_0 as Hpi.
  assert (corrected_volume (t * L) (t * H) (t * Rc) = t ^ 3 * corrected_volume L H Rc) as HV.
  { unfold corrected_volume, prism_volume. rewrite beta_fit_scale by assumption. ring. }
  assert (size_parameter (t * l) eh (t * L) = size_parameter l eh L) as Hs
    by (unfold size_parameter; field; lra).
  rewrite eps_c_fit_scale, a2_fit_scale, a4_fit_scale, Hs, HV by assumption.
  assert (Arc_spec (size_parameter l eh L) (a2_fit L H Rc) (a4_fit L H Rc)
                   (t ^ 3 * corrected_volume L H Rc) (t * L)
          = Arc_spec (size_parameter l eh L) (a2_fit L H Rc) (a4_fit L H Rc)
                     (corrected_volume L H Rc) L) as ->.
  { unfold Arc_spec, Cadd, Cmul, ofR. cbn [re im].
    apply (f_equal2 mkCx); field; lra. }
  replace (1 / (4 * PI) * (t ^ 3 * corrected_volume L H Rc))
    with (t ^ 3 * (1 / (4 * PI) * corrected_volume L H Rc)) by (field; lra).
  apply c_div_scale.
Qed.

Lemma dipPolariz_scale_aux (t l eh L H Rc : R) (em : Cx) :
  0 < t -> 0 < l -> 0 < eh -> 0 < L -> 0 < H -> 0 < Rc ->
  dipPolariz (fin (t * l)) (Some em) (fin eh) (fin (t * L)) (fin (t * H)) (fin (t * Rc))
  = c_mul_d (dipPolariz (fin l) (Some em) (fin eh) (fin L) (fin H) (fin Rc)) (fin (t ^ 3)).
Proof.
  intros Ht Hl Heh HL HH HR.
  rewrite !dipPolariz_formula_aux
    by (try assumption; apply Rmult_lt_0_compat; assumption).
  apply alpha_spec_scale; assumption.
Qed.

(** X12: the polarizability is a volume: with every length (the
    wavelength, the edge, the thickness and the corner radius) multiplied
    by [t > 0], [dipPolariz] returns [t^3] times as much. *)
Theorem dipPolariz_scale (t l eh L H Rc : R) (em : Cx) :
  0 < t -> 0 < l -> 0 < eh -> 0 < L -> 0 < H -> 0 < Rc ->
  dipPolariz (fin (t * l)) (Some em) (fin eh) (fin (t * L)) (fin (t * H)) (fin (t * Rc))
  = (dipPolariz (fin l) (Some em) (fin eh) (fin L) (fin H) (fin Rc) |* fin (t ^ 3))%D.
Proof. exact (dipPolariz_scale_aux t l eh L H Rc em). Qed.

Lemma dipPolariz_scale_witness :
  dipPolariz (fin (2 * 500)) (Some (mkCx (-10) 1)) (fin 1)
             (fin (2 * 50)) (fin (2 * 20)) (fin (2 * 2))
  = (dipPolariz (fin 500) (Some (mkCx (-10) 1)) (fin 1) (fin 50) (fin 20) (fin 2)
     |* fin (2 ^ 3))%D.
Proof.
  apply (dipPolariz_scale 2 500 1 50 20 2 (mkCx (-10) 1)); lra.
Defined.

Lemma Cmod_sqr (z : Cx) : Cmod z ^ 2 = re z * re z + im z * im z.
Proof.
  unfold Cmod. rewrite pow2_sqrt; [reflexivity | ].
  pose proof (Rle_0_sqr (re z)). pose proof (Rle_0_sqr (im z)). unfold Rsqr in *. lra.
Qed.

Lemma wavenumber_scale (t l eh : R) :
  0 < t -> 0 < l -> wavenumber (t * l) eh = wavenumber l eh / t.
Proof. intros Ht Hl. unfold wavenumber. field. lra. Qed.

(** X13: the cross sections are areas: with every length multiplied by
    [t > 0], [scatCSdip] and [extCSdip] return [t^2] times as much. *)
Theorem cross_sections_scale (t l eh L H Rc : R) (em : Cx) :
  0 < t -> 0 < l -> 0 < eh -> 0 < L -> 0 < H -> 0 < Rc ->
  scatCSdip (fin (t * l)) (Some em) (fin eh) (fin (t * L)) (fin (t * H)) (fin (t * Rc))
  = (scatCSdip (fin l) (Some em) (fin eh) (fin L) (fin H) (fin Rc) * fin (t ^ 2))%D /\
  extCSdip (fin (t * l)) (Some em) (fin eh) (fin (t * L)) (fin (t * H)) (fin (t * Rc))
  = (extCSdip (fin l) (Some em) (fin eh) (fin L) (fin H) (fin Rc) * fin (t ^ 2))%D.
Proof.
  intros Ht Hl Heh HL HH HR.
  assert (0 < t * l) as Htl by (apply Rmult_lt_0_compat; assumption).
  rewrite !scatCSdip_eval, !extCSdip_eval by assumption.
  rewrite dipPolariz_scale_aux by assumption.
  rewrite wavenumber_scale by assumption.
  destruct (dipPolariz (fin l) (Some em) (fin eh) (fin L) (fin H) (fin Rc))
    as [alpha | ]; [ | split; reflexivity].
  cbn [c_mul_d fin dmul lift2]. rewrite !Cmod_sqr. cbn [re im].
  split; apply f_equal; field; lra.
Qed.

Lemma cross_sections_scale_witness :
  scatCSdip (fin (2 * 500)) (Some (mkCx (-10) 1)) (fin 1)
            (fin (2 * 50)) (fin (2 * 20)) (fin (2 * 2))
  = (scatCSdip (fin 500) (Some (mkCx (-10) 1)) (fin 1) (fin 50) (fin 20) (fin 2)
     * fin (2 ^ 2))%D /\
  extCSdip (fin (2 * 500)) (Some (mkCx (-10) 1)) (fin 1)
           (fin (2 * 50)) (fin (2 * 20)) (fin (2 * 2))
  = (extCSdip (fin 500) (Some (mkCx (-10) 1)) (fin 1) (fin 50) (fin 20) (fin 2)
     * fin (2 ^ 2))%D.
Proof.
  apply (cross_sections_scale 2 500 1 50 20 2 (mkCx (-10) 1)); lra.
Defined.

(** ** Extinction, scattering and absorption *)

Lemma Cnorm2_quot_real (x : R) (w : Cx) :
  Cnorm2 w <> 0 ->
  re (Cquot (ofR x) w) * re (Cquot (ofR x) w) + im (Cquot (ofR x) w) * im (Cquot (ofR x) w)
  = x * x / Cnorm2 w.
Proof.
  intros Hw. unfold Cquot, Cnorm2, ofR in *. cbn [re im]. field. exact Hw.
Qed.

(** The extinction cross section is the scattering cross section plus a
    term in the imaginary part of the permittivity of the material. *)
Lemma extinction_minus_scattering (l eh L H Rc : R) (em : Cx) :
  0 < l -> 0 < eh -> 0 < L -> 0 < H -> 0 < Rc ->
  Cnorm2 (contrast em eh) <> 0 ->
  eps_c_fit L H Rc <> 1 ->
  Cnorm2 (polariz_den l em eh L H Rc) <> 0 ->
  exists vs ve : R,
    scatCSdip (fin l) (Some em) (fin eh) (fin L) (fin H) (fin Rc) = fin vs /\
    extCSdip (fin l) (Some em) (fin eh) (fin L) (fin H) (fin Rc) = fin ve /\
    ve - vs = 4 * PI * wavenumber l eh * 1e-14
              * (1 / (4 * PI) * corrected_volume L H Rc)
              * (im em / eh / Cnorm2 (contrast em eh))
              / Cnorm2 (polariz_den l em eh L H Rc).
Proof.
  intros Hl Heh HL HH HR Hz Hc Hden.
  rewrite scatCSdip_eval, extCSdip_eval by assumption.
  rewrite (dipPolariz_finite l eh L H Rc em) by assumption.
  eexists. eexists. split; [reflexivity | ]. split; [reflexivity | ].
  rewrite Cmod_sqr, Cnorm2_quot_real by exact Hden.
  rewrite im_quot_real, polariz_den_im by exact Heh.
  pose proof PI_RGT_0 as Hpi.
  unfold wavenumber, size_parameter.
  set (N := Cnorm2 (polariz_den l em eh L H Rc)) in *.
  set (Nz := Cnorm2 (contrast em eh)) in *.
  set (V1 := corrected_volume L H Rc).
  set (r := sqrt eh).
  clearbody N Nz V1 r.
  field. repeat split; lra.
Qed.

(** X14: for positive wavelength, host permittivity and geometry, a
    material that does not gain energy ([Im eps_m >= 0]), a positive fitted
    factor [beta], [eps_m] other than [eps_h] and [eps_c] other than 1, the
    extinction cross section is at least the scattering cross section; the
    two are equal when the permittivity of the material is real (nothing
    is absorbed), and extinction is the larger when its imaginary part is
    positive. *)
Theorem extinction_at_least_scattering (l eh L H Rc : R) (em : Cx) :
  0 < l -> 0 < eh -> 0 < L -> 0 < H -> 0 < Rc ->
  0 <= im em -> 0 < beta_fit L H Rc ->
  re em <> eh \/ im em <> 0 -> eps_c_fit L H Rc <> 1 ->
  exists vs ve : R,
    scatCSdip (fin l) (Some em) (fin eh) (fin L) (fin H) (fin Rc) = fin vs /\
    extCSdip (fin l) (Some em) (fin eh) (fin L) (fin H) (fin Rc) = fin ve /\
    vs <= ve /\ (im em = 0 -> ve = vs) /\ (0 < im em -> vs < ve).
Proof.
  intros Hl Heh HL HH HR Hem Hb Hne Hc.
  pose proof (contrast_nonzero em eh Heh Hne) as Hz.
  pose proof (polariz_den_im_neg l eh L H Rc em Hl Heh HL HH HR Hem Hb Hz) as Hd.
  assert (Cnorm2 (polariz_den l em eh L H Rc) <> 0) as Hden by (apply Cnorm2_im; lra).
  destruct (extinction_minus_scattering l eh L H Rc em Hl Heh HL HH HR Hz Hc Hden)
    as [vs [ve [Es [Ee Hdiff]]]].
  exists vs, ve. split; [exact Es | ]. split; [exact Ee | ].
  pose proof (Cnorm2_pos _ Hz) as HNz. pose proof (Cnorm2_pos _ Hden) as HN.
  pose proof (wavenumber_pos l eh Hl Heh) as Hk.
  pose proof (prism_volume_pos L H HL HH) as HV0.
  pose proof PI_RGT_0 as Hpi.
  assert (0 < 4 * PI * wavenumber l eh * 1e-14
              * (1 / (4 * PI) * corrected_volume L H Rc)) as Hfac.
  { unfold corrected_volume.
    assert (0 < prism_volume L H * beta_fit L H Rc)
      by (apply Rmult_lt_0_compat; assumption).
    assert (0 < 1 / (4 * PI)) by pos.
    assert (0 < 4 * PI * wavenumber l eh) by pos.
    apply Rmult_lt_0_compat; [ | apply Rmult_lt_0_compat; assumption].
    apply Rmult_lt_0_compat; [assumption | lra]. }
  set (f := 4 * PI * wavenumber l eh * 1e-14
            * (1 / (4 * PI) * corrected_volume L H Rc)) in *.
  set (Nz := Cnorm2 (contrast em eh)) in *.
  set (N := Cnorm2 (polariz_den l em eh L H Rc)) in *.
  clearbody f Nz N.
  assert (ve - vs = im em * (f / eh / Nz / N)) as Hdiff'
    by (rewrite Hdiff; field; repeat split; lra).
  assert (0 < f / eh / Nz / N) as Hg
    by (repeat apply Rdiv_lt_0_compat; assumption).
  set (g := f / eh / Nz / N) in *.
  clearbody g.
  split; [ | split].
  - assert (0 <= im em * g) by (apply Rmult_le_pos; lra). lra.
  - intros E0. rewrite E0 in Hdiff'. lra.
  - intros Hpos. assert (0 < im em * g) by (apply Rmult_lt_0_compat; assumption). lra.
Qed.

Lemma extinction_at_least_scattering_witness :
  0 < 500 /\ 0 <= im (mkCx (-10) 1) /\ 0 < beta_fit 1 1 1 /\ eps_c_fit 1 1 1 <> 1 /\
  exists vs ve : R,
    scatCSdip (fin 500) (Some (mkCx (-10) 1)) (fin 1) (fin 1) (fin 1) (fin 1) = fin vs /\
    extCSdip (fin 500) (Some (mkCx (-10) 1)) (fin 1) (fin 1) (fin 1) (fin 1) = fin ve /\
    vs <= ve /\ (im (mkCx (-10) 1) = 0 -> ve = vs) /\ (0 < im (mkCx (-10) 1) -> vs < ve).
Proof.
  assert (forall y, Rpower (1 / 1) y = 1) as Hp1.
  { intros y. unfold Rpower. replace (1 / 1) with 1 by lra.
    rewrite ln_1, Rmult_0_r. apply exp_0. }
  assert (0 < 500) as Hl by lra.
  assert (0 <= im (mkCx (-10) 1)) as Hem by (cbn [im]; lra).
  assert (0 < beta_fit 1 1 1) as Hb by (unfold beta_fit; rewrite !Hp1; lra).
  assert (eps_c_fit 1 1 1 <> 1) as Hc by (unfold eps_c_fit; rewrite !Hp1; lra).
  split; [exact Hl | ]. split; [exact Hem | ]. split; [exact Hb | ]. split; [exact Hc | ].
  apply (extinction_at_least_scattering 500 1 1 1 1 (mkCx (-10) 1));
    try assumption; try lra.
  right. cbn [im]. lra.
Defined.

(** ** The diameter under a change of scale and at the edge of its domain *)

Lemma cube_root_scale (t q : R) :
  0 < t -> 0 < q -> cube_root (t ^ 3 * q) = t * cube_root q.
Proof.
  intros Ht Hq. unfold cube_root.
  rewrite <- Rpower_mult_distr by (try apply pow_lt; assumption).
  fold (cube_root (t ^ 3)). rewrite cube_root_of_cube by exact Ht. reflexivity.
Qed.

(** X15: the diameter is a length: with the edge and the thickness
    multiplied by [t > 0], [diameter] returns [t] times as much. *)
Theorem diameter_scale (t L H : R) :
  0 < t -> 0 < L -> 0 < H ->
  diameter (fin (t * L)) (fin (t * H)) = (fin t * diameter (fin L) (fin H))%D.
Proof.
  intros Ht HL HH.
  rewrite !diameter_eval by (try assumption; apply Rmult_lt_0_compat; assumption).
  cbn [dmul lift2 fin]. apply f_equal.
  unfold sphere_diameter.
  pose proof PI_RGT_0 as Hpi.
  pose proof (prism_volume_pos L H HL HH) as HV.
  replace (3 * prism_volume (t * L) (t * H) / (4 * PI))
    with (t ^ 3 * (3 * prism_volume L H / (4 * PI)))
    by (unfold prism_volume; field; lra).
  rewrite cube_root_scale by (try assumption; pos).
  ring.
Qed.

Lemma diameter_scale_witness :
  diameter (fin (2 * 50)) (fin (2 * 20)) = (fin 2 * diameter (fin 50) (fin 20))%D.
Proof. apply (diameter_scale 2 50 20); lra. Defined.

Lemma third_not_integer : IZR (Int_part (1.0 / 3.0)) <> 1.0 / 3.0.
Proof.
  intros E.
  assert (IZR (3 * Int_part (1.0 / 3.0)) = IZR 1) as E3
    by (rewrite mult_IZR, E; lra).
  apply eq_IZR in E3. lia.
Qed.

(** X16: [diameter] at the edge of its domain: it returns 0 when the edge
    or the thickness is 0, and it returns no number (the power [1.0/3.0] of
    a negative number) when the thickness is negative and the edge is not
    0. *)
Theorem diameter_degenerate (L H : R) :
  (L = 0 \/ H = 0 -> diameter (fin L) (fin H) = fin 0) /\
  (L <> 0 -> H < 0 -> diameter (fin L) (fin H) = None).
Proof.
  pose proof PI_RGT_0 as Hpi.
  assert (0 < sqrt 3.0) as Hs by (apply sqrt_lt_R0; lra).
  assert (diameter (fin L) (fin H)
          = (2.0 * dpow (fin (3.0 * sqrt 3.0 * L * L * H / (16.0 * PI)))
                        (fin (1.0 / 3.0)))%D) as E.
  { unfold diameter. rewrite dsqrt_fin by lra. unfold M_PI.
    cbn [dmul lift2 fin]. change (@Some R ?a) with (fin a).
    rewrite !ddiv_fin by lra. reflexivity. }
  rewrite E. split.
  - intros H0.
    replace (3.0 * sqrt 3.0 * L * L * H / (16.0 * PI)) with 0
      by (destruct H0 as [-> | ->]; field; lra).
    unfold dpow, fin.
    destruct (Rlt_dec 0 0) as [Hlt | _]; [lra | ].
    destruct (Req_dec_T 0 0) as [_ | Hne]; [ | contradiction].
    destruct (Rlt_dec 0 (1.0 / 3.0)) as [_ | Hn]; [ | lra].
    cbn [dmul lift2]. f_equal. lra.
  - intros HL HH.
    assert (3.0 * sqrt 3.0 * L * L * H / (16.0 * PI) < 0) as Hneg.
    { assert (0 < L * L) by nra.
      assert (0 < 3.0 * sqrt 3.0 * (L * L)) by (apply Rmult_lt_0_compat; [lra | assumption]).
      assert (0 < 3.0 * sqrt 3.0 * (L * L) * (- H) / (16.0 * PI))
        by (apply Rdiv_lt_0_compat; [apply Rmult_lt_0_compat; lra | lra]).
      replace (3.0 * sqrt 3.0 * L * L * H / (16.0 * PI))
        with (- (3.0 * sqrt 3.0 * (L * L) * (- H) / (16.0 * PI))) by (field; lra).
      lra. }
    unfold dpow, fin.
    destruct (Rlt_dec 0 _) as [Hlt | _]; [lra | ].
    destruct (Req_dec_T _ 0) as [Hz | _]; [lra | ].
    destruct (Req_dec_T (IZR (Int_part (1.0 / 3.0))) (1.0 / 3.0)) as [Hi | _];
      [exfalso; exact (third_not_integer Hi) | ].
    reflexivity.
Qed.

Lemma diameter_degenerate_witness :
  diameter (fin 0) (fin 20) = fin 0 /\ diameter (fin 50) (fin (- 20)) = None.
Proof.
  split.
  - apply (proj1 (diameter_degenerate 0 20)). left. reflexivity.
  - apply (proj2 (diameter_degenerate 50 (- 20))); lra.
Defined.

(** ** The example program *)

Lemma epsAgSD_returns_always (lambda D : double) :
  exists z : complex, epsAgSD lambda D = Returns z.
Proof.
  unfold epsAgSD. cbv zeta.
  destruct Ag_sizes as [Hn [Hnd Hkd]].
  destruct (epsTable_returns_always Ag.num Ag.energy Ag.ndata Ag.kdata
              "Argument of dielectric function of silver is out of range" lambda
              Hn Hnd Hkd ltac:(unfold Ag.num; lia) Ag_energy_increasing) as [z E].
  unfold epsAg. rewrite E. cbn [bind]. eexists. reflexivity.
Qed.

Lemma epsAuSD_returns_always (lambda D : double) :
  exists z : complex, epsAuSD lambda D = Returns z.
Proof.
  unfold epsAuSD. cbv zeta.
  destruct Au_sizes as [Hn [Hnd Hkd]].
  destruct (epsTable_returns_always Au.num Au.energy Au.ndata Au.kdata
              "Argument of dielectric function of gold is out of range" lambda
              Hn Hnd Hkd ltac:(unfold Au.num; lia) Au_energy_increasing) as [z E].
  unfold epsAu. rewrite E. cbn [bind]. eexists. reflexivity.
Qed.

(** The four numbers that one iteration writes agree. *)
Lemma new_lines_agree (eps_h L_size H_size R_size wl : double) (eps_m : complex) :
  lines_agree eps_h
    (wl, c_real (dipPolariz wl eps_m eps_h L_size H_size R_size))
    (wl, c_imag (dipPolariz wl eps_m eps_h L_size H_size R_size))
    (wl, scatCSdip wl eps_m eps_h L_size H_size R_size)
    (wl, extCSdip wl eps_m eps_h L_size H_size R_size).
Proof.
  unfold lines_agree. cbn [fst snd].
  split; [reflexivity | ]. split; [reflexivity | ]. split; [reflexivity | ].
  intros eh w a b -> Heh -> Hw Hre Him.
  rewrite scatCSdip_eval, extCSdip_eval by assumption.
  destruct (dipPolariz (fin w) eps_m (fin eh) L_size H_size R_size) as [alpha | ];
    [ | discriminate].
  cbn [c_real c_imag] in Hre, Him. unfold fin in Hre, Him.
  injection Hre as Hre. injection Him as Him.
  rewrite Cmod_sqr, Hre, Him. split; reflexivity.
Qed.

Lemma nth_error_snoc {A : Type} (l : list A) (x : A) (k : nat) (y : A) :
  nth_error (l ++ [x]) k = Some y ->
  (k < length l /\ nth_error l k = Some y)%nat \/ (k = length l /\ y = x).
Proof.
  intros E. destruct (Nat.lt_ge_cases k (length l)) as [Hlt | Hge].
  - left. split; [exact Hlt | ]. now rewrite nth_error_app1 in E.
  - rewrite nth_error_app2 in E by exact Hge.
    destruct (k - length l)%nat as [ | m] eqn:Ek.
    + right. cbn in E. split; [lia | congruence].
    + cbn in E. destruct m; discriminate.
Qed.

Lemma shifted_grid (f : Z -> double) (i : Z) (steps : nat) :
  f i :: map (fun k => f (i + 1 + Z.of_nat k)%Z) (seq 0 steps)
  = map (fun k => f (i + Z.of_nat k)%Z) (seq 0 (S steps)).
Proof.
  cbn [seq map]. f_equal; [f_equal; lia | ].
  rewrite <- seq_shift, map_map. apply map_ext. intros k. f_equal. lia.
Qed.

(** The loop of [main] runs to its end; it adds one line per iteration to
    each file, at the wavelength of the iteration, and the lines agree. *)
Lemma main_loop_spec (L_size R_size H_size eps_h : double) (is_silver : bool)
    (wl_min wl_step : R) (D_SD : double) (steps : nat) :
  forall (i : Z) (out : output),
  aligned out -> files_agree eps_h out ->
  exists out' : output,
    main_loop L_size R_size H_size eps_h is_silver (fin wl_min) (fin wl_step) D_SD
              steps i out = Returns out' /\
    printed_D_SD out' = printed_D_SD out /\
    aligned out' /\ files_agree eps_h out' /\
    let added := map (fun k => fin (wl_min + IZR (i + Z.of_nat k) * wl_step)) (seq 0 steps) in
    map fst (fout_re out') = map fst (fout_re out) ++ added /\
    map fst (fout_im out') = map fst (fout_im out) ++ added /\
    map fst (fout_sc out') = map fst (fout_sc out) ++ added /\
    map fst (fout_ex out') = map fst (fout_ex out) ++ added.
Proof.
  induction steps as [ | steps IH]; intros i out Hal Hag.
  - exists out. cbn [main_loop seq map]. rewrite !app_nil_r.
    split; [reflexivity | ]. split; [reflexivity | ]. split; [exact Hal | ].
    split; [exact Hag | ]. cbv zeta. split; [reflexivity | ].
    split; [reflexivity | ]. split; reflexivity.
  - cbn [main_loop]. cbv zeta.
    change (fin wl_min + fin (IZR i) * fin wl_step)%D with (fin (wl_min + IZR i * wl_step)).
    set (wl := fin (wl_min + IZR i * wl_step)).
    assert (exists z, (if is_silver then epsAgSD wl D_SD else epsAuSD wl D_SD) = Returns z)
      as [eps_m E]
      by (destruct is_silver; [apply epsAgSD_returns_always | apply epsAuSD_returns_always]).
    rewrite E. cbn [bind].
    destruct Hal as [Hl1 [Hl2 Hl3]].
    match goal with
    | |- context [main_loop _ _ _ _ _ _ _ _ steps (i + 1)%Z ?o] => set (out1 := o)
    end.
    assert (aligned out1) as Hal1
      by (unfold aligned, out1; cbn; rewrite !length_app; cbn; lia).
    assert (files_agree eps_h out1) as Hag1.
    { unfold files_agree, out1. cbn [fout_re fout_im fout_sc fout_ex].
      intros k lr li ls le Er Ei Es Ee.
      apply nth_error_snoc in Er, Ei, Es, Ee.
      destruct Er as [[Hk Er] | [Hk ->]].
      - destruct Ei as [[_ Ei] | [Hk' _]]; [ | lia].
        destruct Es as [[_ Es] | [Hk' _]]; [ | lia].
        destruct Ee as [[_ Ee] | [Hk' _]]; [ | lia].
        exact (Hag k lr li ls le Er Ei Es Ee).
      - destruct Ei as [[Hk' _] | [_ ->]]; [lia | ].
        destruct Es as [[Hk' _] | [_ ->]]; [lia | ].
        destruct Ee as [[Hk' _] | [_ ->]]; [lia | ].
        apply new_lines_agree. }
    destruct (IH (i + 1)%Z out1 Hal1 Hag1) as [out' [Eout [Hp [Hal' [Hag' Hmaps]]]]].
    exists out'. split; [exact Eout | ]. split; [exact Hp | ].
    split; [exact Hal' | ]. split; [exact Hag' | ].
    cbv zeta in Hmaps |- *. destruct Hmaps as [M1 [M2 [M3 M4]]].
    rewrite <- (shifted_grid (fun j => fin (wl_min + IZR j * wl_step)) i steps).
    unfold out1 in M1, M2, M3, M4. cbn [fout_re fout_im fout_sc fout_ex] in M1, M2, M3, M4.
    rewrite map_app in M1, M2, M3, M4. cbn [map fst] in M1, M2, M3, M4.
    rewrite <- app_assoc in M1, M2, M3, M4. cbn [app] in M1, M2, M3, M4.
    repeat split; assumption.
Qed.

Lemma Int_part_of_IZR (z : Z) : Int_part (IZR z) = z.
Proof. symmetry. apply Int_part_spec. lra. Qed.

Lemma trunc_IZR (z : Z) : trunc (IZR z) = z.
Proof.
  unfold trunc. destruct (Rlt_dec (IZR z) 0) as [Hneg | Hpos].
  - rewrite <- opp_IZR, Int_part_of_IZR. lia.
  - apply Int_part_of_IZR.
Qed.

Lemma to_int_fin (r : R) :
  (INT_MIN <= trunc r <= INT_MAX)%Z -> to_int (fin r) = Returns (trunc r).
Proof.
  intros [Hlo Hhi]. unfold to_int, fin.
  apply Z.leb_le in Hlo, Hhi. rewrite Hlo, Hhi. reflexivity.
Qed.

Lemma main_with_spec (L_size R_size H_size eps_h : double) (is_silver : bool)
    (wl_min wl_max wl_step : R) :
  wl_step <> 0 ->
  (INT_MIN <= trunc ((wl_max - wl_min) / wl_step) < INT_MAX)%Z ->
  exists out : output,
    main_with L_size R_size H_size eps_h is_silver (fin wl_min) (fin wl_max) (fin wl_step)
      = Returns (0%Z, out) /\
    printed_D_SD out = diameter L_size H_size /\
    aligned out /\ files_agree eps_h out /\
    let lines := grid wl_min wl_step (Z.to_nat (trunc ((wl_max - wl_min) / wl_step) + 1)) in
    map fst (fout_re out) = lines /\ map fst (fout_im out) = lines /\
    map fst (fout_sc out) = lines /\ map fst (fout_ex out) = lines.
Proof.
  intros Hstep Hq. unfold main_with. cbv zeta.
  change (fin wl_max - fin wl_min)%D with (fin (wl_max - wl_min)).
  rewrite (ddiv_fin _ _ Hstep), to_int_fin by lia. cbn [bind].
  set (q := trunc ((wl_max - wl_min) / wl_step)) in *.
  destruct ((q + 1 >? INT_MAX)%Z) eqn:Ecmp; [apply Z.gtb_lt in Ecmp; lia | ].
  assert (aligned (mkOutput (diameter L_size H_size) [] [] [] [])) as Hal
    by (unfold aligned; cbn; auto).
  assert (files_agree eps_h (mkOutput (diameter L_size H_size) [] [] [] [])) as Hag
    by (intros k lr li ls le E; destruct k; discriminate E).
  destruct (main_loop_spec L_size R_size H_size eps_h is_silver wl_min wl_step
              (diameter L_size H_size) (Z.to_nat (q + 1)) 0 _ Hal Hag)
    as [out [Eout [Hp [Hal' [Hag' Hmaps]]]]].
  exists out. rewrite Eout. cbn [bind].
  split; [reflexivity | ]. split; [exact Hp | ]. split; [exact Hal' | ].
  split; [exact Hag' | ]. exact Hmaps.
Qed.

(** For whole numbers the quotient of the program is the exact one. *)
Lemma exact_quotient (a b s : Z) :
  s <> 0%Z -> (s | b - a)%Z ->
  (IZR b - IZR a) / IZR s = IZR ((b - a) / s).
Proof.
  intros Hs [q Hq]. rewrite Hq, Z.div_mul by exact Hs.
  rewrite <- minus_IZR, Hq, mult_IZR. field. apply not_0_IZR. exact Hs.
Qed.

Lemma main_steps : trunc ((800.0 - 300.0) / 2.0) = 250%Z.
Proof.
  replace ((800.0 - 300.0) / 2.0) with (IZR 250) by lra. apply trunc_IZR.
Qed.

Lemma main_parameters :
  main = main_with 50.0 2.0 20.0 1.0 true (fin (IZR 300)) (fin (IZR 800)) (fin (IZR 2)).
Proof.
  unfold main. replace 300.0 with (IZR 300) by lra.
  replace 800.0 with (IZR 800) by lra. replace 2.0 with (IZR 2) at 2 by lra.
  reflexivity.
Qed.

(** X17: the program of [main], for any geometry, host and metal, and for
    wavelength bounds and a step that are whole numbers of magnitude at
    most 2^52 (doubles hold them, their differences and the wavelengths of
    the loop exactly), the step other than 0 and a divisor of
    [wl_max - wl_min], the quotient an [int] below [INT_MAX]: the run ends
    with status 0, never in [exit] from the permittivity of the metal; it
    prints [diameter(L_size, H_size)]; and each of the four files gets the
    same [(wl_max - wl_min)/wl_step + 1] lines of wavelengths, the k-th at
    [wl_min + k wl_step] (none when that number is not positive). *)
Theorem main_writes_every_wavelength (L_size R_size H_size eps_h : double)
    (is_silver : bool) (a b s : Z) :
  (Z.abs a <= 2 ^ 52)%Z -> (Z.abs b <= 2 ^ 52)%Z -> (Z.abs s <= 2 ^ 52)%Z ->
  s <> 0%Z -> (s | b - a)%Z ->
  (INT_MIN <= (b - a) / s < INT_MAX)%Z ->
  exists out : output,
    main_with L_size R_size H_size eps_h is_silver (fin (IZR a)) (fin (IZR b)) (fin (IZR s))
      = Returns (0%Z, out) /\
    printed_D_SD out = diameter L_size H_size /\
    let lines := grid (IZR a) (IZR s) (Z.to_nat ((b - a) / s + 1)) in
    map fst (fout_re out) = lines /\ map fst (fout_im out) = lines /\
    map fst (fout_sc out) = lines /\ map fst (fout_ex out) = lines.
Proof.
  intros _ _ _ Hs Hdiv Hq.
  pose proof (exact_quotient a b s Hs Hdiv) as Eq.
  destruct (main_with_spec L_size R_size H_size eps_h is_silver (IZR a) (IZR b) (IZR s))
    as [out [E [Hp [_ [_ Hmaps]]]]].
  { apply not_0_IZR. exact Hs. }
  { rewrite Eq, trunc_IZR. exact Hq. }
  rewrite Eq, trunc_IZR in Hmaps.
  exists out. split; [exact E | ]. split; [exact Hp | exact Hmaps].
Qed.

Lemma main_writes_every_wavelength_witness :
  exists out : output,
    main = Returns (0%Z, out) /\
    printed_D_SD out = diameter 50.0 20.0 /\
    let lines := grid (IZR 300) (IZR 2) (Z.to_nat ((800 - 300) / 2 + 1)) in
    map fst (fout_re out) = lines /\ map fst (fout_im out) = lines /\
    map fst (fout_sc out) = lines /\ map fst (fout_ex out) = lines.
Proof.
  rewrite main_parameters.
  apply (main_writes_every_wavelength 50.0 2.0 20.0 1.0 true 300 800 2).
  - vm_compute. discriminate.
  - vm_compute. discriminate.
  - vm_compute. discriminate.
  - discriminate.
  - exists 250%Z. reflexivity.
  - unfold INT_MIN, INT_MAX. split; [vm_compute; discriminate | reflexivity].
Defined.

(** X18: for finite wavelength bounds and a step other than 0 whose
    number of steps fits an [int] and is below [INT_MAX], the four files of
    a run agree line by line: they have as many lines, the lines of one
    index carry one wavelength, and where the host permittivity and the
    wavelength are positive and the polarizability written to the first
    two files is finite, [a + i b], the third file carries
    [(8 pi / 3) k^4 (a^2 + b^2) 1e-14] and the fourth [4 pi k b 1e-14], with
    [k = 2 pi sqrt eps_h / wl]. *)
Theorem main_files_agree (L_size R_size H_size eps_h : double)
    (is_silver : bool) (wl_min wl_max wl_step : R) :
  wl_step <> 0 ->
  (INT_MIN <= trunc ((wl_max - wl_min) / wl_step) < INT_MAX)%Z ->
  exists out : output,
    main_with L_size R_size H_size eps_h is_silver (fin wl_min) (fin wl_max) (fin wl_step)
      = Returns (0%Z, out) /\
    aligned out /\ files_agree eps_h out.
Proof.
  intros Hstep Hq.
  destruct (main_with_spec L_size R_size H_size eps_h is_silver wl_min wl_max wl_step
              Hstep Hq) as [out [E [_ [Hal [Hag _]]]]].
  exists out. split; [exact E | ]. split; [exact Hal | exact Hag].
Qed.

Lemma main_files_agree_witness :
  exists out : output,
    main = Returns (0%Z, out) /\ aligned out /\ files_agree 1.0 out.
Proof.
  apply (main_files_agree 50.0 2.0 20.0 1.0 true 300.0 800.0 2.0).
  - lra.
  - rewrite main_steps. unfold INT_MIN, INT_MAX. lia.
Defined.

Lemma grid_length (wl_min wl_step : R) (n : nat) : length (grid wl_min wl_step n) = n.
Proof. unfold grid. now rewrite length_map, length_seq. Qed.

Lemma grid_nth (wl_min wl_step : R) (n k : nat) (w : double) :
  nth_error (grid wl_min wl_step n) k = Some w ->
  (k < n)%nat /\ w = fin (wl_min + IZR (Z.of_nat k) * wl_step).
Proof.
  intros E.
  assert (k < n)%nat as Hk
    by (rewrite <- (grid_length wl_min wl_step n); apply nth_error_Some; congruence).
  split; [exact Hk | ].
  unfold grid in E. rewrite nth_error_map, nth_error_seq in E.
  apply Nat.ltb_lt in Hk. rewrite Hk in E. cbn in E. congruence.
Qed.

Lemma grid_at (wl_min wl_step : R) (n k : nat) :
  (k < n)%nat ->
  nth_error (grid wl_min wl_step n) k = Some (fin (wl_min + IZR (Z.of_nat k) * wl_step)).
Proof.
  intros Hk. unfold grid. rewrite nth_error_map, nth_error_seq.
  apply Nat.ltb_lt in Hk. rewrite Hk. reflexivity.
Qed.

(** X19: for wavelength bounds and a step that are whole numbers of
    magnitude at most 2^52, with [wl_min <= wl_max] and a positive step
    that divides [wl_max - wl_min] a number of times below [INT_MAX], the
    run writes at least one line per file; the first line is at [wl_min],
    the last one at [wl_max], and every wavelength lies between the two. *)
Theorem main_covers_the_range (L_size R_size H_size eps_h : double)
    (is_silver : bool) (a b s : Z) :
  (Z.abs a <= 2 ^ 52)%Z -> (Z.abs b <= 2 ^ 52)%Z -> (s <= 2 ^ 52)%Z ->
  (0 < s)%Z -> (a <= b)%Z -> (s | b - a)%Z ->
  ((b - a) / s < INT_MAX)%Z ->
  exists out : output,
    main_with L_size R_size H_size eps_h is_silver (fin (IZR a)) (fin (IZR b)) (fin (IZR s))
      = Returns (0%Z, out) /\
    (1 <= length (fout_re out))%nat /\
    (forall (k : nat) (line : double * double),
       nth_error (fout_re out) k = Some line ->
       exists w : R, fst line = fin w /\ IZR a <= w <= IZR b) /\
    nth_error (map fst (fout_re out)) 0 = Some (fin (IZR a)) /\
    nth_error (map fst (fout_re out)) (length (fout_re out) - 1) = Some (fin (IZR b)).
Proof.
  intros _ _ _ Hs Hab Hdiv Hq.
  assert (s <> 0%Z) as Hs0 by lia.
  pose proof (exact_quotient a b s Hs0 Hdiv) as Eq.
  destruct Hdiv as [q Hdiv].
  assert ((b - a) / s = q)%Z as Eqq by (rewrite Hdiv; apply Z.div_mul; exact Hs0).
  rewrite Eqq in Eq, Hq.
  assert (0 <= q)%Z as Hq0 by nia.
  destruct (main_with_spec L_size R_size H_size eps_h is_silver (IZR a) (IZR b) (IZR s))
    as [out [E [_ [_ [_ [Hre _]]]]]].
  { apply not_0_IZR. exact Hs0. }
  { rewrite Eq, trunc_IZR. unfold INT_MIN. lia. }
  cbv zeta in Hre. rewrite Eq, trunc_IZR in Hre.
  assert (length (fout_re out) = Z.to_nat (q + 1)) as Hlen
    by (rewrite <- (length_map fst), Hre; apply grid_length).
  exists out. split; [exact E | ]. split; [lia | ]. split; [ | split].
  - intros k line Ek.
    assert (nth_error (map fst (fout_re out)) k = Some (fst line)) as Ek'
      by (rewrite nth_error_map, Ek; reflexivity).
    rewrite Hre in Ek'. apply grid_nth in Ek'. destruct Ek' as [Hk Ew].
    exists (IZR a + IZR (Z.of_nat k) * IZR s). split; [exact Ew | ].
    assert (0 <= Z.of_nat k * s <= q * s)%Z as [Hlo Hhi]
      by (split; [apply Z.mul_nonneg_nonneg | apply Z.mul_le_mono_nonneg_r]; lia).
    rewrite <- mult_IZR, <- plus_IZR. split; apply IZR_le; lia.
  - rewrite Hre, grid_at by lia. cbn [Z.of_nat].
    do 2 f_equal. ring.
  - rewrite Hre, Hlen, grid_at by lia.
    replace (Z.of_nat (Z.to_nat (q + 1) - 1)) with q by lia.
    do 2 f_equal. rewrite <- mult_IZR, <- plus_IZR. f_equal. lia.
Qed.

Lemma main_covers_the_range_witness :
  exists out : output,
    main = Returns (0%Z, out) /\
    (1 <= length (fout_re out))%nat /\
    (forall (k : nat) (line : double * double),
       nth_error (fout_re out) k = Some line ->
       exists w : R, fst line = fin w /\ IZR 300 <= w <= IZR 800) /\
    nth_error (map fst (fout_re out)) 0 = Some (fin (IZR 300)) /\
    nth_error (map fst (fout_re out)) (length (fout_re out) - 1) = Some (fin (IZR 800)).
Proof.
  rewrite main_parameters.
  apply (main_covers_the_range 50.0 2.0 20.0 1.0 true 300 800 2).
  - vm_compute. discriminate.
  - vm_compute. discriminate.
  - vm_compute. discriminate.
  - reflexivity.
  - vm_compute. discriminate.
  - exists 250%Z. reflexivity.
  - unfold INT_MAX. reflexivity.
Defined.
